(** * Continuation freeze/thaw: the stack-chunk bookkeeping of
      [continuationFreezeThaw.cpp], as a shallow embedding.

    Pointers into the native stack ([intptr_t*]) are word addresses in [Z];
    pointers into a chunk are word offsets from [chunk->start_address()].
    Sizes are C++ [int]s; they are bounded by the largest stack chunk the heap
    hands out, far below 2^31, and are modelled as [Z].  Stack chunks live in
    a heap indexed by object identity, so that a chunk mutated through
    [_cont.tail()] is the chunk every other reference sees. *)

From Stdlib Require Import ZArith Lia Bool.
From stdpp Require Import base decidable option list functions.

Local Open Scope Z_scope.

(** ** Words, addresses and memory *)

Abbreviation address := Z (only parsing).
Abbreviation memory := (Z -> Z) (only parsing).

(** [Copy::disjoint_words]-style block copy of [size] words, as used by
    [copy_from_stack_to_chunk] and [copy_from_chunk_to_stack]. *)
Definition copy_words (src : memory) (from : Z) (dst : memory) (to size : Z) : memory :=
  fun a => if decide (to <= a < to + size) then src (from + (a - to)) else dst a.

(** ** Stack chunks *)

Definition stackChunkOop := option nat.

Record stackChunk := {
  stack_size : Z;
  sp : Z;
  argsize : Z;
  max_size : Z;
  pc : address;
  parent : stackChunkOop;
  has_mixed_frames : bool;
  is_gc_mode : bool;
  has_bitmap : bool;
  requires_barriers : bool;   (* the collector's answer for this chunk *)
  words : memory              (* the inline word array, by offset *)
}.

Definition set_sp (v : Z) (c : stackChunk) : stackChunk :=
  {| stack_size := stack_size c; sp := v; argsize := argsize c; max_size := max_size c;
     pc := pc c; parent := parent c; has_mixed_frames := has_mixed_frames c;
     is_gc_mode := is_gc_mode c; has_bitmap := has_bitmap c;
     requires_barriers := requires_barriers c; words := words c |}.

Definition set_argsize (v : Z) (c : stackChunk) : stackChunk :=
  {| stack_size := stack_size c; sp := sp c; argsize := v; max_size := max_size c;
     pc := pc c; parent := parent c; has_mixed_frames := has_mixed_frames c;
     is_gc_mode := is_gc_mode c; has_bitmap := has_bitmap c;
     requires_barriers := requires_barriers c; words := words c |}.

Definition set_max_size (v : Z) (c : stackChunk) : stackChunk :=
  {| stack_size := stack_size c; sp := sp c; argsize := argsize c; max_size := v;
     pc := pc c; parent := parent c; has_mixed_frames := has_mixed_frames c;
     is_gc_mode := is_gc_mode c; has_bitmap := has_bitmap c;
     requires_barriers := requires_barriers c; words := words c |}.

Definition set_pc (v : address) (c : stackChunk) : stackChunk :=
  {| stack_size := stack_size c; sp := sp c; argsize := argsize c; max_size := max_size c;
     pc := v; parent := parent c; has_mixed_frames := has_mixed_frames c;
     is_gc_mode := is_gc_mode c; has_bitmap := has_bitmap c;
     requires_barriers := requires_barriers c; words := words c |}.

Definition set_has_mixed_frames (v : bool) (c : stackChunk) : stackChunk :=
  {| stack_size := stack_size c; sp := sp c; argsize := argsize c; max_size := max_size c;
     pc := pc c; parent := parent c; has_mixed_frames := v;
     is_gc_mode := is_gc_mode c; has_bitmap := has_bitmap c;
     requires_barriers := requires_barriers c; words := words c |}.

Definition set_words (v : memory) (c : stackChunk) : stackChunk :=
  {| stack_size := stack_size c; sp := sp c; argsize := argsize c; max_size := max_size c;
     pc := pc c; parent := parent c; has_mixed_frames := has_mixed_frames c;
     is_gc_mode := is_gc_mode c; has_bitmap := has_bitmap c;
     requires_barriers := requires_barriers c; words := v |}.

(** Modelled from the spec: [stackChunkOopDesc::is_empty] is declared in
    stackChunkOop.inline.hpp, outside this file; the data model says
    "when sp == stack_size the chunk is empty". *)
Definition is_empty (c : stackChunk) : bool := bool_decide (sp c = stack_size c).

(** Modelled from the spec: [stackChunkOopDesc::has_thaw_slowpath_condition]
    is declared outside this file; by invariant 3 of the data model the fast
    paths need a chunk without mixed frames, not in GC mode and without a
    bitmap (the assertions heading [thaw_fast] say the same). *)
Definition has_thaw_slowpath_condition (c : stackChunk) : bool :=
  has_mixed_frames c || is_gc_mode c || has_bitmap c.

(** A chunk as [StackChunkAllocator] hands it out (the assertions in
    [allocate_chunk]): empty, no flags, no pc. *)
Definition fresh_chunk (size : Z) (barriers : bool) (par : stackChunkOop) : stackChunk :=
  {| stack_size := size; sp := size; argsize := 0; max_size := 0; pc := 0;
     parent := par; has_mixed_frames := false; is_gc_mode := false; has_bitmap := false;
     requires_barriers := barriers; words := fun _ => 0 |}.

(** ** Thread, entry and continuation *)

Record ContinuationEntry := {
  entry_sp : Z;
  entry_pc : address;
  entry_argsize : Z;
  entry_is_pinned : bool
}.

Definition entry_set_argsize (v : Z) (e : ContinuationEntry) : ContinuationEntry :=
  {| entry_sp := entry_sp e; entry_pc := entry_pc e; entry_argsize := v;
     entry_is_pinned := entry_is_pinned e |}.

Record JavaThread := {
  cont_fastpath : bool;               (* cont_fastpath(): no frame recorded that forbids the fast path *)
  cont_fastpath_thread_state : bool;
  has_pending_exception : bool;
  held_monitor_count : Z;
  last_Java_sp : Z;                   (* the frame anchor *)
  last_Java_pc : address;
  is_interp_only_mode : bool;
  stack_overflow_limit : Z;           (* a byte address *)
  stack : memory                      (* the native stack, by word address *)
}.

Record VM := {
  heap : list stackChunk;
  continuation_tail : stackChunkOop;  (* jdk_internal_vm_Continuation::tail *)
  entry : ContinuationEntry;
  thread : JavaThread
}.

Definition with_heap (h : list stackChunk) (vm : VM) : VM :=
  {| heap := h; continuation_tail := continuation_tail vm; entry := entry vm;
     thread := thread vm |}.

Definition with_continuation_tail (t : stackChunkOop) (vm : VM) : VM :=
  {| heap := heap vm; continuation_tail := t; entry := entry vm; thread := thread vm |}.

Definition with_entry (e : ContinuationEntry) (vm : VM) : VM :=
  {| heap := heap vm; continuation_tail := continuation_tail vm; entry := e;
     thread := thread vm |}.

Definition with_thread (t : JavaThread) (vm : VM) : VM :=
  {| heap := heap vm; continuation_tail := continuation_tail vm; entry := entry vm;
     thread := t |}.

Definition set_cont_fastpath (v : bool) (t : JavaThread) : JavaThread :=
  {| cont_fastpath := v; cont_fastpath_thread_state := cont_fastpath_thread_state t;
     has_pending_exception := has_pending_exception t;
     held_monitor_count := held_monitor_count t; last_Java_sp := last_Java_sp t;
     last_Java_pc := last_Java_pc t; is_interp_only_mode := is_interp_only_mode t;
     stack_overflow_limit := stack_overflow_limit t;
     stack := stack t |}.

Definition set_pending_exception (v : bool) (t : JavaThread) : JavaThread :=
  {| cont_fastpath := cont_fastpath t; cont_fastpath_thread_state := cont_fastpath_thread_state t;
     has_pending_exception := v;
     held_monitor_count := held_monitor_count t; last_Java_sp := last_Java_sp t;
     last_Java_pc := last_Java_pc t; is_interp_only_mode := is_interp_only_mode t;
     stack_overflow_limit := stack_overflow_limit t;
     stack := stack t |}.

Definition set_anchor (asp : Z) (apc : address) (t : JavaThread) : JavaThread :=
  {| cont_fastpath := cont_fastpath t; cont_fastpath_thread_state := cont_fastpath_thread_state t;
     has_pending_exception := has_pending_exception t;
     held_monitor_count := held_monitor_count t; last_Java_sp := asp;
     last_Java_pc := apc; is_interp_only_mode := is_interp_only_mode t;
     stack_overflow_limit := stack_overflow_limit t;
     stack := stack t |}.

Definition set_stack (m : memory) (t : JavaThread) : JavaThread :=
  {| cont_fastpath := cont_fastpath t; cont_fastpath_thread_state := cont_fastpath_thread_state t;
     has_pending_exception := has_pending_exception t;
     held_monitor_count := held_monitor_count t; last_Java_sp := last_Java_sp t;
     last_Java_pc := last_Java_pc t; is_interp_only_mode := is_interp_only_mode t;
     stack_overflow_limit := stack_overflow_limit t;
     stack := m |}.

(** [set_anchor_to_entry], the memory-free part of [unwind_frames]. *)
Definition set_anchor_to_entry (vm : VM) : VM :=
  with_thread (set_anchor (entry_sp (entry vm)) (entry_pc (entry vm)) (thread vm)) vm.

Definition unwind_frames (vm : VM) : VM := set_anchor_to_entry vm.

(** ** Frames

    A [frame] is the descriptor of a frame on the native stack: what
    [frame], its code blob and [ContinuationHelper::*Frame] answer about it.
    The thread's stack is the list of its frames, the last Java frame first;
    [sender] is the next element. *)

Inductive frame_kind := CompiledFrame | InterpretedFrame | StubFrame | OtherFrame.

Global Instance frame_kind_eq_dec : EqDecision frame_kind.
Proof. solve_decision. Defined.

Record frame := {
  kind : frame_kind;             (* is_compiled_frame / is_interpreted_frame / Frame::is_stub(cb) *)
  frame_pc : address;
  frame_fp : Z;
  oop_map : bool;                (* oop_map() != nullptr *)
  is_owning_locks : bool;
  is_native : bool;              (* interpreter_frame_method()->is_native() *)
  frame_top : Z -> bool -> Z;    (* FKind::frame_top(f, callee_argsize, callee_interpreted) *)
  frame_bottom : Z;              (* FKind::frame_bottom(f) *)
  stack_argsize : Z;             (* FKind::stack_argsize(f) *)
  max_locals : Z;                (* interpreter_frame_method()->max_locals() *)
  cb_frame_size : Z              (* cb()->frame_size() *)
}.

(** A [frame] value as the engine builds it for a frame it has placed: in a
    chunk (a heap frame, positions are chunk offsets) or, on thaw, on the
    native stack. *)
Record hframe := {
  h_sp : Z;
  h_unextended_sp : Z;
  h_pc : address;
  h_interpreted : bool
}.

Definition empty_hframe : hframe :=
  {| h_sp := 0; h_unextended_sp := 0; h_pc := 0; h_interpreted := false |}.

(** [frame::set_sp] *)
Definition hframe_set_sp (v : Z) (f : hframe) : hframe :=
  {| h_sp := v; h_unextended_sp := h_unextended_sp f; h_pc := h_pc f;
     h_interpreted := h_interpreted f |}.

(** A frame inside a chunk as [StackChunkFrameStream<ChunkFrames::Mixed>]
    presents it; the stream is a cursor over the list of these, the topmost
    first, and [_end] is where a finished cursor stands. *)
Record cframe := {
  c_kind : frame_kind;            (* interpreted, compiled or safepoint stub *)
  c_sp : Z;
  c_unextended_sp : Z;
  c_pc : address;
  c_size : Z;                     (* CompiledFrame::size(hf), StubFrame::size(hf) *)
  c_stack_argsize : Z;
  c_frame_bottom : Z;             (* InterpretedFrame::frame_bottom(hf) *)
  c_max_locals : Z;
  c_is_deoptimized : bool;        (* the thawed frame is_deoptimized_frame() *)
  c_marked_for_deoptimization : bool
}.

(** ** The platform shim and the runtime

    [frame::metadata_words], [frame::sender_sp_ret_address_offset()],
    [frame::align_wiggle], [ContinuationHelper::frame_align_words],
    [ContinuationHelper::frame_align_pointer], the [_pd] functions and the
    frame helpers are per-CPU code outside this file; the engine is
    parametric in them.  The chunk-memory functions take and return the
    chunk's words. *)

Class Platform := {
  metadata_words : Z;
  sender_sp_ret_address_offset : Z;
  align_wiggle : Z;
  LogBytesPerWord : Z;
  frame_align_words : Z -> Z;
  frame_align_pointer : Z -> Z;
  (* FreezeBase::patch_stack_pd(frame_sp, heap_sp): the native stack after the
     patch, from the chunk's words and the stack before *)
  patch_stack_pd : Z -> Z -> memory -> memory -> memory;
  (* slow freeze *)
  adjust_interpreted_frame_unextended_sp : frame -> frame;
  new_heap_frame : frame -> hframe -> hframe * Z;   (* the heap frame, and the sp it sets in caller *)
  heap_frame_top : hframe -> Z -> bool -> Z;
  heap_frame_bottom : hframe -> Z;
  relativize_interpreted_frame_metadata : frame -> hframe -> memory -> memory;
  patch_pc : hframe -> address -> memory -> memory;
  patch_pd : hframe -> hframe -> memory -> memory;
  patch_sender_sp : hframe -> Z -> memory -> memory;
  set_top_frame_metadata_pd : hframe -> memory -> memory;
  (* slow thaw; these act on the native stack *)
  frame_alignment : Z;                                   (* in bytes *)
  new_stack_frame : cframe -> hframe -> bool -> hframe * Z;   (* likewise *)
  set_interpreter_frame_bottom : hframe -> Z -> memory -> memory;
  derelativize_interpreted_frame_metadata : cframe -> hframe -> memory -> memory;
  thaw_patch_pd : hframe -> hframe -> memory -> memory;
  deoptimize : hframe -> memory -> memory;
  fix_thawed_frame : hframe -> memory -> memory;
  push_pd : hframe -> memory -> memory
}.

Class Runtime := {
  UseZGC : bool;
  UseContinuationFastPath : bool;
  PreserveFramePointer : bool;
  stack_chunk_max_size : Z;           (* CollectedHeap::stack_chunk_max_size() *)
  instance_size : Z -> Z;             (* InstanceStackChunkKlass::instance_size *)
  vm_page_size : Z;                   (* os::vm_page_size() *)
  Interpreter_contains : address -> bool;
  cont_returnBarrier : address;       (* StubRoutines::cont_returnBarrier() *)
  blob_frame_size : address -> Z;     (* CodeCache::find_blob(pc)->frame_size() *)
  blob_stack_argsize : address -> Z;  (* the stack argument words of the method at pc *)
  (* StackChunkFrameStream<Mixed>: last.unextended_sp() - last.sp() of a
     chunk's interpreted top frame *)
  mixed_unextended_gap : stackChunk -> Z
}.

(** ** Freeze *)

Inductive freeze_result :=
  | freeze_ok
  | freeze_ok_bottom
  | freeze_pinned_cs
  | freeze_pinned_native
  | freeze_pinned_monitor
  | freeze_exception.

Global Instance freeze_result_eq_dec : EqDecision freeze_result.
Proof. solve_decision. Defined.

Definition freeze_result_code (r : freeze_result) : Z :=
  match r with
  | freeze_ok => 0
  | freeze_ok_bottom => 1
  | freeze_pinned_cs => 2
  | freeze_pinned_native => 3
  | freeze_pinned_monitor => 4
  | freeze_exception => 5
  end.

Definition is_pinned_result (r : freeze_result) : bool :=
  match r with
  | freeze_pinned_cs | freeze_pinned_native | freeze_pinned_monitor => true
  | _ => false
  end.

(** The [Freeze] object: [FreezeBase]'s fields and the tail of its
    [ContinuationWrapper], which is local until [write] publishes it. *)
Record Freeze := {
  _cont_tail : stackChunkOop;
  _barriers : bool;
  _preempt : bool;
  _bottom_address : Z;
  _size : Z;
  _align_size : Z
}.

Definition set_tail (t : stackChunkOop) (fr : Freeze) : Freeze :=
  {| _cont_tail := t; _barriers := _barriers fr; _preempt := _preempt fr;
     _bottom_address := _bottom_address fr; _size := _size fr; _align_size := _align_size fr |}.

Definition set_barriers (b : bool) (fr : Freeze) : Freeze :=
  {| _cont_tail := _cont_tail fr; _barriers := b; _preempt := _preempt fr;
     _bottom_address := _bottom_address fr; _size := _size fr; _align_size := _align_size fr |}.

Definition set_size (v : Z) (fr : Freeze) : Freeze :=
  {| _cont_tail := _cont_tail fr; _barriers := _barriers fr; _preempt := _preempt fr;
     _bottom_address := _bottom_address fr; _size := v; _align_size := _align_size fr |}.

Definition set_align_size (v : Z) (fr : Freeze) : Freeze :=
  {| _cont_tail := _cont_tail fr; _barriers := _barriers fr; _preempt := _preempt fr;
     _bottom_address := _bottom_address fr; _size := _size fr; _align_size := v |}.

Inductive thaw_kind := thaw_top | thaw_return_barrier | thaw_exception.

Global Instance thaw_kind_eq_dec : EqDecision thaw_kind.
Proof. solve_decision. Defined.

(** The [Thaw] object: [ThawBase]'s fields and the tail of its
    [ContinuationWrapper]; the stream is passed along explicitly. *)
Record Thaw := {
  _thaw_tail : stackChunkOop;
  _thaw_barriers : bool;
  _fastpath : Z;                  (* a stack address; 0 is nullptr *)
  _top_unextended_sp : Z;
  _thaw_align_size : Z;
  _is_preempted : bool            (* _cont.is_preempted() *)
}.

Definition thaw_set_tail (t : stackChunkOop) (th : Thaw) : Thaw :=
  {| _thaw_tail := t; _thaw_barriers := _thaw_barriers th; _fastpath := _fastpath th;
     _top_unextended_sp := _top_unextended_sp th; _thaw_align_size := _thaw_align_size th;
     _is_preempted := _is_preempted th |}.

Definition thaw_set_align_size (v : Z) (th : Thaw) : Thaw :=
  {| _thaw_tail := _thaw_tail th; _thaw_barriers := _thaw_barriers th; _fastpath := _fastpath th;
     _top_unextended_sp := _top_unextended_sp th; _thaw_align_size := v;
     _is_preempted := _is_preempted th |}.

Definition thaw_set_top_unextended_sp (v : Z) (th : Thaw) : Thaw :=
  {| _thaw_tail := _thaw_tail th; _thaw_barriers := _thaw_barriers th; _fastpath := _fastpath th;
     _top_unextended_sp := v; _thaw_align_size := _thaw_align_size th;
     _is_preempted := _is_preempted th |}.

(** [ThawBase::maybe_set_fastpath] *)
Definition maybe_set_fastpath (v : Z) (th : Thaw) : Thaw :=
  {| _thaw_tail := _thaw_tail th; _thaw_barriers := _thaw_barriers th;
     _fastpath := if bool_decide (_fastpath th < v) then v else _fastpath th;
     _top_unextended_sp := _top_unextended_sp th; _thaw_align_size := _thaw_align_size th;
     _is_preempted := _is_preempted th |}.

(** What the allocator does on one call of [allocate_chunk]: the TLAB has
    room; or [allocator.allocate()] succeeds after a safepoint, which leaves
    the thread's fast-path flag at [fastpath]; or it returns null, with an
    OutOfMemoryError pending.  [barriers] is what [requires_barriers()]
    answers for the new chunk. *)
Inductive allocation :=
  | tlab_hit (barriers : bool)
  | slow_hit (barriers : bool) (fastpath : bool)
  | slow_null.

Section FreezeThaw.
Context {P : Platform} {R : Runtime}.

(** *** The continuation wrapper *)

Definition tail_chunk (t : stackChunkOop) (vm : VM) : option (nat * stackChunk) :=
  match t with
  | Some id => match heap vm !! id with Some c => Some (id, c) | None => None end
  | None => None
  end.

Definition store_chunk (id : nat) (c : stackChunk) (vm : VM) : VM :=
  with_heap (<[id := c]> (heap vm)) vm.

(** [ContinuationWrapper::last_nonempty_chunk]: the tail, or its parent when
    the tail is empty. *)
Definition last_nonempty_chunk (t : stackChunkOop) (vm : VM) : stackChunkOop :=
  match tail_chunk t vm with
  | Some (id, c) => if is_empty c then parent c else Some id
  | None => None
  end.

(** [ContinuationWrapper::is_empty] *)
Definition cont_is_empty (t : stackChunkOop) (vm : VM) : bool :=
  bool_decide (last_nonempty_chunk t vm = None).

(** [ContinuationWrapper::write]: the one step that publishes the tail. *)
Definition write (t : stackChunkOop) (vm : VM) : VM := with_continuation_tail t vm.

(** [FreezeBase::FreezeBase] (LP64); the wrapper reads the published tail. *)
Definition new_Freeze (preempt : bool) (vm : VM) : Freeze :=
  let b := entry_sp (entry vm) - entry_argsize (entry vm) in
  {| _cont_tail := continuation_tail vm;
     _barriers := false;
     _preempt := preempt;
     _bottom_address :=
       if bool_decide (Z.land (Z.shiftl b LogBytesPerWord) 15 = 0) then b else b - 1;
     _size := 0;
     _align_size := 0 |}.

Definition throw_exception (vm : VM) : VM :=
  with_thread (set_pending_exception true (thread vm)) vm.

(** [Freeze::allocate_chunk] *)
Definition allocate_chunk (size : Z) (a : allocation) (fr : Freeze) (vm : VM)
  : stackChunkOop * Freeze * VM :=
  let size_in_words := instance_size size in
  if bool_decide (0 < stack_chunk_max_size) && bool_decide (stack_chunk_max_size <= size_in_words)
  then (None, fr, if _preempt fr then vm else throw_exception vm)
  else
    let install barriers fr vm :=
      let chunk := fresh_chunk size barriers (last_nonempty_chunk (_cont_tail fr) vm) in
      let id := length (heap vm) in
      (Some id, set_tail (Some id) fr, with_heap (heap vm ++ [chunk]) vm) in
    match a with
    | tlab_hit barriers => install barriers fr vm
    | slow_hit barriers fastpath =>
        let vm := with_thread (set_cont_fastpath fastpath (thread vm)) vm in
        install barriers (set_barriers (negb UseZGC && barriers) fr) vm
    | slow_null => (None, fr, throw_exception vm)
    end.

(** *** The fast path *)

Definition cont_stack_top (frame_sp : Z) : Z := frame_sp + metadata_words.

Definition cont_stack_bottom (vm : VM) : Z :=
  entry_sp (entry vm) - frame_align_words (entry_argsize (entry vm)).

Definition cont_size (frame_sp : Z) (vm : VM) : Z :=
  cont_stack_bottom vm - cont_stack_top frame_sp.

(** [Freeze::is_chunk_available_for_fast_freeze] *)
Definition is_chunk_available_for_fast_freeze (frame_sp : Z) (fr : Freeze) (vm : VM) : bool :=
  match tail_chunk (_cont_tail fr) vm with
  | None => false
  | Some (_, chunk) =>
      if is_gc_mode chunk || requires_barriers chunk || has_mixed_frames chunk then false
      else
        let size := cont_size frame_sp vm in
        let chunk_sp := sp chunk in
        let size := if bool_decide (chunk_sp < stack_size chunk)
                    then size - entry_argsize (entry vm) else size in
        bool_decide (size <= chunk_sp - metadata_words)
  end.

(** The part of [freeze_fast] after the chunk has been chosen: unwind, copy,
    patch, set [sp] and [pc], publish. *)
Definition freeze_fast_copy (frame_sp : Z) (id : nat) (chunk : stackChunk)
    (chunk_start_sp : Z) (fr : Freeze) (vm : VM) : VM :=
  let csize := cont_size frame_sp vm in
  let top := cont_stack_top frame_sp in
  let stk := stack (thread vm) in
  let vm := unwind_frames vm in
  let chunk_new_sp := chunk_start_sp - csize in
  let from := top - metadata_words in
  let to := chunk_new_sp - metadata_words in
  let w := copy_words stk from (words chunk) to (csize + metadata_words) in
  let chunk_bottom_sp := chunk_new_sp + csize - entry_argsize (entry vm) in
  let w := <[chunk_bottom_sp - sender_sp_ret_address_offset := pc chunk]> w in
  let chunk := set_words w chunk in
  let chunk := set_sp chunk_new_sp chunk in
  let chunk := set_pc (stk (top - sender_sp_ret_address_offset)) chunk in
  write (_cont_tail fr) (store_chunk id chunk vm).

(** [Freeze::freeze_fast<chunk_available>]; [None] where the C++ code would
    dereference a null tail. *)
Definition freeze_fast (chunk_available : bool) (frame_sp : Z) (a : allocation)
    (fr : Freeze) (vm : VM) : option (bool * Freeze * VM) :=
  let csize := cont_size frame_sp vm in
  let cargs := entry_argsize (entry vm) in
  if chunk_available then
    match tail_chunk (_cont_tail fr) vm with
    | None => None
    | Some (id, chunk) =>
        if bool_decide (sp chunk < stack_size chunk) then
          let chunk_start_sp := sp chunk + cargs in
          let chunk1 := set_max_size (max_size chunk + csize - cargs) chunk in
          let bottom_sp := cont_stack_bottom vm - cargs in
          let stk := patch_stack_pd bottom_sp (sp chunk) (words chunk) (stack (thread vm)) in
          let vm := with_thread (set_stack stk (thread vm)) vm in
          Some (true, fr, freeze_fast_copy frame_sp id chunk1 chunk_start_sp fr vm)
        else
          let chunk_start_sp := sp chunk in
          let chunk1 := set_argsize cargs (set_max_size csize chunk) in
          Some (true, fr, freeze_fast_copy frame_sp id chunk1 chunk_start_sp fr vm)
    end
  else
    match allocate_chunk (csize + metadata_words) a fr vm with
    | (None, fr, vm) => Some (false, fr, vm)
    | (Some id, fr, vm) =>
        if negb (cont_fastpath (thread vm)) || _barriers fr then Some (false, fr, vm)
        else
          match heap vm !! id with
          | None => None
          | Some chunk =>
              let chunk1 := set_argsize cargs (set_max_size csize chunk) in
              let chunk_start_sp := csize + metadata_words in
              Some (true, fr, freeze_fast_copy frame_sp id chunk1 chunk_start_sp fr vm)
          end
    end.

(** *** The slow path *)

(** The result of a step of the recursive walk: the code, the [caller]
    out-parameter, and the state. *)
Definition walk := option (freeze_result * hframe * Freeze * VM).

(** [FreezeBase::stack_overflow]; [csp] is the address of the local [t] of
    this activation, a byte address on the native stack of the VM code. *)
Definition stack_overflow (csp : Z) (fr : Freeze) (vm : VM) : bool * VM :=
  if bool_decide (csp < stack_overflow_limit (thread vm))
  then (true, if _preempt fr then vm else throw_exception vm)
  else (false, vm).

Definition modify_tail_words (g : memory -> memory) (fr : Freeze) (vm : VM) : option VM :=
  match tail_chunk (_cont_tail fr) vm with
  | Some (id, c) => Some (store_chunk id (set_words (g (words c)) c) vm)
  | None => None
  end.

(** [FreezeBase::copy_to_chunk] *)
Definition copy_to_chunk (from to size : Z) (fr : Freeze) (vm : VM) : option VM :=
  modify_tail_words (fun w => copy_words (stack (thread vm)) from w to size) fr vm.

(** Modelled from the spec: [StackChunkFrameStream] is declared outside this
    file.  Its cursor is done at the bottom of the chunk's frames, which is
    [stack_size - argsize] since the [argsize] words below belong to the
    caller; a done stream yields the empty frame, whose pc is null. *)
Definition stream_is_done_at (c : stackChunk) (pos : Z) : bool :=
  bool_decide (stack_size c - argsize c <= pos).

(** [StackChunkFrameStream<ChunkFrames::Mixed>(chunk).to_frame()] *)
Definition chunk_top_frame (c : stackChunk) : hframe :=
  if stream_is_done_at c (sp c) then
    {| h_sp := sp c; h_unextended_sp := sp c; h_pc := 0; h_interpreted := false |}
  else
    let interp := Interpreter_contains (pc c) in
    {| h_sp := sp c;
       h_unextended_sp := if interp then sp c + mixed_unextended_gap c else sp c;
       h_pc := pc c;
       h_interpreted := interp |}.

(** [FreezeBase::finalize_freeze] *)
Definition finalize_freeze (callee : frame) (argsz : Z) (a : allocation)
    (fr : Freeze) (vm : VM) : walk :=
  let chunk := tail_chunk (_cont_tail fr) vm in
  let fr := set_size (_size fr + metadata_words) fr in
  let top_interpreted :=
    match chunk with
    | Some (_, c) => negb (is_empty c) && Interpreter_contains (pc c)
    | None => false
    end in
  let overlap :=
    match chunk with
    | Some (_, c) =>
        if negb (is_empty c)
           && bool_decide (bool_decide (kind callee = InterpretedFrame) = top_interpreted)
        then argsz else 0
    | None => 0
    end in
  let unextended_sp :=
    match chunk with
    | Some (_, c) => if top_interpreted then sp c + mixed_unextended_gap c else sp c
    | None => -1
    end in
  let fr := set_size (_size fr - overlap) fr in
  let prepared : option (nat * stackChunk * Freeze * VM) + Freeze * VM :=
    let allocate :=
      let fr := set_size (_size fr + overlap) fr in
      match allocate_chunk (_size fr) a fr vm with
      | (Some id, fr, vm) =>
          match heap vm !! id with
          | Some c =>
              inl (Some (id, set_argsize argsz (set_sp (stack_size c - argsz) c), fr, vm))
          | None => inl None
          end
      | (None, fr, vm) => inr (fr, vm)
      end in
    if bool_decide (unextended_sp < _size fr) then allocate
    else
      match chunk with
      | None => inl None
      | Some (id, c) =>
          if is_gc_mode c || (negb (_barriers fr) && requires_barriers c) then allocate
          else if is_empty c then
            inl (Some (id, set_argsize argsz (set_sp (stack_size c - argsz) c),
                       set_size (_size fr + overlap) fr, vm))
          else inl (Some (id, c, fr, vm))
      end in
  match prepared with
  | inr (fr, vm) => Some (freeze_exception, empty_hframe, fr, vm)
  | inl None => None
  | inl (Some (id, c, fr, vm)) =>
      let c := set_has_mixed_frames true c in
      let vm := unwind_frames vm in
      let c := set_max_size (max_size c + _size fr - metadata_words) c in
      Some (freeze_ok_bottom, chunk_top_frame c, fr, store_chunk id c vm)
  end.

(** [FreezeBase::patch] *)
Definition freeze_patch (f : frame) (hf caller : hframe) (bottom : bool)
    (fr : Freeze) (vm : VM) : option VM :=
  vm ← (if bottom then modify_tail_words (patch_pc caller (h_pc caller)) fr vm else Some vm);
  vm ← modify_tail_words (patch_pd hf caller) fr vm;
  if decide (kind f = InterpretedFrame)
  then modify_tail_words (patch_sender_sp hf (h_unextended_sp caller)) fr vm
  else Some vm.

(** [FreezeBase::recurse_freeze_java_frame<FKind>]: the recursion ends at the
    frame that reaches the bottom address, else goes on with the sender. *)
Definition recurse_freeze_java_frame (interpreted : bool) (f : frame) (fsize argsz : Z)
    (finalize : Freeze -> VM -> walk) (freeze_sender : Z -> bool -> Freeze -> VM -> walk)
    (fr : Freeze) (vm : VM) : walk :=
  let fr := set_size (_size fr + fsize) fr in
  if bool_decide (_bottom_address fr - 1 <= frame_bottom f)
  then finalize fr vm
  else freeze_sender argsz interpreted fr vm.

Definition gt_ok_bottom (r : freeze_result) : bool :=
  bool_decide (freeze_result_code freeze_ok_bottom < freeze_result_code r).

(** [FreezeBase::recurse_freeze_compiled_frame] *)
Definition recurse_freeze_compiled_frame (f : frame) (callee_argsize : Z)
    (callee_interpreted : bool) (a : allocation)
    (freeze_sender : Z -> bool -> Freeze -> VM -> walk) (fr : Freeze) (vm : VM) : walk :=
  let frame_sp := frame_top f callee_argsize callee_interpreted in
  let argsz := stack_argsize f in
  let fsize := frame_bottom f + argsz - frame_sp in
  '(result, caller, fr, vm) ←
    recurse_freeze_java_frame false f fsize argsz (finalize_freeze f argsz a) freeze_sender fr vm;
  if gt_ok_bottom result then Some (result, caller, fr, vm)
  else
    let bottom := bool_decide (result = freeze_ok_bottom) in
    let '(hf, caller_sp) := new_heap_frame f caller in
    let caller := hframe_set_sp caller_sp caller in
    let heap_sp := heap_frame_top hf callee_argsize callee_interpreted in
    vm ← copy_to_chunk frame_sp heap_sp fsize fr vm;
    let fr := if h_interpreted caller
              then set_align_size (_align_size fr + align_wiggle) fr else fr in
    vm ← freeze_patch f hf caller bottom fr vm;
    Some (freeze_ok, hf, fr, vm).

(** [FreezeBase::recurse_freeze_interpreted_frame] *)
Definition recurse_freeze_interpreted_frame (f : frame) (callee_argsize : Z)
    (callee_interpreted : bool) (a : allocation)
    (freeze_sender : Z -> bool -> Freeze -> VM -> walk) (fr : Freeze) (vm : VM) : walk :=
  let f := adjust_interpreted_frame_unextended_sp f in
  let frame_sp := frame_top f callee_argsize callee_interpreted in
  let argsz := stack_argsize f in
  let locals := max_locals f in
  let fsize := frame_fp f + metadata_words + locals - frame_sp in
  '(result, caller, fr, vm) ←
    recurse_freeze_java_frame true f fsize argsz (finalize_freeze f argsz a) freeze_sender fr vm;
  if gt_ok_bottom result then Some (result, caller, fr, vm)
  else
    let bottom := bool_decide (result = freeze_ok_bottom) in
    let '(hf, caller_sp) := new_heap_frame f caller in
    let caller := hframe_set_sp caller_sp caller in
    let fr := set_align_size (_align_size fr + align_wiggle) fr in
    let heap_sp := heap_frame_top hf callee_argsize callee_interpreted in
    vm ← copy_to_chunk (frame_bottom f - locals) (heap_frame_bottom hf - locals) locals fr vm;
    vm ← copy_to_chunk frame_sp heap_sp (fsize - locals) fr vm;
    vm ← modify_tail_words (relativize_interpreted_frame_metadata f hf) fr vm;
    vm ← freeze_patch f hf caller bottom fr vm;
    Some (freeze_ok, hf, fr, vm).

(** [FreezeBase::recurse_freeze_stub_frame]; [senderf] is the stub's sender
    and [freeze_sender] goes on from the sender of [senderf]. *)
Definition recurse_freeze_stub_frame (f senderf : frame) (a : allocation)
    (freeze_sender : Z -> bool -> Freeze -> VM -> walk) (fr : Freeze) (vm : VM) : walk :=
  let frame_sp := frame_top f 0 false in
  let fsize := cb_frame_size f in
  let fr := set_size (_size fr + fsize) fr in
  if negb (oop_map senderf) then Some (freeze_pinned_native, empty_hframe, fr, vm)
  else if is_owning_locks senderf then Some (freeze_pinned_monitor, empty_hframe, fr, vm)
  else
    '(result, caller, fr, vm) ←
      recurse_freeze_compiled_frame senderf 0 false a freeze_sender fr vm;
    if gt_ok_bottom result then Some (result, caller, fr, vm)
    else
      let '(hf, _) := new_heap_frame f caller in
      let heap_sp := heap_frame_top hf 0 false in
      vm ← copy_to_chunk frame_sp heap_sp fsize fr vm;
      Some (freeze_ok, hf, fr, vm).

(** [FreezeBase::freeze]: the recursive walk over the frames, from [f], the
    head of the list, toward the entry.  [csp d] is the native stack address
    of the activation at depth [d]; [None] when the walk leaves the list
    without meeting the bottom address. *)
Fixpoint freeze (frames : list frame) (depth : nat) (csp : nat -> Z) (a : allocation)
    (callee_argsize : Z) (callee_interpreted : bool) (top : bool)
    (fr : Freeze) (vm : VM) {struct frames} : walk :=
  match frames with
  | [] => None
  | f :: senders =>
      let '(overflow, vm) := stack_overflow (csp depth) fr vm in
      if overflow then Some (freeze_exception, empty_hframe, fr, vm)
      else
        let freeze_sender ca ci fr vm :=
          freeze senders (S depth) csp a ca ci false fr vm in
        match kind f with
        | CompiledFrame =>
            if negb (oop_map f) then Some (freeze_pinned_native, empty_hframe, fr, vm)
            else if is_owning_locks f then Some (freeze_pinned_monitor, empty_hframe, fr, vm)
            else recurse_freeze_compiled_frame f callee_argsize callee_interpreted a
                   freeze_sender fr vm
        | InterpretedFrame =>
            if is_owning_locks f then Some (freeze_pinned_monitor, empty_hframe, fr, vm)
            else if _preempt fr && top && is_native f
            then Some (freeze_pinned_native, empty_hframe, fr, vm)
            else recurse_freeze_interpreted_frame f callee_argsize callee_interpreted a
                   freeze_sender fr vm
        | StubFrame =>
            if _preempt fr && top then
              match senders with
              | [] => None
              | senderf :: senders' =>
                  recurse_freeze_stub_frame f senderf a
                    (fun ca ci fr vm => freeze senders' (S depth) csp a ca ci false fr vm)
                    fr vm
              end
            else Some (freeze_pinned_native, empty_hframe, fr, vm)
        | OtherFrame => Some (freeze_pinned_native, empty_hframe, fr, vm)
        end
  end.

(** [FreezeBase::freeze_start_frame]: skip the yield stub, or, on a forced
    preemption, start at the safepoint stub unless it sits in the
    interpreter. *)
Definition freeze_start_frame (frames : list frame) (fr : Freeze) : list frame :=
  match frames with
  | [] => []
  | f :: senders =>
      if negb (_preempt fr) then senders
      else if decide (kind f = InterpretedFrame) then frames
      else
        match senders with
        | s :: _ => if decide (kind s = InterpretedFrame) then senders else frames
        | [] => frames
        end
  end.

(** [FreezeBase::finish_freeze]; the store barriers applied to an old chunk
    touch its oops only and are left out. *)
Definition finish_freeze (top : hframe) (fr : Freeze) (vm : VM) : option VM :=
  match tail_chunk (_cont_tail fr) vm with
  | None => None
  | Some (id, chunk) =>
      let chunk := set_words (set_top_frame_metadata_pd top (words chunk)) chunk in
      let chunk := set_sp (h_sp top) chunk in
      let chunk := set_pc (h_pc top) chunk in
      let chunk := set_max_size (max_size chunk + _align_size fr) chunk in
      Some (store_chunk id chunk vm)
  end.

(** [FreezeBase::freeze_slow] *)
Definition freeze_slow (frames : list frame) (csp : nat -> Z) (a : allocation)
    (fr : Freeze) (vm : VM) : option (freeze_result * Freeze * VM) :=
  let fr := set_align_size 0 (set_size 0 fr) in
  let fs := freeze_start_frame frames fr in
  '(res, caller, fr, vm) ← freeze fs 0%nat csp a 0 false true fr vm;
  if decide (res = freeze_ok) then
    vm ← finish_freeze caller fr vm;
    Some (res, fr, write (_cont_tail fr) vm)
  else Some (res, fr, vm).

(** [Freeze::try_freeze_fast<chunk_available>]; [a] serves the allocation of
    the fast path and [a'] the one the slow path may need. *)
Definition try_freeze_fast (chunk_available : bool) (frame_sp : Z) (frames : list frame)
    (csp : nat -> Z) (a a' : allocation) (fr : Freeze) (vm : VM)
  : option (freeze_result * Freeze * VM) :=
  '(ok, fr, vm) ← freeze_fast chunk_available frame_sp a fr vm;
  if ok : bool then Some (freeze_ok, fr, vm)
  else if has_pending_exception (thread vm) then Some (freeze_exception, fr, vm)
  else freeze_slow frames csp a' fr vm.

(** [can_freeze_fast] *)
Definition can_freeze_fast (t : JavaThread) : bool :=
  cont_fastpath t && UseContinuationFastPath && bool_decide (held_monitor_count t = 0).

(** [freeze_internal]: [frame_sp] is the sp passed by the yield stub and
    [frames] the thread's frames from its last Java frame, the stub. *)
Definition freeze_internal (frame_sp : Z) (frames : list frame) (csp : nat -> Z)
    (a a' : allocation) (vm : VM) : option (freeze_result * VM) :=
  if entry_is_pinned (entry vm) then Some (freeze_pinned_cs, vm)
  else
    let fr := new_Freeze false vm in
    let fast := can_freeze_fast (thread vm) in
    if fast && is_chunk_available_for_fast_freeze frame_sp fr vm then
      '(_, _, vm) ← try_freeze_fast true frame_sp frames csp a a' fr vm;
      Some (freeze_ok, vm)
    else
      '(res, _, vm) ← (if fast then try_freeze_fast false frame_sp frames csp a a' fr vm
                       else freeze_slow frames csp a fr vm);
      Some (res, vm).

(** ** Thaw *)




(** [ThawBase::ThawBase] with [Thaw::thaw]'s first assignment. *)
Definition new_Thaw (preempted : bool) (vm : VM) : Thaw :=
  {| _thaw_tail := continuation_tail vm; _thaw_barriers := false; _fastpath := 0;
     _top_unextended_sp := 0; _thaw_align_size := 0; _is_preempted := preempted |}.

Definition thaw_set_barriers (b : bool) (th : Thaw) : Thaw :=
  {| _thaw_tail := _thaw_tail th; _thaw_barriers := b; _fastpath := _fastpath th;
     _top_unextended_sp := _top_unextended_sp th; _thaw_align_size := _thaw_align_size th;
     _is_preempted := _is_preempted th |}.

(** [Thaw::can_thaw_fast] *)
Definition can_thaw_fast (chunk : stackChunk) (th : Thaw) (vm : VM) : bool :=
  negb (_thaw_barriers th)
  && cont_fastpath_thread_state (thread vm)
  && negb (has_thaw_slowpath_condition chunk)
  && negb PreserveFramePointer.

Definition TEST_THAW_ONE_CHUNK_FRAME : bool := false.

Definition threshold : Z := 500.

(** [ThawBase::copy_from_chunk] *)
Definition copy_from_chunk (chunk : stackChunk) (from to size : Z) (vm : VM) : VM :=
  with_thread (set_stack (copy_words (words chunk) from (stack (thread vm)) to size)
                 (thread vm)) vm.

Definition modify_stack (g : memory -> memory) (vm : VM) : VM :=
  with_thread (set_stack (g (stack (thread vm))) (thread vm)) vm.

(** [ThawBase::patch_return] *)
Definition patch_return (sp : Z) (is_last : bool) (vm : VM) : VM :=
  let pc := if negb is_last then cont_returnBarrier else entry_pc (entry vm) in
  modify_stack (fun m => <[sp - sender_sp_ret_address_offset := pc]> m) vm.

(** Modelled from the spec: [StackChunkFrameStream<ChunkFrames::CompiledOnly>]
    is declared outside this file.  The cursor starts at the chunk's [sp];
    the frame there belongs to the code blob of its return pc, the word one
    return-address offset below the cursor (the assertion closing the
    single-frame branch of [thaw_fast] reads the next frame's pc there). *)
Definition stream_pc (chunk : stackChunk) (pos : Z) : address :=
  words chunk (pos - sender_sp_ret_address_offset).

(** [Thaw::thaw_fast]: the new sp, and the state. *)
Definition thaw_fast (id : nat) (chunk : stackChunk) (vm : VM) : Z * VM :=
  let chunk_start_sp := sp chunk in
  let full_chunk_size := stack_size chunk - chunk_start_sp in
  let chunk_sp := chunk_start_sp in
  let '(argsz, thaw_sz, empty, chunk') :=
    if negb TEST_THAW_ONE_CHUNK_FRAME && bool_decide (full_chunk_size < threshold) then
      let argsz := argsize chunk in
      let c := set_max_size 0 (set_argsize 0 (set_sp (stack_size chunk) chunk)) in
      (argsz, full_chunk_size, true, c)
    else
      let f_pc := stream_pc chunk chunk_sp in
      let frame_size := blob_frame_size f_pc in
      let argsz := blob_stack_argsize f_pc in
      let f_sp := chunk_sp + frame_size in
      let empty := stream_is_done_at chunk f_sp in
      let c :=
        if empty then set_max_size 0 (set_argsize 0 (set_sp (stack_size chunk) chunk))
        else
          set_pc (stream_pc chunk f_sp)
            (set_max_size (max_size chunk - frame_size) (set_sp (sp chunk + frame_size) chunk)) in
      (argsz, frame_size + argsz, empty, c) in
  let vm := store_chunk id chunk' vm in
  let is_last := empty && bool_decide (parent chunk' = None) in
  let stack_sp := entry_sp (entry vm) in
  let bottom_sp := frame_align_pointer (stack_sp - argsz) in
  let stack_sp := stack_sp - thaw_sz in
  let stack_sp := frame_align_pointer stack_sp in
  let from := chunk_sp - metadata_words in
  let to := stack_sp - metadata_words in
  let vm := copy_from_chunk chunk' from to (thaw_sz + metadata_words) vm in
  let vm := with_entry (entry_set_argsize argsz (entry vm)) vm in
  let vm := patch_return bottom_sp is_last vm in
  (stack_sp, vm).

(** *** The slow thaw *)

(** The cursor of [StackChunkFrameStream<ChunkFrames::Mixed>]: the frames
    still ahead; when none is, the cursor stands at [_end]. *)
Definition stream_end (chunk : stackChunk) : Z := stack_size chunk - argsize chunk.

Definition stream_unextended_sp (stream : list cframe) (s_end : Z) : Z :=
  match stream with
  | f :: _ => c_unextended_sp f
  | [] => s_end
  end.

Definition is_done (stream : list cframe) : bool :=
  match stream with [] => true | _ => false end.

Definition is_compiled (stream : list cframe) : bool :=
  match stream with
  | f :: _ => bool_decide (c_kind f = CompiledFrame)
  | [] => false
  end.

(** [ThawBase::seen_by_gc] *)
Definition seen_by_gc (th : Thaw) (vm : VM) : option bool :=
  '(_, chunk) ← tail_chunk (_thaw_tail th) vm;
  Some (_thaw_barriers th || is_gc_mode chunk).

(** [new_entry_frame]: the entry frame, at [entrySP] as [finalize_thaw]
    asserts, with the entry's pc. *)
Definition new_entry_frame (vm : VM) : hframe :=
  {| h_sp := entry_sp (entry vm); h_unextended_sp := entry_sp (entry vm);
     h_pc := entry_pc (entry vm); h_interpreted := false |}.

(** The result of a step of the recursive thaw: the [caller] out-parameter
    and the state. *)
Definition thawing := option (hframe * Thaw * VM).

(** [ThawBase::finalize_thaw]; [stream] is the cursor after the last frame
    to thaw and [s_end] its end. *)
Definition finalize_thaw (stream : list cframe) (s_end : Z) (argsz : Z)
    (th : Thaw) (vm : VM) : thawing :=
  '(id, chunk) ← tail_chunk (_thaw_tail th) vm;
  let chunk :=
    match stream with
    | f :: _ => set_pc (c_pc f) (set_sp (c_sp f) chunk)
    | [] => set_pc 0 (set_sp (stack_size chunk) (set_argsize 0 chunk))
    end in
  let delta := stream_unextended_sp stream s_end - _top_unextended_sp th in
  let chunk := set_max_size (max_size chunk - delta) chunk in
  let vm := store_chunk id chunk vm in
  let vm := with_entry (entry_set_argsize argsz (entry vm)) vm in
  Some (new_entry_frame vm, th, vm).

(** The pc [ThawBase::patch] stores below the bottom-most thawed frame: the
    caller's raw pc, that of the entry, when the continuation has become
    empty, the return barrier otherwise. *)
Definition bottom_return_pc (caller : hframe) (th : Thaw) (vm : VM) : address :=
  if cont_is_empty (_thaw_tail th) vm then h_pc caller else cont_returnBarrier.

(** [ThawBase::patch] *)
Definition thaw_patch (f caller : hframe) (bottom : bool) (th : Thaw) (vm : VM) : VM :=
  let vm := if bottom then modify_stack (patch_pc caller (bottom_return_pc caller th vm)) vm
            else vm in
  let vm := modify_stack (thaw_patch_pd f caller) vm in
  if h_interpreted f then modify_stack (patch_sender_sp f (h_unextended_sp caller)) vm
  else vm.

(** [ThawBase::recurse_thaw_java_frame<FKind>]: [hf] is the frame under the
    cursor and [stream] the cursor after [next]. *)
Definition recurse_thaw_java_frame (interpreted : bool) (hf : cframe)
    (stream : list cframe) (s_end : Z) (num_frames : nat)
    (thaw_next : nat -> Thaw -> VM -> thawing) (th : Thaw) (vm : VM)
  : option (bool * hframe * Thaw * VM) :=
  let argsz := c_stack_argsize hf in
  let num_frames :=
    if Nat.eqb num_frames 1 && negb (is_done stream) && interpreted && is_compiled stream
    then S num_frames else num_frames in
  if Nat.eqb num_frames 1 || is_done stream then
    '(caller, th, vm) ← finalize_thaw stream s_end (if interpreted then 0 else argsz) th vm;
    Some (true, caller, th, vm)
  else
    '(caller, th, vm) ← thaw_next (num_frames - 1)%nat th vm;
    Some (false, caller, th, vm).

(** [ThawBase::recurse_thaw_interpreted_frame]; store barriers and the
    bitmap's bits are the collector's and are left out. *)
Definition recurse_thaw_interpreted_frame (hf : cframe) (stream : list cframe) (s_end : Z)
    (num_frames : nat) (thaw_next : nat -> Thaw -> VM -> thawing)
    (th : Thaw) (vm : VM) : thawing :=
  '(bottom, caller, th, vm) ←
    recurse_thaw_java_frame true hf stream s_end num_frames thaw_next th vm;
  '(_, chunk) ← tail_chunk (_thaw_tail th) vm;
  let th := thaw_set_align_size (_thaw_align_size th + align_wiggle) th in
  let '(f, caller_sp) := new_stack_frame hf caller bottom in
  let caller := hframe_set_sp caller_sp caller in
  let frame_sp := h_sp f in
  let heap_sp := c_unextended_sp hf in
  let f_bottom := heap_frame_bottom f in
  let fsize := c_frame_bottom hf - heap_sp in
  let locals := c_max_locals hf in
  let vm := copy_from_chunk chunk (c_frame_bottom hf - locals) (f_bottom - locals) locals vm in
  let vm := copy_from_chunk chunk heap_sp frame_sp (fsize - locals) vm in
  let vm := modify_stack (set_interpreter_frame_bottom f f_bottom) vm in
  let vm := modify_stack (derelativize_interpreted_frame_metadata hf f) vm in
  let vm := thaw_patch f caller bottom th vm in
  let th := maybe_set_fastpath (h_sp f) th in
  let vm := if bottom then vm else modify_stack (fix_thawed_frame caller) vm in
  Some (f, th, vm).

(** [ThawBase::recurse_thaw_compiled_frame] *)
Definition recurse_thaw_compiled_frame (hf : cframe) (stream : list cframe) (s_end : Z)
    (num_frames : nat) (stub_caller : bool) (thaw_next : nat -> Thaw -> VM -> thawing)
    (th : Thaw) (vm : VM) : thawing :=
  '(bottom, caller, th, vm) ←
    recurse_thaw_java_frame false hf stream s_end num_frames thaw_next th vm;
  '(_, chunk) ← tail_chunk (_thaw_tail th) vm;
  let th :=
    if (negb bottom && h_interpreted caller) || (bottom && Interpreter_contains (pc chunk))
    then thaw_set_align_size (_thaw_align_size th + align_wiggle) th else th in
  let '(f, caller_sp) := new_stack_frame hf caller bottom in
  let caller := hframe_set_sp caller_sp caller in
  let frame_sp := h_sp f in
  let heap_sp := c_unextended_sp hf in
  let added_argsize := if bottom || h_interpreted caller then c_stack_argsize hf else 0 in
  let fsize := c_size hf + added_argsize in
  let from := heap_sp - metadata_words in
  let to := frame_sp - metadata_words in
  let sz := fsize + metadata_words in
  let vm := copy_from_chunk chunk from to sz vm in
  let vm := thaw_patch f caller bottom th vm in
  let '(th, vm) :=
    if c_is_deoptimized hf then (maybe_set_fastpath (h_sp f) th, vm)
    else if is_interp_only_mode (thread vm)
            || (_is_preempted th && c_marked_for_deoptimization hf)
    then (maybe_set_fastpath (h_sp f) th, modify_stack (deoptimize f) vm)
    else (th, vm) in
  let vm := if bottom then vm else modify_stack (fix_thawed_frame caller) vm in
  Some (f, th, vm).

(** [ThawBase::recurse_thaw_stub_frame]; [hf2] is the stub's caller, under
    the cursor after [next], and [stream] the cursor after it. *)
Definition recurse_thaw_stub_frame (hf hf2 : cframe) (stream : list cframe) (s_end : Z)
    (num_frames : nat) (thaw_next : nat -> Thaw -> VM -> thawing)
    (th : Thaw) (vm : VM) : thawing :=
  '(caller, th, vm) ←
    recurse_thaw_compiled_frame hf2 stream s_end num_frames true thaw_next th vm;
  '(_, chunk) ← tail_chunk (_thaw_tail th) vm;
  let fsize := c_size hf in
  let '(f, caller_sp) := new_stack_frame hf caller false in
  let caller := hframe_set_sp caller_sp caller in
  let frame_sp := h_sp f in
  let heap_sp := c_sp hf in
  let vm := copy_from_chunk chunk (heap_sp - metadata_words) (frame_sp - metadata_words)
              (fsize + metadata_words) vm in
  let vm := modify_stack (fix_thawed_frame caller) vm in
  Some (f, th, vm).

(** [ThawBase::thaw_one_frame]: [stream] is the cursor, its head the heap
    frame to thaw. *)
Fixpoint thaw_one_frame (stream : list cframe) (s_end : Z) (num_frames : nat) (top : bool)
    (th : Thaw) (vm : VM) {struct stream} : thawing :=
  match stream with
  | [] => None
  | hf :: rest =>
      let thaw_next n th vm := thaw_one_frame rest s_end n false th vm in
      if top && bool_decide (c_kind hf = StubFrame) then
        match rest with
        | [] => None
        | hf2 :: rest2 =>
            recurse_thaw_stub_frame hf hf2 rest2 s_end num_frames
              (fun n th vm => thaw_one_frame rest2 s_end n false th vm) th vm
        end
      else if negb (bool_decide (c_kind hf = InterpretedFrame)) then
        recurse_thaw_compiled_frame hf rest s_end num_frames false thaw_next th vm
      else
        recurse_thaw_interpreted_frame hf rest s_end num_frames thaw_next th vm
  end.

(** [ThawBase::push_return_frame] *)
Definition push_return_frame (f : hframe) (vm : VM) : VM :=
  let vm := modify_stack (patch_pc f (h_pc f)) vm in
  modify_stack (push_pd f) vm.

(** [ThawBase::finish_thaw]: the topmost thawed frame as realigned, and the
    state. *)
Definition finish_thaw (f : hframe) (th : Thaw) (vm : VM) : thawing :=
  '(id, chunk) ← tail_chunk (_thaw_tail th) vm;
  seen ← seen_by_gc th vm;
  let '(th, chunk) :=
    if is_empty chunk then
      let '(th, chunk) :=
        if seen : bool then (thaw_set_tail (parent chunk) th, chunk)
        else (th, set_has_mixed_frames false chunk) in
      (th, set_max_size 0 chunk)
    else (th, set_max_size (max_size chunk - _thaw_align_size th) chunk) in
  let vm := store_chunk id chunk vm in
  let f :=
    if bool_decide (Z.shiftl (h_sp f) LogBytesPerWord `mod` frame_alignment = 0) then f
    else hframe_set_sp (h_sp f - 1) f in
  let vm := push_return_frame f vm in
  let vm := modify_stack (fix_thawed_frame f) vm in
  Some (f, th, vm).

(** [ThawBase::thaw_slow]; [frames] is what the stream finds in the chunk. *)
Definition thaw_slow (chunk : stackChunk) (frames : list cframe) (return_barrier : bool)
    (th : Thaw) (vm : VM) : option (Z * VM) :=
  let th := thaw_set_align_size 0 th in
  let num_frames := if return_barrier then 1%nat else 2%nat in
  let s_end := stream_end chunk in
  let th := thaw_set_top_unextended_sp (stream_unextended_sp frames s_end) th in
  '(caller, th, vm) ← thaw_one_frame frames s_end num_frames true th vm;
  '(caller, th, vm) ← finish_thaw caller th vm;
  let vm := write (_thaw_tail th) vm in
  let vm := with_thread (set_cont_fastpath (bool_decide (_fastpath th = 0)) (thread vm)) vm in
  Some (h_sp caller, vm).

(** [Thaw::thaw]; the tail is not empty, as [prepare_thaw] has seen to. *)
Definition thaw (kind : thaw_kind) (frames : list cframe) (preempted : bool) (vm : VM)
  : option (Z * VM) :=
  let th := new_Thaw preempted vm in
  '(id, chunk) ← tail_chunk (_thaw_tail th) vm;
  let th := thaw_set_barriers (requires_barriers chunk) th in
  if can_thaw_fast chunk th vm then Some (thaw_fast id chunk vm)
  else thaw_slow chunk frames (negb (bool_decide (kind = thaw_top))) th vm.

End FreezeThaw.

(** ** The pinning queries *)

(** [is_pinned] *)
Definition is_pinned (f : frame) : freeze_result :=
  match kind f with
  | InterpretedFrame =>
      if is_owning_locks f then freeze_pinned_monitor
      else if is_native f then freeze_pinned_native
      else freeze_ok
  | CompiledFrame =>
      if is_owning_locks f then freeze_pinned_monitor else freeze_ok
  | _ => freeze_pinned_native
  end.

Section Pinned.

(** [Continuation::is_frame_in_continuation], declared outside this file. *)
Variable is_frame_in_continuation : ContinuationEntry -> frame -> bool.

(** The loop of [is_pinned0].  An entry comes with the scope of its
    continuation object; [e] is the current entry and [parents] its
    [parent()] chain; [frames] is the frame [f] under test followed by its
    senders.  [None] when the walk leaves the frames given. *)
Fixpoint is_pinned0_loop (cont_scope : Z) (e : ContinuationEntry * Z)
    (parents : list (ContinuationEntry * Z)) (frames : list frame) {struct frames}
  : option freeze_result :=
  match frames with
  | [] => None
  | f :: senders =>
      let res := is_pinned f in
      if bool_decide (res <> freeze_ok) then Some res
      else
        match senders with
        | [] => None
        | f' :: _ =>
            if negb (is_frame_in_continuation e.1 f') then
              if bool_decide (e.2 = cont_scope) then Some freeze_ok
              else
                match parents with
                | [] => Some freeze_ok
                | e' :: parents' =>
                    if entry_is_pinned e'.1 then Some freeze_pinned_cs
                    else is_pinned0_loop cont_scope e' parents' senders
                end
            else is_pinned0_loop cont_scope e parents senders
        end
  end.

(** [is_pinned0]: [entries] is the thread's [last_continuation()] with its
    parents, innermost first, and [frames] the thread's frames from its last
    frame.  On a safepoint yield the register map is updated from the stub's
    oop map, which does not show in this model. *)
Definition is_pinned0 (entries : list (ContinuationEntry * Z)) (frames : list frame)
    (cont_scope : Z) (safepoint : bool) : option freeze_result :=
  match entries with
  | [] => Some freeze_ok
  | e :: parents =>
      if entry_is_pinned e.1 then Some freeze_pinned_cs
      else
        let frames := if negb safepoint then tl frames else frames in
        is_pinned0_loop cont_scope e parents frames
  end.

(** [CONT_isPinned0] *)
Definition CONT_isPinned0 (entries : list (ContinuationEntry * Z)) (frames : list frame)
    (cont_scope : Z) : option Z :=
  res ← is_pinned0 entries frames cont_scope false;
  Some (freeze_result_code res).

End Pinned.

(** ** A concrete platform and runtime

    A 64-bit platform in the style of x86_64 (two metadata words, the return
    pc one word below a frame's sp, frames aligned to two words), on which
    the model runs on concrete inputs.  A heap frame lies below its caller
    by the size of its code blob's frame, one word at least; the fix-ups of
    interpreter metadata and frame-pointer links, which do not bear on the
    chunk's header, are the identity. *)

Definition lp64 : Platform := {|
  metadata_words := 2;
  sender_sp_ret_address_offset := 1;
  align_wiggle := 1;
  LogBytesPerWord := 3;
  frame_align_words := fun size => Z.land size 1;
  frame_align_pointer := fun p => Z.land p (-2);
  patch_stack_pd := fun frame_sp heap_sp chunk_words stk =>
    <[frame_sp - 2 := chunk_words (heap_sp - 2)]> stk;
  adjust_interpreted_frame_unextended_sp := fun f => f;
  new_heap_frame := fun f caller =>
    let sp := h_sp caller - Z.max 1 (cb_frame_size f) in
    ({| h_sp := sp; h_unextended_sp := sp; h_pc := frame_pc f;
        h_interpreted := bool_decide (kind f = InterpretedFrame) |}, h_sp caller);
  heap_frame_top := fun hf _ _ => h_unextended_sp hf;
  heap_frame_bottom := fun hf => h_unextended_sp hf;
  relativize_interpreted_frame_metadata := fun _ _ m => m;
  patch_pc := fun f pc m => <[h_sp f - 1 := pc]> m;
  patch_pd := fun _ _ m => m;
  patch_sender_sp := fun _ _ m => m;
  set_top_frame_metadata_pd := fun hf m => <[h_sp hf - 1 := h_pc hf]> m;
  frame_alignment := 16;
  new_stack_frame := fun hf caller bottom =>
    let argsz := if bottom then c_stack_argsize hf else 0 in
    let sp := Z.land (h_sp caller - argsz - c_size hf) (-2) in
    ({| h_sp := sp; h_unextended_sp := sp; h_pc := c_pc hf;
        h_interpreted := bool_decide (c_kind hf = InterpretedFrame) |},
     Z.land (h_sp caller - argsz) (-2));
  set_interpreter_frame_bottom := fun _ _ m => m;
  derelativize_interpreted_frame_metadata := fun _ _ m => m;
  thaw_patch_pd := fun _ _ m => m;
  deoptimize := fun _ m => m;
  fix_thawed_frame := fun _ m => m;
  push_pd := fun _ m => m
|}.

(** A runtime without ZGC and without a limit on chunk sizes; pcs below 1000
    lie in the interpreter; every compiled method has a frame of [fsz] words
    and [args] words of stack arguments. *)
Definition runtime (fsz args : Z) : Runtime := {|
  UseZGC := false;
  UseContinuationFastPath := true;
  PreserveFramePointer := false;
  stack_chunk_max_size := 0;
  instance_size := fun n => n + 8;
  vm_page_size := 4096;
  Interpreter_contains := fun pc => bool_decide (pc < 1000);
  cont_returnBarrier := 9000;
  blob_frame_size := fun _ => fsz;
  blob_stack_argsize := fun _ => args;
  mixed_unextended_gap := fun _ => 0
|}.

(** A running thread: fast path allowed, no monitors held, nothing pending;
    the word at stack address [a] is [10000 + a]. *)
Definition a_thread : JavaThread := {|
  cont_fastpath := true;
  cont_fastpath_thread_state := true;
  has_pending_exception := false;
  held_monitor_count := 0;
  last_Java_sp := 960;
  last_Java_pc := 5000;
  is_interp_only_mode := false;
  stack_overflow_limit := 1024;
  stack := fun a => 10000 + a
|}.

Definition an_entry (args : Z) : ContinuationEntry :=
  {| entry_sp := 1000; entry_pc := 7000; entry_argsize := args; entry_is_pinned := false |}.

(** A chunk of [size] words whose frames start at [top], untouched by the
    collector; the word at offset [i] is [20000 + i], save the return pc of
    the top frame, which is the chunk's pc. *)
Definition a_chunk (size top args msize : Z) (par : stackChunkOop) : stackChunk := {|
  stack_size := size; sp := top; argsize := args; max_size := msize; pc := 6000;
  parent := par; has_mixed_frames := false; is_gc_mode := false; has_bitmap := false;
  requires_barriers := false;
  words := fun i => if decide (i = top - 1) then 6000 else 20000 + i
|}.

Definition a_vm (chunks : list stackChunk) (t : stackChunkOop) (args : Z) : VM :=
  {| heap := chunks; continuation_tail := t; entry := an_entry args; thread := a_thread |}.

Definition chunk_100 : stackChunk := a_chunk 200 100 0 100 None.

Definition vm_reuse : VM := a_vm [chunk_100] (Some 0%nat) 3.

Definition vm_plain : VM := a_vm [chunk_100] (Some 0%nat) 0.

Definition vm_cold : VM := a_vm [] None 0.

(** A thread that holds a monitor, which rules out the fast path. *)
Definition a_locked_thread : JavaThread := {|
  cont_fastpath := true;
  cont_fastpath_thread_state := false;
  has_pending_exception := false;
  held_monitor_count := 1;
  last_Java_sp := 960;
  last_Java_pc := 5000;
  is_interp_only_mode := false;
  stack_overflow_limit := 1024;
  stack := fun a => 10000 + a
|}.

Definition vm_locked : VM :=
  {| heap := [chunk_100]; continuation_tail := Some 0%nat; entry := an_entry 0;
     thread := a_locked_thread |}.

(** A frame of 20 words that ends at [bottom]. *)
Definition a_frame (k : frame_kind) (bottom : Z) (locks native : bool) : frame := {|
  kind := k; frame_pc := 5000; frame_fp := bottom - 2; oop_map := true;
  is_owning_locks := locks; is_native := native;
  frame_top := fun _ _ => bottom - 20; frame_bottom := bottom;
  stack_argsize := 0; max_locals := 0; cb_frame_size := 20
|}.

Definition yield_stub : frame := a_frame StubFrame 960 false false.

(** A chunk holding one compiled frame of 598 words with 2 words of stack
    arguments: 600 live words, which is over the threshold of the bulk
    thaw. *)
Definition chunk_one_frame : stackChunk := a_chunk 700 100 2 600 None.

Definition vm_one_frame : VM := a_vm [chunk_one_frame] (Some 0%nat) 0.


(** The VM's own stack is far from its limit. *)
Definition deep_stack : nat -> Z := fun _ => 2000.

(** A chunk of mixed frames: an interpreted frame of 20 words on top of a
    compiled one of 20 words, then the rest. *)
Definition a_cframe (k : frame_kind) (at_sp : Z) (fpc : address) : cframe := {|
  c_kind := k; c_sp := at_sp; c_unextended_sp := at_sp; c_pc := fpc; c_size := 20;
  c_stack_argsize := 0; c_frame_bottom := at_sp + 20; c_max_locals := 0;
  c_is_deoptimized := false; c_marked_for_deoptimization := false
|}.

Definition mixed_chunk : stackChunk := {|
  stack_size := 200; sp := 100; argsize := 0; max_size := 100; pc := 500;
  parent := None; has_mixed_frames := true; is_gc_mode := false; has_bitmap := false;
  requires_barriers := false;
  words := fun i => 20000 + i
|}.

Definition mixed_frames : list cframe :=
  [a_cframe InterpretedFrame 100 500; a_cframe CompiledFrame 120 6000;
   a_cframe CompiledFrame 140 6000; a_cframe CompiledFrame 160 6000;
   a_cframe CompiledFrame 180 6000].

Definition vm_mixed : VM := a_vm [mixed_chunk] (Some 0%nat) 0.

(** The frames below the yield stub: two compiled frames, the second of
    which holds a monitor or not. *)
Definition two_frames (locks : bool) : list frame :=
  [a_frame CompiledFrame 980 false false; a_frame CompiledFrame 1000 locks false].

(** A thread inside two nested continuations, the inner one of scope 1 and
    the outer one of scope 2; a frame belongs to an entry when it ends
    below the entry's sp. *)
Definition nested_entries : list (ContinuationEntry * Z) :=
  [({| entry_sp := 1000; entry_pc := 7000; entry_argsize := 0; entry_is_pinned := false |}, 1);
   ({| entry_sp := 1100; entry_pc := 7000; entry_argsize := 0; entry_is_pinned := false |}, 2)].

Definition frame_below_entry (e : ContinuationEntry) (f : frame) : bool :=
  bool_decide (frame_bottom f <= entry_sp e).

(** Two chunks, the tail's parent being the first. *)
Definition vm_two : VM :=
  a_vm [chunk_100; a_chunk 200 100 0 100 (Some 0%nat)] (Some 1%nat) 0.

(** ** Properties *)

Section Properties.
Context {P : Platform} {R : Runtime}.

(** *** The predicates of the statements *)

(** The words a fast thaw moves: [n] words and the metadata words below
    them, from the chunk's [sp] to the new stack pointer; the return-pc slot
    of the bottom-most thawed frame is patched afterwards. *)
Definition thawed_onto_stack (chunk : stackChunk) (vm' : VM) (stack_sp n bottom_sp : Z) : Prop :=
  forall k, 0 <= k < n + metadata_words ->
    stack_sp - metadata_words + k <> bottom_sp - sender_sp_ret_address_offset ->
    stack (thread vm') (stack_sp - metadata_words + k) = words chunk (sp chunk - metadata_words + k).

(** What the collector answers for the chunk an allocation returns, and the
    thread's fast-path flag after it. *)
Definition new_chunk_requires_barriers (a : allocation) : bool :=
  match a with
  | tlab_hit barriers | slow_hit barriers _ => barriers
  | slow_null => false
  end.

Definition fastpath_after (a : allocation) (t : JavaThread) : bool :=
  match a with
  | slow_hit _ fastpath => fastpath
  | _ => cont_fastpath t
  end.

(** The collector's side of [allocate_chunk], which the function asserts: an
    object from the TLAB needs no barriers, and under ZGC no freshly
    allocated object does. *)
Definition allocator_contract (a : allocation) : Prop :=
  match a with
  | tlab_hit barriers => barriers = false
  | slow_hit barriers _ => UseZGC = true -> barriers = false
  | slow_null => True
  end.

Definition humongous (size : Z) : Prop :=
  0 < stack_chunk_max_size /\ stack_chunk_max_size <= instance_size size.

(** The tail of the wrapper is a chunk marked as holding mixed frames. *)
Definition tail_mixed (fr : Freeze) (vm : VM) : Prop :=
  exists id c, tail_chunk (_cont_tail fr) vm = Some (id, c) /\ has_mixed_frames c = true.

(** Every chunk of [vm'] but the wrapper's tail is a chunk of [vm], as it was. *)
Definition others_kept (fr' : Freeze) (vm vm' : VM) : Prop :=
  forall j c, heap vm' !! j = Some c -> _cont_tail fr' <> Some j -> heap vm !! j = Some c.

(** What every step of the walk guarantees: a pinned result leaves the state
    as it was and a failed one leaves the heap as it was; a result that lets
    the freeze go on has prepared the tail chunk and touched no other chunk;
    nothing is published. *)
Definition walk_ok (vm : VM) (w : walk) : Prop :=
  forall res caller fr' vm', w = Some (res, caller, fr', vm') ->
    (is_pinned_result res = true -> vm' = vm) /\
    (gt_ok_bottom res = true -> heap vm' = heap vm) /\
    (gt_ok_bottom res = false -> tail_mixed fr' vm' /\ others_kept fr' vm vm') /\
    res <> freeze_pinned_cs /\
    continuation_tail vm' = continuation_tail vm.

(** A step that writes into the tail chunk only. *)
Definition kept (fr : Freeze) (vm1 vm2 : VM) : Prop :=
  continuation_tail vm2 = continuation_tail vm1 /\
  (forall j, _cont_tail fr <> Some j -> heap vm2 !! j = heap vm1 !! j) /\
  (tail_mixed fr vm1 -> tail_mixed fr vm2).

(** The chunk list of the continuation: the published tail, then the
    parents, at most [n] of them. *)
Fixpoint chunk_list (n : nat) (h : list stackChunk) (t : stackChunkOop)
  : list (nat * stackChunk) :=
  match n, t with
  | S n', Some id =>
      match h !! id with
      | Some c => (id, c) :: chunk_list n' h (parent c)
      | None => []
      end
  | _, _ => []
  end.

(** Every reference to a chunk, from the continuation or from a chunk,
    finds it in the heap. *)
Definition heap_closed (vm : VM) : Prop :=
  (forall id, continuation_tail vm = Some id -> is_Some (heap vm !! id)) /\
  (forall i c id, heap vm !! i = Some c -> parent c = Some id -> is_Some (heap vm !! id)).

(** The pin code of a visited frame, in the words of claim C7 as amended: a
    compiled frame without an oop map is PINNED_NATIVE, else one owning a
    monitor is PINNED_MONITOR; an interpreted frame owning a monitor is
    PINNED_MONITOR, else a native-method one is PINNED_NATIVE when it is the
    top frame of a forced preemption; any other frame is PINNED_NATIVE,
    except the safepoint stub on top of a forced preemption. *)
Definition pin_code (preempt top : bool) (f : frame) : option freeze_result :=
  match kind f with
  | CompiledFrame =>
      if negb (oop_map f) then Some freeze_pinned_native
      else if is_owning_locks f then Some freeze_pinned_monitor
      else None
  | InterpretedFrame =>
      if is_owning_locks f then Some freeze_pinned_monitor
      else if preempt && top && is_native f then Some freeze_pinned_native
      else None
  | StubFrame => if preempt && top then None else Some freeze_pinned_native
  | OtherFrame => Some freeze_pinned_native
  end.

(** The frame at which the walk ends: its bottom reaches the bottom address
    of the continuation. *)
Definition reaches_bottom (bottom_address : Z) (f : frame) : bool :=
  let f := if decide (kind f = InterpretedFrame)
           then adjust_interpreted_frame_unextended_sp f else f in
  bool_decide (bottom_address - 1 <= frame_bottom f).

(** The pin code of the first pinned frame, walking from the top frame
    toward the entry and no further than the bottom frame. *)
Fixpoint first_pinned (preempt top : bool) (bottom_address : Z) (frames : list frame)
  : option freeze_result :=
  match frames with
  | [] => None
  | f :: senders =>
      match pin_code preempt top f with
      | Some r => Some r
      | None =>
          if decide (kind f = StubFrame) then first_pinned preempt false bottom_address senders
          else if reaches_bottom bottom_address f then None
          else first_pinned preempt false bottom_address senders
      end
  end.

(** The frames the stream finds lie inside the chunk, above its bottom, and
    the pc of each is the word in its return-pc slot. *)
Definition stream_wf (c : stackChunk) (frames : list cframe) : Prop :=
  Forall (fun f => c_sp f < stack_size c - argsize c /\ c_pc f = stream_pc c (c_sp f)) frames.

(** The chunk [c] as [finalize_thaw] leaves it, [rest] being the frames that
    stay in it. *)
Definition finalized (c c' : stackChunk) (rest : list cframe) (delta : Z) : Prop :=
  stack_size c' = stack_size c /\ parent c' = parent c /\ words c' = words c /\
  has_mixed_frames c' = has_mixed_frames c /\ is_gc_mode c' = is_gc_mode c /\
  max_size c' = max_size c - delta /\
  match rest with
  | f :: _ => sp c' = c_sp f /\ pc c' = c_pc f /\ argsize c' = argsize c
  | [] => sp c' = stack_size c /\ pc c' = 0 /\ argsize c' = 0
  end.

(** What the recursive thaw has done to the state when it returns: the tail
    chunk has been finalized once, after the frames [thawed], and nothing
    else in the heap has changed. *)
Definition thaw_post (frames : list cframe) (s_end : Z) (th : Thaw) (vm : VM)
    (th' : Thaw) (vm' : VM) : Prop :=
  _thaw_tail th' = _thaw_tail th /\ _thaw_barriers th' = _thaw_barriers th /\
  _top_unextended_sp th' = _top_unextended_sp th /\
  continuation_tail vm' = continuation_tail vm /\
  exists id c c' rest thawed,
    tail_chunk (_thaw_tail th) vm = Some (id, c) /\
    heap vm' = <[id := c']> (heap vm) /\
    frames = thawed ++ rest /\ thawed <> [] /\
    finalized c c' rest (stream_unextended_sp rest s_end - _top_unextended_sp th).

Definition thawing_ok (frames : list cframe) (s_end : Z) (th : Thaw) (vm : VM)
    (res : thawing) : Prop :=
  forall caller th' vm', res = Some (caller, th', vm') -> thaw_post frames s_end th vm th' vm'.

(** The tail chunk as [finish_thaw] leaves it, from the chunk [c1] that
    [finalize_thaw] has left; [seen] is [seen_by_gc()] and [al] the
    alignment room counted while thawing. *)
Definition finished (seen : bool) (al : Z) (c1 : stackChunk) : stackChunk :=
  if is_empty c1
  then set_max_size 0 (if seen then c1 else set_has_mixed_frames false c1)
  else set_max_size (max_size c1 - al) c1.

(** Invariant 4: the return-pc slot of the topmost frame of a non-empty
    chunk, the word at [sp - 1], holds the chunk's [pc]. *)
Definition return_pc_ok (c : stackChunk) : Prop :=
  is_empty c = false -> words c (sp c - 1) = pc c.

Definition all_chunks (Q : stackChunk -> Prop) (vm : VM) : Prop :=
  forall j c, heap vm !! j = Some c -> Q c.

(** Invariant 1 with what keeps it: a chunk is either empty, with
    [sp = stack_size], no arguments and [max_size = 0], or it holds frames
    above its [argsize] bottom words and [max_size] is positive; a chunk of
    compiled frames needs on the stack at least the words of its frames. *)
Definition chunk_inv (c : stackChunk) : Prop :=
  0 <= argsize c /\
  ((sp c = stack_size c /\ argsize c = 0 /\ max_size c = 0) \/
   (sp c < stack_size c - argsize c /\ 0 < max_size c /\
    (has_mixed_frames c = false -> stack_size c - argsize c - sp c <= max_size c))).

(** The size [recurse_freeze_compiled_frame] and
    [recurse_freeze_interpreted_frame] compute for a frame. *)
Definition compiled_fsize (f : frame) (ca : Z) (ci : bool) : Z :=
  frame_bottom f + stack_argsize f - frame_top f ca ci.

Definition interpreted_fsize (f : frame) (ca : Z) (ci : bool) : Z :=
  let f := adjust_interpreted_frame_unextended_sp f in
  frame_fp f + metadata_words + max_locals f - frame_top f ca ci.

(** The frames the walk visits have room for more than their stack
    arguments; [ca] and [ci] are what the callee passes on. *)
Fixpoint frames_sized (ca : Z) (ci : bool) (frames : list frame) : Prop :=
  match frames with
  | [] => True
  | f :: senders =>
      match kind f with
      | CompiledFrame =>
          0 <= stack_argsize f < compiled_fsize f ca ci /\
          frames_sized (stack_argsize f) false senders
      | InterpretedFrame =>
          let f' := adjust_interpreted_frame_unextended_sp f in
          0 <= stack_argsize f' < interpreted_fsize f ca ci /\
          frames_sized (stack_argsize f') true senders
      | _ => True
      end
  end.

(** A tail chunk the walk has prepared: the frames go below [bound]. *)
Definition prepared (bound : Z) (c : stackChunk) : Prop :=
  0 <= argsize c /\ sp c <= stack_size c - argsize c /\ 0 < max_size c /\ bound <= sp c.

(** A step that lets the freeze go on returns a [caller] frame inside the
    prepared tail chunk, strictly inside once a frame has been written. *)
Definition walk_sized (fr : Freeze) (w : walk) : Prop :=
  forall res caller fr' vm', w = Some (res, caller, fr', vm') -> gt_ok_bottom res = false ->
    _align_size fr <= _align_size fr' /\
    exists id c, tail_chunk (_cont_tail fr') vm' = Some (id, c) /\
      prepared (if decide (res = freeze_ok) then h_sp caller + 1 else h_sp caller) c.

(** A step that changes no more than the words of the tail chunk. *)
Definition header_kept (fr : Freeze) (vm vm' : VM) : Prop :=
  forall id c, tail_chunk (_cont_tail fr) vm = Some (id, c) ->
    exists w, tail_chunk (_cont_tail fr) vm' = Some (id, set_words w c).







(** What a step of the walk does to the pending exception: a failure leaves
    one pending unless the freeze is a forced preemption, and no other
    result touches it. *)
Definition walk_pending (fr : Freeze) (vm : VM) (w : walk) : Prop :=
  forall res caller fr' vm', w = Some (res, caller, fr', vm') ->
    _preempt fr' = _preempt fr /\
    (res = freeze_exception -> _preempt fr = false ->
       has_pending_exception (thread vm') = true) /\
    (res <> freeze_exception ->
       has_pending_exception (thread vm') = has_pending_exception (thread vm)).


(** The code a step of the walk returns is a success, a failure, or the pin
    code [fp] of a frame. *)
Definition walk_code (fp : option freeze_result) (w : walk) : Prop :=
  forall res caller fr' vm', w = Some (res, caller, fr', vm') ->
    res = freeze_ok \/ res = freeze_ok_bottom \/ res = freeze_exception \/ fp = Some res.

(** The frames [thawed] have come off the tail chunk, whose top frame is now
    the head of [rest]. *)
Definition thaw_split (frames thawed rest : list cframe) (th : Thaw) (vm' : VM) : Prop :=
  frames = thawed ++ rest /\
  exists id c', _thaw_tail th = Some id /\ heap vm' !! id = Some c' /\
    match rest with
    | r :: _ => sp c' = c_sp r /\ pc c' = c_pc r
    | [] => sp c' = stack_size c' /\ pc c' = 0
    end.

Definition head_interpreted (frames : list cframe) : bool :=
  match frames with
  | f :: _ => bool_decide (c_kind f = InterpretedFrame)
  | [] => false
  end.

(** A compiled frame does not stay on top of the chunk when its callee, the
    last frame thawed, is interpreted. *)
Definition no_compiled_top (thawed rest : list cframe) : Prop :=
  forall l, list.last thawed = Some l -> c_kind l = InterpretedFrame -> is_compiled rest = false.

(** What a recursive thaw with the budget [n] takes off the chunk. *)
Definition thaw_counted (n : nat) (frames : list cframe) (th : Thaw) (res : thawing) : Prop :=
  forall caller th' vm', res = Some (caller, th', vm') ->
    exists thawed rest,
      thaw_split frames thawed rest th vm' /\
      (1 <= length thawed <= n + 1)%nat /\
      (n = 1%nat -> head_interpreted frames = false -> length thawed = 1%nat) /\
      no_compiled_top thawed rest.

(** The stream starts at a safepoint stub. *)
Definition top_stub (frames : list cframe) : bool :=
  match frames with
  | f :: _ => bool_decide (c_kind f = StubFrame)
  | [] => false
  end.

(** A step of the walk that fails with an exception has done no more than
    throw it. *)
Definition walk_thrown (vm : VM) (w : walk) : Prop :=
  forall res caller fr' vm', w = Some (res, caller, fr', vm') ->
    res = freeze_exception -> vm' = vm \/ vm' = throw_exception vm.

(** *** Lemmas and theorems *)

Lemma copy_words_inside src from dst to size a :
  to <= a < to + size -> copy_words src from dst to size a = src (from + (a - to)).
Proof. intros Ha. unfold copy_words. destruct (decide _); [reflexivity | contradiction]. Qed.

Lemma copy_words_outside src from dst to size a :
  ~ (to <= a < to + size) -> copy_words src from dst to size a = dst a.
Proof. intros Ha. unfold copy_words. destruct (decide _); [contradiction | reflexivity]. Qed.

Lemma tail_chunk_Some t vm id c :
  tail_chunk t vm = Some (id, c) -> t = Some id /\ heap vm !! id = Some c.
Proof.
  unfold tail_chunk. destruct t as [i|]; [|discriminate].
  destruct (heap vm !! i) eqn:E; [|discriminate].
  intros [= <- <-]. auto.
Qed.

Lemma tail_chunk_intro vm id c :
  heap vm !! id = Some c -> tail_chunk (Some id) vm = Some (id, c).
Proof. intros E. unfold tail_chunk. rewrite E. reflexivity. Qed.

Lemma lookup_store_chunk vm id c c' :
  heap vm !! id = Some c -> heap (store_chunk id c' vm) !! id = Some c'.
Proof.
  intros E. unfold store_chunk. simpl.
  apply list_lookup_insert_eq. eapply lookup_lt_Some; eauto.
Qed.

Lemma lookup_store_chunk_ne vm id j c' :
  id <> j -> heap (store_chunk id c' vm) !! j = heap vm !! j.
Proof. intros Hne. unfold store_chunk. simpl. apply list_lookup_insert_ne. exact Hne. Qed.

(** What [freeze_fast_copy] leaves in the chunk it is given. *)
Lemma freeze_fast_copy_chunk frame_sp id c0 c start fr vm :
  heap vm !! id = Some c0 ->
  let vm' := freeze_fast_copy frame_sp id c start fr vm in
  exists c',
    heap vm' !! id = Some c' /\
    sp c' = start - cont_size frame_sp vm /\
    max_size c' = max_size c /\
    argsize c' = argsize c /\
    stack_size c' = stack_size c /\
    parent c' = parent c /\
    has_mixed_frames c' = has_mixed_frames c /\
    pc c' = stack (thread vm) (cont_stack_top frame_sp - sender_sp_ret_address_offset) /\
    words c' =
      <[start - entry_argsize (entry vm) - sender_sp_ret_address_offset := pc c]>
        (copy_words (stack (thread vm)) (cont_stack_top frame_sp - metadata_words) (words c)
           (start - cont_size frame_sp vm - metadata_words)
           (cont_size frame_sp vm + metadata_words)) /\
    continuation_tail vm' = _cont_tail fr /\
    stack (thread vm') = stack (thread vm) /\
    entry vm' = entry vm /\
    heap vm' = <[id := c']> (heap vm).
Proof.
  intros E vm'. subst vm'. unfold freeze_fast_copy.
  eexists. split.
  { unfold write. simpl. apply list_lookup_insert_eq. eapply lookup_lt_Some; eauto. }
  simpl. repeat split; try reflexivity.
  f_equal. f_equal. unfold unwind_frames, set_anchor_to_entry. simpl. lia.
Qed.

(** C1. A fast-path freeze into the tail chunk: when the tail is not empty
    its [sp] goes down and its [max_size] goes up by exactly
    [cont_size - argsize]; the copied block ends [argsize] words above the
    old [sp], so the top [argsize] words of the previous top frame are
    overwritten by the copy.  When the tail is empty there is no overlap:
    [sp] goes down by [cont_size], [max_size] becomes [cont_size] and the
    chunk's [argsize] becomes the continuation's. *)
Theorem freeze_fast_overlap_accounting frame_sp a fr vm id chunk :
  tail_chunk (_cont_tail fr) vm = Some (id, chunk) ->
  let csize := cont_size frame_sp vm in
  let cargs := entry_argsize (entry vm) in
  exists vm' chunk',
    freeze_fast true frame_sp a fr vm = Some (true, fr, vm') /\
    heap vm' !! id = Some chunk' /\
    (sp chunk < stack_size chunk ->
       sp chunk' = sp chunk - (csize - cargs) /\
       max_size chunk' = max_size chunk + (csize - cargs) /\
       argsize chunk' = argsize chunk /\
       forall i, sp chunk' - metadata_words <= i < sp chunk + cargs ->
         i <> sp chunk - sender_sp_ret_address_offset ->
         words chunk' i = stack (thread vm') (frame_sp + (i - (sp chunk' - metadata_words)))) /\
    (sp chunk = stack_size chunk ->
       sp chunk' = sp chunk - csize /\
       max_size chunk' = csize /\
       argsize chunk' = cargs /\
       forall i, sp chunk' - metadata_words <= i < sp chunk ->
         i <> sp chunk - cargs - sender_sp_ret_address_offset ->
         words chunk' i = stack (thread vm') (frame_sp + (i - (sp chunk' - metadata_words)))).
Proof.
  intros Ht csize cargs. subst csize cargs.
  destruct (tail_chunk_Some _ _ _ _ Ht) as [_ Hh].
  unfold freeze_fast. rewrite Ht.
  destruct (bool_decide (sp chunk < stack_size chunk)) eqn:Hne.
  - apply bool_decide_eq_true in Hne.
    match goal with |- context [freeze_fast_copy ?f ?i ?c ?s ?r ?v] =>
      destruct (freeze_fast_copy_chunk f i chunk c s r v Hh) as
        (c' & Hc' & Hsp & Hmax & Harg & _ & _ & _ & _ & Hw & _ & Hstk & _ & _);
      exists (freeze_fast_copy f i c s r v), c';
      change (cont_size f v) with (cont_size frame_sp vm) in Hsp, Hw;
      change (entry_argsize (entry v)) with (entry_argsize (entry vm)) in Hw;
      change (max_size c) with (max_size chunk + cont_size frame_sp vm - entry_argsize (entry vm)) in Hmax;
      change (argsize c) with (argsize chunk) in Harg
    end.
    split; [reflexivity|]. split; [exact Hc'|]. split; [|intros; exfalso; lia].
    intros _. split; [lia|]. split; [lia|]. split; [exact Harg|].
    intros i Hi Hp. rewrite Hw, Hstk. cbn [stack thread with_thread set_stack].
    rewrite fn_lookup_insert_ne by lia.
    rewrite copy_words_inside by (unfold cont_stack_top; lia).
    f_equal. unfold cont_stack_top. lia.
  - apply bool_decide_eq_false in Hne.
    match goal with |- context [freeze_fast_copy ?f ?i ?c ?s ?r ?v] =>
      destruct (freeze_fast_copy_chunk f i chunk c s r v Hh) as
        (c' & Hc' & Hsp & Hmax & Harg & _ & _ & _ & _ & Hw & _ & Hstk & _ & _);
      exists (freeze_fast_copy f i c s r v), c';
      change (cont_size f v) with (cont_size frame_sp vm) in Hsp, Hw;
      change (entry_argsize (entry v)) with (entry_argsize (entry vm)) in Hw;
      change (max_size c) with (cont_size frame_sp vm) in Hmax;
      change (argsize c) with (entry_argsize (entry vm)) in Harg
    end.
    split; [reflexivity|]. split; [exact Hc'|]. split; [intros; exfalso; lia|].
    intros Heq. split; [lia|]. split; [lia|]. split; [exact Harg|].
    intros i Hi Hp. rewrite Hw, Hstk.
    rewrite fn_lookup_insert_ne by lia.
    rewrite copy_words_inside by (unfold cont_stack_top; lia).
    f_equal. unfold cont_stack_top. lia.
Qed.

Local Ltac thawed_words :=
  unfold thawed_onto_stack, patch_return, modify_stack, copy_from_chunk; cbn;
  let k := fresh "k" in let Hk := fresh "Hk" in let Hp := fresh "Hp" in
  intros k Hk Hp;
  rewrite fn_lookup_insert_ne by (let E := fresh in intros E; apply Hp; symmetry; exact E);
  rewrite copy_words_inside by lia; f_equal; lia.

(** C5, as amended.  A fast thaw of a chunk whose live size is below the
    threshold of 500 words copies the whole chunk onto the stack and leaves
    it empty, with [sp = stack_size], [argsize = 0] and [max_size = 0].
    Otherwise exactly one compiled frame and its stack arguments are copied;
    if that frame was the last one of the chunk, the chunk is left empty in
    the same way (and its [pc] is not touched), else [sp] advances by the
    frame's size, [max_size] goes down by it and [pc] becomes the return pc
    into the next frame. *)
Theorem thaw_fast_bulk_or_single_frame id chunk vm :
  heap vm !! id = Some chunk ->
  let full_chunk_size := stack_size chunk - sp chunk in
  let frame_size := blob_frame_size (stream_pc chunk (sp chunk)) in
  let fargs := blob_stack_argsize (stream_pc chunk (sp chunk)) in
  let stack_sp := (thaw_fast id chunk vm).1 in
  let vm' := (thaw_fast id chunk vm).2 in
  exists chunk',
    heap vm' !! id = Some chunk' /\
    (full_chunk_size < 500 ->
       sp chunk' = stack_size chunk /\ argsize chunk' = 0 /\ max_size chunk' = 0 /\
       stack_sp = frame_align_pointer (entry_sp (entry vm) - full_chunk_size) /\
       thawed_onto_stack chunk vm' stack_sp full_chunk_size
         (frame_align_pointer (entry_sp (entry vm) - argsize chunk))) /\
    (500 <= full_chunk_size ->
       stack_sp = frame_align_pointer (entry_sp (entry vm) - (frame_size + fargs)) /\
       thawed_onto_stack chunk vm' stack_sp (frame_size + fargs)
         (frame_align_pointer (entry_sp (entry vm) - fargs)) /\
       (stream_is_done_at chunk (sp chunk + frame_size) = true ->
          sp chunk' = stack_size chunk /\ argsize chunk' = 0 /\ max_size chunk' = 0 /\
          pc chunk' = pc chunk) /\
       (stream_is_done_at chunk (sp chunk + frame_size) = false ->
          sp chunk' = sp chunk + frame_size /\
          max_size chunk' = max_size chunk - frame_size /\
          pc chunk' = words chunk (sp chunk + frame_size - sender_sp_ret_address_offset) /\
          argsize chunk' = argsize chunk)).
Proof.
  intros Hh full frame_size fargs stack_sp vm'.
  subst stack_sp vm'. unfold thaw_fast.
  change (negb TEST_THAW_ONE_CHUNK_FRAME) with true. cbn [andb].
  fold full. unfold threshold.
  assert (Hlt : (id < length (heap vm))%nat) by (eapply lookup_lt_Some; eauto).
  destruct (bool_decide (full < 500)) eqn:Hfull.
  - apply bool_decide_eq_true in Hfull.
    eexists. split.
    { cbn. apply list_lookup_insert_eq. exact Hlt. }
    split; [|intros; exfalso; lia]. intros _. cbn.
    repeat split. thawed_words.
  - apply bool_decide_eq_false in Hfull.
    fold frame_size fargs.
    destruct (stream_is_done_at chunk (sp chunk + frame_size)) eqn:Hdone.
    + eexists. split.
      { cbn. apply list_lookup_insert_eq. exact Hlt. }
      split; [intros; exfalso; lia|]. intros _. cbn.
      split; [reflexivity|]. split; [thawed_words|].
      split; [intros _; repeat split | intros; discriminate].
    + eexists. split.
      { cbn. apply list_lookup_insert_eq. exact Hlt. }
      split; [intros; exfalso; lia|]. intros _. cbn.
      split; [reflexivity|]. split; [thawed_words|].
      split; [intros; discriminate | intros _; repeat split].
Qed.


Lemma allocate_chunk_success size a fr vm :
  ~ humongous size -> a <> slow_null ->
  exists fr1 vm1,
    allocate_chunk size a fr vm = (Some (length (heap vm)), fr1, vm1) /\
    heap vm1 = heap vm ++ [fresh_chunk size (new_chunk_requires_barriers a)
                             (last_nonempty_chunk (_cont_tail fr) vm)] /\
    continuation_tail vm1 = continuation_tail vm /\
    entry vm1 = entry vm /\
    stack (thread vm1) = stack (thread vm) /\
    has_pending_exception (thread vm1) = has_pending_exception (thread vm) /\
    cont_fastpath (thread vm1) = fastpath_after a (thread vm) /\
    _cont_tail fr1 = Some (length (heap vm)) /\
    _barriers fr1 = match a with
                    | slow_hit barriers _ => negb UseZGC && barriers
                    | _ => _barriers fr
                    end.
Proof.
  intros Hh Ha. unfold allocate_chunk.
  destruct (bool_decide (0 < stack_chunk_max_size)
            && bool_decide (stack_chunk_max_size <= instance_size size)) eqn:E.
  { exfalso. apply Hh. apply andb_true_iff in E as [E1 E2].
    apply bool_decide_eq_true in E1, E2. split; assumption. }
  destruct a as [b | b f |]; [| | contradiction]; eexists _, _; repeat split.
Qed.

(** C8. A fast-path freeze that finds no reusable tail allocates a chunk of
    exactly [cont_size + metadata_words] words.  If the thread's fast-path
    flag is found cleared after the allocation, or the new chunk requires
    barriers, the fast path is given up and the result is that of the slow
    path, run on the state the allocation left.  Otherwise the freeze
    returns OK, and the new chunk, now the published tail, has
    [sp = metadata_words], the continuation's [argsize],
    [max_size = cont_size] and the topmost frame's return address as [pc]. *)
Theorem freeze_fast_fresh_chunk frame_sp frames csp a a' fr vm :
  let csize := cont_size frame_sp vm in
  let id := length (heap vm) in
  ~ humongous (csize + metadata_words) ->
  a <> slow_null ->
  allocator_contract a ->
  _barriers fr = false ->
  has_pending_exception (thread vm) = false ->
  cont_fastpath (thread vm) = true ->
  exists fr1 vm1,
    allocate_chunk (csize + metadata_words) a fr vm = (Some id, fr1, vm1) /\
    heap vm1 !! id = Some (fresh_chunk (csize + metadata_words) (new_chunk_requires_barriers a)
                             (last_nonempty_chunk (_cont_tail fr) vm)) /\
    (fastpath_after a (thread vm) = false \/ new_chunk_requires_barriers a = true ->
       freeze_fast false frame_sp a fr vm = Some (false, fr1, vm1) /\
       try_freeze_fast false frame_sp frames csp a a' fr vm = freeze_slow frames csp a' fr1 vm1) /\
    (fastpath_after a (thread vm) = true /\ new_chunk_requires_barriers a = false ->
       exists vm' chunk',
         try_freeze_fast false frame_sp frames csp a a' fr vm = Some (freeze_ok, fr1, vm') /\
         heap vm' !! id = Some chunk' /\
         continuation_tail vm' = Some id /\
         stack_size chunk' = csize + metadata_words /\
         sp chunk' = metadata_words /\
         argsize chunk' = entry_argsize (entry vm) /\
         max_size chunk' = csize /\
         pc chunk' = stack (thread vm) (cont_stack_top frame_sp - sender_sp_ret_address_offset)).
Proof.
  intros csize id Hh Ha Hc Hb Hex Hfp.
  destruct (allocate_chunk_success (csize + metadata_words) a fr vm Hh Ha)
    as (fr1 & vm1 & Hal & Hheap & Htl & Hen & Hstk & Hpe & Hfa & Hft & Hbar).
  assert (Hnew : heap vm1 !! id =
            Some (fresh_chunk (csize + metadata_words) (new_chunk_requires_barriers a)
                    (last_nonempty_chunk (_cont_tail fr) vm))).
  { rewrite Hheap. unfold id. rewrite lookup_app_r by lia.
    rewrite Nat.sub_diag. reflexivity. }
  assert (Hbar' : _barriers fr1 = new_chunk_requires_barriers a).
  { rewrite Hbar. destruct a as [b | b f |]; simpl in *.
    - congruence.
    - destruct UseZGC; simpl; [symmetry; auto | reflexivity].
    - contradiction. }
  exists fr1, vm1. split; [exact Hal|]. split; [exact Hnew|].
  unfold try_freeze_fast, freeze_fast. fold csize. rewrite Hal.
  cbn [mbind option_bind]. rewrite Hfa, Hbar'. split.
  - intros Hab.
    assert (E : negb (fastpath_after a (thread vm)) || new_chunk_requires_barriers a = true).
    { destruct Hab as [-> | ->]; [reflexivity | apply orb_true_r]. }
    rewrite E. cbn [mbind option_bind]. rewrite Hpe, Hex. split; reflexivity.
  - intros [E1 E2]. rewrite E1, E2. cbn [negb orb]. fold id. rewrite Hnew.
    cbn [mbind option_bind].
    match goal with |- context [freeze_fast_copy ?f ?i ?c ?s ?r ?v] =>
      destruct (freeze_fast_copy_chunk f i _ c s r v Hnew) as
        (c' & Hc' & Hsp & Hmax & Harg & Hsz & _ & _ & Hpc & _ & Htail & _ & _ & _);
      exists (freeze_fast_copy f i c s r v), c'
    end.
    split; [reflexivity|]. split; [exact Hc'|]. split; [rewrite Htail, Hft; reflexivity|].
    assert (Hcs : cont_size frame_sp vm1 = csize).
    { unfold csize, cont_size, cont_stack_bottom. rewrite Hen. reflexivity. }
    rewrite Hcs in Hsp. fold csize in Hsp.
    split; [exact Hsz|]. split; [lia|]. split; [rewrite Harg; reflexivity|].
    split; [exact Hmax|]. rewrite Hpc, Hstk. reflexivity.
Qed.


Lemma finalize_thaw_caller stream s_end argsz th vm caller th' vm' :
  finalize_thaw stream s_end argsz th vm = Some (caller, th', vm') ->
  caller = new_entry_frame vm' /\ th' = th /\
  exists id c, tail_chunk (_thaw_tail th) vm = Some (id, c) /\
    entry vm' = entry_set_argsize argsz (entry vm) /\
    stack (thread vm') = stack (thread vm) /\
    continuation_tail vm' = continuation_tail vm /\
    exists c', heap vm' = <[id := c']> (heap vm) /\
      stack_size c' = stack_size c /\ parent c' = parent c /\ words c' = words c /\
      has_mixed_frames c' = has_mixed_frames c /\ is_gc_mode c' = is_gc_mode c /\
      max_size c' = max_size c - (stream_unextended_sp stream s_end - _top_unextended_sp th) /\
      match stream with
      | f :: _ => sp c' = c_sp f /\ pc c' = c_pc f /\ argsize c' = argsize c
      | [] => sp c' = stack_size c /\ pc c' = 0 /\ argsize c' = 0
      end.
Proof.
  unfold finalize_thaw. destruct (tail_chunk (_thaw_tail th) vm) as [[id c]|] eqn:Ht;
    [|discriminate].
  cbn [mbind option_bind]. intros [= <- <- <-].
  split; [reflexivity|]. split; [reflexivity|].
  exists id, c. split; [reflexivity|]. repeat (split; [reflexivity|]).
  eexists. split; [reflexivity|]. destruct stream; cbn; repeat split.
Qed.


(** *** The slow walk *)

Lemma allocate_chunk_Some size a fr vm id fr1 vm1 :
  allocate_chunk size a fr vm = (Some id, fr1, vm1) ->
  id = length (heap vm) /\ _cont_tail fr1 = Some id /\
  continuation_tail vm1 = continuation_tail vm /\
  (exists c, heap vm1 = heap vm ++ [c] /\ has_mixed_frames c = false /\ is_empty c = true
             /\ max_size c = 0 /\ stack_size c = size /\ argsize c = 0) /\
  entry vm1 = entry vm /\ stack (thread vm1) = stack (thread vm).
Proof.
  unfold allocate_chunk.
  destruct (bool_decide (0 < stack_chunk_max_size) && _); [discriminate|].
  destruct a as [b | b f |]; [| | discriminate]; intros [= <- <- <-];
    (split; [reflexivity|]; split; [reflexivity|]; split; [reflexivity|]);
    (split; [|split; reflexivity]);
    eexists; (split; [reflexivity|]); repeat split;
    unfold is_empty; apply bool_decide_eq_true; reflexivity.
Qed.

Lemma allocate_chunk_None size a fr vm fr1 vm1 :
  allocate_chunk size a fr vm = (None, fr1, vm1) ->
  heap vm1 = heap vm /\ continuation_tail vm1 = continuation_tail vm /\
  entry vm1 = entry vm /\ stack (thread vm1) = stack (thread vm).
Proof.
  unfold allocate_chunk.
  destruct (bool_decide (0 < stack_chunk_max_size) && _).
  - intros [= <- <-]. destruct (_preempt fr); repeat split.
  - destruct a as [b | b f |]; [discriminate | discriminate |].
    intros [= <- <-]. repeat split.
Qed.

Lemma tail_mixed_store fr vm id c0 c :
  _cont_tail fr = Some id -> heap vm !! id = Some c0 -> has_mixed_frames c = true ->
  tail_mixed fr (store_chunk id c vm).
Proof.
  intros Ht Hh Hm. exists id, c. split; [|exact Hm].
  rewrite Ht. apply tail_chunk_intro. eapply lookup_store_chunk; eauto.
Qed.

Lemma tail_mixed_tail fr fr' vm :
  _cont_tail fr' = _cont_tail fr -> tail_mixed fr vm -> tail_mixed fr' vm.
Proof. intros Ht (id & c & H1 & H2). exists id, c. rewrite Ht. auto. Qed.

Lemma others_kept_store fr' vm id c :
  _cont_tail fr' = Some id -> others_kept fr' vm (store_chunk id c vm).
Proof.
  intros Ht j c' Hl Hne. rewrite lookup_store_chunk_ne in Hl; [exact Hl|].
  intros ->. apply Hne. exact Ht.
Qed.

Lemma others_kept_alloc fr' vm vm1 c0 c :
  _cont_tail fr' = Some (length (heap vm)) -> heap vm1 = heap vm ++ [c0] ->
  others_kept fr' vm (store_chunk (length (heap vm)) c vm1).
Proof.
  intros Ht Hh j c' Hl Hne.
  rewrite lookup_store_chunk_ne in Hl by (intros <-; apply Hne; exact Ht).
  rewrite Hh in Hl. apply lookup_app_Some in Hl as [Hl | [Hge Hl]]; [exact Hl|].
  exfalso. apply Hne. rewrite Ht. f_equal.
  apply lookup_lt_Some in Hl. cbn in Hl. lia.
Qed.

Local Ltac finalize_leaf :=
  intros [= <- <- <- <-];
  (split; [discriminate|]);
  (split; [let Hx := fresh in intros Hx;
           first [ vm_compute in Hx; discriminate Hx | cbn; congruence ] |]);
  (split; [| split; [discriminate | cbn; congruence]]);
  let Hx := fresh in intros Hx;
  first [ vm_compute in Hx; discriminate Hx
        | split; [eapply tail_mixed_store; cbn; eauto|] ].

Lemma finalize_freeze_ok callee argsz a fr vm :
  walk_ok vm (finalize_freeze callee argsz a fr vm).
Proof.
  intros res caller fr' vm'. unfold finalize_freeze.
  match goal with |- context [allocate_chunk ?sz a ?f vm] =>
    pose proof (allocate_chunk_Some sz a f vm) as HS;
    pose proof (allocate_chunk_None sz a f vm) as HN;
    destruct (allocate_chunk sz a f vm) as [[[i|] f1] v1] eqn:Ea
  end.
  - destruct (HS _ _ _ eq_refl) as (-> & Ht & Hct & (c & Hheap & _) & _). clear HS HN.
    assert (Hl : heap v1 !! length (heap vm) = Some c).
    { rewrite Hheap, lookup_app_r by lia. rewrite Nat.sub_diag. reflexivity. }
    rewrite Hl.
    destruct (tail_chunk (_cont_tail fr) vm) as [[id c0]|] eqn:Et.
    + destruct (tail_chunk_Some _ _ _ _ Et) as [Htl Hh].
      repeat match goal with
             | |- context [if ?b then _ else _] => destruct b
             end;
        finalize_leaf;
        first [ eapply others_kept_alloc; cbn; eauto
              | apply (others_kept_store _ (unwind_frames vm)); cbn; eauto ].
    + repeat match goal with
             | |- context [if ?b then _ else _] => destruct b
             end;
        try discriminate;
        finalize_leaf;
        eapply others_kept_alloc; cbn; eauto.
  - destruct (HN _ _ eq_refl) as (Hheap & Hct & _). clear HS HN.
    destruct (tail_chunk (_cont_tail fr) vm) as [[id c0]|] eqn:Et.
    + destruct (tail_chunk_Some _ _ _ _ Et) as [Htl Hh].
      repeat match goal with
             | |- context [if ?b then _ else _] => destruct b
             end;
        finalize_leaf;
        apply (others_kept_store _ (unwind_frames vm)); cbn; eauto.
    + repeat match goal with
             | |- context [if ?b then _ else _] => destruct b
             end;
        try discriminate;
        finalize_leaf.
Qed.

Lemma modify_tail_words_post g fr vm vm' :
  modify_tail_words g fr vm = Some vm' ->
  continuation_tail vm' = continuation_tail vm /\
  entry vm' = entry vm /\ thread vm' = thread vm /\
  exists id c, tail_chunk (_cont_tail fr) vm = Some (id, c) /\
    vm' = store_chunk id (set_words (g (words c)) c) vm.
Proof.
  unfold modify_tail_words.
  destruct (tail_chunk (_cont_tail fr) vm) as [[id c]|] eqn:E; [|discriminate].
  intros [= <-]. repeat split. eauto.
Qed.

Lemma kept_modify g fr vm vm' : modify_tail_words g fr vm = Some vm' -> kept fr vm vm'.
Proof.
  intros Hm.
  destruct (modify_tail_words_post _ _ _ _ Hm) as (Hct & _ & _ & id & c & Ht & ->).
  destruct (tail_chunk_Some _ _ _ _ Ht) as [Htl Hh].
  split; [exact Hct|]. split.
  - intros j Hj. apply lookup_store_chunk_ne. intros ->. apply Hj. exact Htl.
  - intros (id' & c' & Ht' & Hmx). rewrite Ht in Ht'. injection Ht' as <- <-.
    eapply tail_mixed_store; eauto.
Qed.

Lemma kept_refl fr vm : kept fr vm vm.
Proof. repeat split; auto. Qed.

Lemma kept_trans fr vm1 vm2 vm3 : kept fr vm1 vm2 -> kept fr vm2 vm3 -> kept fr vm1 vm3.
Proof.
  intros (A1 & A2 & A3) (B1 & B2 & B3). split; [congruence|]. split; [|auto].
  intros j Hj. rewrite B2, A2; auto.
Qed.

Lemma kept_tail fr fr' vm1 vm2 :
  _cont_tail fr' = _cont_tail fr -> kept fr vm1 vm2 -> kept fr' vm1 vm2.
Proof.
  intros Ht (A1 & A2 & A3). split; [exact A1|]. split.
  - intros j Hj. apply A2. congruence.
  - intros Hm. apply (tail_mixed_tail fr); [exact Ht|]. apply A3.
    apply (tail_mixed_tail fr'); [symmetry; exact Ht | exact Hm].
Qed.

Lemma kept_copy from to size fr vm vm' :
  copy_to_chunk from to size fr vm = Some vm' -> kept fr vm vm'.
Proof. apply kept_modify. Qed.

Lemma kept_patch f hf caller bottom fr vm vm' :
  freeze_patch f hf caller bottom fr vm = Some vm' -> kept fr vm vm'.
Proof.
  unfold freeze_patch. intros Hp.
  destruct (if bottom then _ else _) as [vm1|] eqn:E1; [|discriminate].
  cbn [mbind option_bind] in Hp.
  destruct (modify_tail_words (patch_pd hf caller) fr vm1) as [vm2|] eqn:E2; [|discriminate].
  cbn [mbind option_bind] in Hp.
  assert (H1 : kept fr vm vm1).
  { destruct bottom; [eapply kept_modify; eauto | injection E1 as <-; apply kept_refl]. }
  assert (H2 : kept fr vm1 vm2) by (eapply kept_modify; eauto).
  destruct (decide (kind f = InterpretedFrame)).
  - eapply kept_trans; [eapply kept_trans; eauto|]. eapply kept_modify; eauto.
  - injection Hp as <-. eapply kept_trans; eauto.
Qed.

(** A frame written into the chunk that a lower step has prepared. *)
Lemma walk_ok_written vm result caller fr1 vm1 hf fr2 vm2 :
  walk_ok vm (Some (result, caller, fr1, vm1)) -> gt_ok_bottom result = false ->
  _cont_tail fr2 = _cont_tail fr1 -> kept fr1 vm1 vm2 ->
  walk_ok vm (Some (freeze_ok, hf, fr2, vm2)).
Proof.
  intros Hr Hg Ht (K1 & K2 & K3) res c' fr' vm' [= <- <- <- <-].
  destruct (Hr _ _ _ _ eq_refl) as (_ & _ & Hm & _ & Hct).
  destruct (Hm Hg) as [Hmx Hok].
  split; [discriminate|]. split; [discriminate|].
  split; [|split; [discriminate | congruence]].
  intros _. split.
  - apply (tail_mixed_tail fr1); [exact Ht | auto].
  - intros j c Hl Hne. apply Hok; [|congruence].
    rewrite <- K2; [exact Hl | congruence].
Qed.

Lemma gt_ok_bottom_pinned res : is_pinned_result res = true -> gt_ok_bottom res = true.
Proof. destruct res; (discriminate || reflexivity). Qed.

Lemma recurse_freeze_java_frame_ok interpreted f fsize argsz finalize freeze_sender fr vm :
  (forall fr1, walk_ok vm (finalize fr1 vm)) ->
  (forall ca ci fr1, walk_ok vm (freeze_sender ca ci fr1 vm)) ->
  walk_ok vm (recurse_freeze_java_frame interpreted f fsize argsz finalize freeze_sender fr vm).
Proof.
  intros Hf Hs. unfold recurse_freeze_java_frame.
  destruct (bool_decide _); [apply Hf | apply Hs].
Qed.

Lemma recurse_freeze_compiled_frame_ok f ca ci a freeze_sender fr vm :
  (forall ca ci fr1, walk_ok vm (freeze_sender ca ci fr1 vm)) ->
  walk_ok vm (recurse_freeze_compiled_frame f ca ci a freeze_sender fr vm).
Proof.
  intros Hs. unfold recurse_freeze_compiled_frame.
  match goal with |- context [recurse_freeze_java_frame ?i ?f ?s ?g ?fin ?snd ?r ?v] =>
    pose proof (recurse_freeze_java_frame_ok i f s g fin snd r v
                  (fun fr1 => finalize_freeze_ok _ _ _ fr1 vm) Hs) as Hr;
    destruct (recurse_freeze_java_frame i f s g fin snd r v) as [[[[result caller] fr1] vm1]|]
  end; [|intros ? ? ? ?; discriminate].
  cbn [mbind option_bind].
  destruct (gt_ok_bottom result) eqn:Hg; [exact Hr|].
  destruct (new_heap_frame f caller) as [hf caller_sp].
  destruct (copy_to_chunk _ _ _ fr1 vm1) as [vm2|] eqn:Ec; [|intros ? ? ? ?; discriminate].
  cbn [mbind option_bind].
  match goal with |- context [freeze_patch ?f ?h ?c ?b ?r ?v] =>
    destruct (freeze_patch f h c b r v) as [vm3|] eqn:Ep
  end; [|intros ? ? ? ?; discriminate].
  cbn [mbind option_bind].
  match type of Ep with freeze_patch _ _ _ _ ?r _ = _ =>
    assert (Ht : _cont_tail r = _cont_tail fr1) by (destruct (h_interpreted _); reflexivity)
  end.
  eapply walk_ok_written; [exact Hr | exact Hg | exact Ht |].
  eapply kept_trans; [eapply kept_copy; eauto|].
  eapply kept_tail; [symmetry; exact Ht | eapply kept_patch; eauto].
Qed.

Lemma recurse_freeze_interpreted_frame_ok f ca ci a freeze_sender fr vm :
  (forall ca ci fr1, walk_ok vm (freeze_sender ca ci fr1 vm)) ->
  walk_ok vm (recurse_freeze_interpreted_frame f ca ci a freeze_sender fr vm).
Proof.
  intros Hs. unfold recurse_freeze_interpreted_frame.
  match goal with |- context [recurse_freeze_java_frame ?i ?f ?s ?g ?fin ?snd ?r ?v] =>
    pose proof (recurse_freeze_java_frame_ok i f s g fin snd r v
                  (fun fr1 => finalize_freeze_ok _ _ _ fr1 vm) Hs) as Hr;
    destruct (recurse_freeze_java_frame i f s g fin snd r v) as [[[[result caller] fr1] vm1]|]
  end; [|intros ? ? ? ?; discriminate].
  cbn [mbind option_bind].
  destruct (gt_ok_bottom result) eqn:Hg; [exact Hr|].
  destruct (new_heap_frame _ caller) as [hf caller_sp].
  set (fr2 := set_align_size _ fr1).
  destruct (copy_to_chunk _ _ _ fr2 vm1) as [vm2|] eqn:Ec; [|intros ? ? ? ?; discriminate].
  cbn [mbind option_bind].
  destruct (copy_to_chunk _ _ _ fr2 vm2) as [vm3|] eqn:Ec'; [|intros ? ? ? ?; discriminate].
  cbn [mbind option_bind].
  destruct (modify_tail_words _ fr2 vm3) as [vm4|] eqn:Er; [|intros ? ? ? ?; discriminate].
  cbn [mbind option_bind].
  destruct (freeze_patch _ _ _ _ fr2 vm4) as [vm5|] eqn:Ep; [|intros ? ? ? ?; discriminate].
  cbn [mbind option_bind].
  eapply walk_ok_written; [exact Hr | exact Hg | reflexivity |].
  apply (kept_tail fr2); [reflexivity|].
  eapply kept_trans; [eapply kept_copy; eauto|].
  eapply kept_trans; [eapply kept_copy; eauto|].
  eapply kept_trans; [eapply kept_modify; eauto|].
  eapply kept_patch; eauto.
Qed.

Lemma recurse_freeze_stub_frame_ok f senderf a freeze_sender fr vm :
  (forall ca ci fr1, walk_ok vm (freeze_sender ca ci fr1 vm)) ->
  walk_ok vm (recurse_freeze_stub_frame f senderf a freeze_sender fr vm).
Proof.
  intros Hs. unfold recurse_freeze_stub_frame.
  destruct (negb (oop_map senderf)).
  { intros res c' fr' vm' [= <- <- <- <-]. repeat split; discriminate. }
  destruct (is_owning_locks senderf).
  { intros res c' fr' vm' [= <- <- <- <-]. repeat split; discriminate. }
  match goal with |- context [recurse_freeze_compiled_frame ?f ?x ?y ?a ?snd ?r ?v] =>
    pose proof (recurse_freeze_compiled_frame_ok f x y a snd r v Hs) as Hr;
    destruct (recurse_freeze_compiled_frame f x y a snd r v) as [[[[result caller] fr1] vm1]|]
  end; [|intros ? ? ? ?; discriminate].
  cbn [mbind option_bind].
  destruct (gt_ok_bottom result) eqn:Hg; [exact Hr|].
  destruct (new_heap_frame f caller) as [hf caller_sp].
  destruct (copy_to_chunk _ _ _ fr1 vm1) as [vm2|] eqn:Ec; [|intros ? ? ? ?; discriminate].
  cbn [mbind option_bind].
  eapply walk_ok_written; [exact Hr | exact Hg | reflexivity |].
  eapply kept_copy; eauto.
Qed.

Lemma stack_overflow_false csp fr vm vm' :
  stack_overflow csp fr vm = (false, vm') -> vm' = vm.
Proof. unfold stack_overflow. destruct (bool_decide _); congruence. Qed.

Lemma stack_overflow_true csp fr vm vm' :
  stack_overflow csp fr vm = (true, vm') ->
  heap vm' = heap vm /\ continuation_tail vm' = continuation_tail vm /\
  entry vm' = entry vm /\ stack (thread vm') = stack (thread vm).
Proof.
  unfold stack_overflow. destruct (bool_decide _); [|discriminate].
  intros [= <-]. destruct (_preempt fr); repeat split.
Qed.

(** The walk itself, by induction on the frames still to visit. *)
Lemma freeze_walk_ok frames :
  forall depth csp a ca ci top fr vm,
    walk_ok vm (freeze frames depth csp a ca ci top fr vm).
Proof.
  induction frames as [frames IH] using (induction_ltof1 _ (@length frame)).
  unfold ltof in IH.
  intros depth csp a ca ci top fr vm.
  destruct frames as [|f senders]; [intros ? ? ? ?; discriminate|].
  cbn [freeze].
  destruct (stack_overflow (csp depth) fr vm) as [[|] vm0] eqn:Eo.
  { intros res c' fr' vm' [= <- <- <- <-].
    destruct (stack_overflow_true _ _ _ _ Eo) as (H1 & H2 & _).
    split; [discriminate|]. split; [intros _; exact H1|].
    split; [discriminate|]. split; [discriminate | exact H2]. }
  apply stack_overflow_false in Eo. subst vm0.
  assert (Hs : forall ca ci fr1,
             walk_ok vm (freeze senders (S depth) csp a ca ci false fr1 vm)).
  { intros. apply IH. cbn. lia. }
  assert (Hpin : forall r c', is_pinned_result r = true -> r <> freeze_pinned_cs ->
             walk_ok vm (Some (r, c', fr, vm))).
  { intros r c' Hr Hn res c'' fr' vm' [= <- <- <- <-].
    split; [reflexivity|]. split; [reflexivity|].
    split; [rewrite gt_ok_bottom_pinned by exact Hr; discriminate|]. auto. }
  destruct (kind f).
  - destruct (negb (oop_map f)); [apply Hpin; [reflexivity | discriminate]|].
    destruct (is_owning_locks f); [apply Hpin; [reflexivity | discriminate]|].
    apply recurse_freeze_compiled_frame_ok. exact Hs.
  - destruct (is_owning_locks f); [apply Hpin; [reflexivity | discriminate]|].
    destruct (_preempt fr && top && is_native f);
      [apply Hpin; [reflexivity | discriminate]|].
    apply recurse_freeze_interpreted_frame_ok. exact Hs.
  - destruct (_preempt fr && top).
    + destruct senders as [|senderf senders']; [intros ? ? ? ?; discriminate|].
      apply recurse_freeze_stub_frame_ok.
      intros. apply IH. cbn. lia.
    + apply Hpin; [reflexivity | discriminate].
  - apply Hpin; [reflexivity | discriminate].
Qed.

Lemma freeze_slow_pinned frames csp a fr vm res fr' vm' :
  freeze_slow frames csp a fr vm = Some (res, fr', vm') ->
  is_pinned_result res = true -> vm' = vm.
Proof.
  unfold freeze_slow.
  match goal with |- context [freeze ?fs ?d ?c ?a ?x ?y ?t ?r ?v] =>
    pose proof (freeze_walk_ok fs d c a x y t r v) as Hw;
    destruct (freeze fs d c a x y t r v) as [[[[r0 caller] fr1] vm1]|]
  end; [|discriminate].
  cbn [mbind option_bind].
  destruct (Hw _ _ _ _ eq_refl) as (Hp & _).
  destruct (decide (r0 = freeze_ok)) as [->|Hne].
  - destruct (finish_freeze caller fr1 vm1); [|discriminate].
    cbn [mbind option_bind]. intros [= <- <- <-]. discriminate.
  - intros [= <- <- <-]. exact Hp.
Qed.

Lemma freeze_fast_abandoned frame_sp a fr vm fr1 vm1 :
  freeze_fast false frame_sp a fr vm = Some (false, fr1, vm1) ->
  continuation_tail vm1 = continuation_tail vm /\ entry vm1 = entry vm /\
  stack (thread vm1) = stack (thread vm) /\
  exists unpublished, heap vm1 = heap vm ++ unpublished.
Proof.
  unfold freeze_fast.
  match goal with |- context [allocate_chunk ?sz a fr vm] =>
    pose proof (allocate_chunk_Some sz a fr vm) as HS;
    pose proof (allocate_chunk_None sz a fr vm) as HN;
    destruct (allocate_chunk sz a fr vm) as [[[i|] f1] v1]
  end.
  - destruct (HS _ _ _ eq_refl) as (_ & _ & Hct & (c & Hheap & _) & He & Hst).
    destruct (negb (cont_fastpath (thread v1)) || _barriers f1).
    + intros [= <- <-]. repeat (split; [assumption|]). eauto.
    + destruct (heap v1 !! i); discriminate.
  - destruct (HN _ _ eq_refl) as (Hheap & Hct & He & Hst).
    intros [= <- <-]. repeat (split; [assumption|]).
    exists []. rewrite app_nil_r. exact Hheap.
Qed.

Lemma chunk_list_app n (h extra : list stackChunk) t :
  (forall id, t = Some id -> is_Some (h !! id)) ->
  (forall i c id, h !! i = Some c -> parent c = Some id -> is_Some (h !! id)) ->
  chunk_list n (h ++ extra) t = chunk_list n h t.
Proof.
  intros Ht Hp. revert t Ht. induction n as [|n IH]; intros t Ht; [reflexivity|].
  destruct t as [id|]; [|reflexivity]. cbn [chunk_list].
  destruct (Ht id eq_refl) as [c Hc].
  rewrite (lookup_app_l_Some _ _ _ _ Hc), Hc. f_equal.
  apply IH. intros id' Hid. eapply Hp; eauto.
Qed.

(** C6. When freeze returns a pinned code, the continuation object and its
    chunks are as they were before the call: the published tail is the same,
    every chunk of the heap is unchanged, the chunk list is the same list of
    the same chunks, and the entry and the native stack are untouched.  (A
    chunk that an abandoned fast path has allocated stays unpublished; the
    slow path on its own allocates nothing before it reports a pin.) *)
Theorem freeze_pinned_leaves_state frame_sp frames csp a a' vm res vm' :
  freeze_internal frame_sp frames csp a a' vm = Some (res, vm') ->
  is_pinned_result res = true ->
  heap_closed vm ->
  continuation_tail vm' = continuation_tail vm /\
  (forall id c, heap vm !! id = Some c -> heap vm' !! id = Some c) /\
  (forall n, chunk_list n (heap vm') (continuation_tail vm')
             = chunk_list n (heap vm) (continuation_tail vm)) /\
  entry vm' = entry vm /\
  stack (thread vm') = stack (thread vm) /\
  (can_freeze_fast (thread vm) = false -> vm' = vm).
Proof.
  intros Hf Hp [Hc1 Hc2].
  assert (Hgoal : continuation_tail vm' = continuation_tail vm /\
                  entry vm' = entry vm /\ stack (thread vm') = stack (thread vm) /\
                  (exists unpublished, heap vm' = heap vm ++ unpublished) /\
                  (can_freeze_fast (thread vm) = false -> vm' = vm)).
  { revert Hf. unfold freeze_internal.
    destruct (entry_is_pinned (entry vm)).
    { intros [= <- <-]. repeat (split; [reflexivity|]). split; [|reflexivity].
      exists []. symmetry. apply app_nil_r. }
    destruct (can_freeze_fast (thread vm)) eqn:Hfast; cbn [andb].
    - destruct (is_chunk_available_for_fast_freeze frame_sp _ vm).
      { destruct (try_freeze_fast true _ _ _ _ _ _ _) as [[[r f] v]|]; [|discriminate].
        cbn [mbind option_bind]. intros [= <- <-]. discriminate. }
      unfold try_freeze_fast.
      destruct (freeze_fast false _ _ _ _) as [[[ok fr1] vm1]|] eqn:Eff; [|discriminate].
      cbn [mbind option_bind]. destruct ok.
      { cbn [mbind option_bind]. intros [= <- <-]. discriminate. }
      destruct (freeze_fast_abandoned _ _ _ _ _ _ Eff) as (H1 & H2 & H3 & H4).
      destruct (has_pending_exception (thread vm1)).
      { cbn [mbind option_bind]. intros [= <- <-]. discriminate. }
      destruct (freeze_slow frames csp a' fr1 vm1) as [[[r f] v]|] eqn:Es; [|discriminate].
      cbn [mbind option_bind]. intros [= <- <-].
      rewrite (freeze_slow_pinned _ _ _ _ _ _ _ _ Es Hp).
      repeat (split; [assumption|]). discriminate.
    - destruct (freeze_slow frames csp a _ vm) as [[[r f] v]|] eqn:Es; [|discriminate].
      cbn [mbind option_bind]. intros [= <- <-].
      rewrite (freeze_slow_pinned _ _ _ _ _ _ _ _ Es Hp).
      repeat (split; [reflexivity|]). split; [|reflexivity].
      exists []. symmetry. apply app_nil_r. }
  destruct Hgoal as (Ht & He & Hs & [extra Hh] & Hslow).
  split; [exact Ht|]. split.
  { intros id c Hl. rewrite Hh. apply lookup_app_l_Some. exact Hl. }
  split.
  { intros n. rewrite Hh, Ht. apply chunk_list_app; assumption. }
  auto.
Qed.

(** *** Pinning *)






(** *** The slow thaw *)

Lemma thaw_post_step frames s_end th vm th1 vm1 th2 vm2 :
  thaw_post frames s_end th vm th1 vm1 ->
  _thaw_tail th2 = _thaw_tail th1 -> _thaw_barriers th2 = _thaw_barriers th1 ->
  _top_unextended_sp th2 = _top_unextended_sp th1 ->
  heap vm2 = heap vm1 -> continuation_tail vm2 = continuation_tail vm1 ->
  thaw_post frames s_end th vm th2 vm2.
Proof.
  intros (A1 & A2 & A3 & A4 & id & c & c' & rest & thawed & B) H1 H2 H3 H4 H5.
  repeat (split; [congruence|]).
  exists id, c, c', rest, thawed. rewrite H4. exact B.
Qed.

Lemma thaw_post_cons x frames s_end th vm th' vm' :
  thaw_post frames s_end th vm th' vm' -> thaw_post (x :: frames) s_end th vm th' vm'.
Proof.
  intros (A1 & A2 & A3 & A4 & id & c & c' & rest & thawed & B1 & B2 & B3 & B4 & B5).
  repeat (split; [assumption|]).
  exists id, c, c', rest, (x :: thawed).
  repeat (split; [assumption|]). split; [rewrite B3; reflexivity|].
  split; [discriminate | exact B5].
Qed.

Lemma recurse_thaw_java_frame_ok interpreted hf stream s_end n thaw_next th vm :
  (forall n', thawing_ok stream s_end th vm (thaw_next n' th vm)) ->
  forall bottom caller th' vm',
    recurse_thaw_java_frame interpreted hf stream s_end n thaw_next th vm
      = Some (bottom, caller, th', vm') ->
    thaw_post (hf :: stream) s_end th vm th' vm'.
Proof.
  intros Hn bottom caller th' vm'. unfold recurse_thaw_java_frame.
  match goal with |- context [if ?b then _ else _] => destruct b end.
  - destruct (finalize_thaw _ _ _ _ _) as [[[c t] v]|] eqn:Hf; [|discriminate].
    cbn [mbind option_bind]. intros [= <- <- <- <-].
    destruct (finalize_thaw_caller _ _ _ _ _ _ _ _ Hf)
      as (_ & -> & id & c0 & Ht & _ & _ & Hct & c' & Hheap & F).
    repeat (split; [reflexivity|]). split; [exact Hct|].
    exists id, c0, c', stream, [hf].
    split; [exact Ht|]. split; [exact Hheap|]. split; [reflexivity|].
    split; [discriminate|].
    destruct F as (F1 & F2 & F3 & F4 & F5 & F6 & F7). repeat split; assumption.
  - match goal with |- context [thaw_next ?k th vm] =>
      specialize (Hn k); destruct (thaw_next k th vm) as [[[c t] v]|]
    end; [|discriminate].
    cbn [mbind option_bind]. intros [= <- <- <- <-].
    apply thaw_post_cons. exact (Hn _ _ _ eq_refl).
Qed.

Local Ltac thaw_steps H :=
  unfold thaw_patch;
  repeat match goal with
         | |- context [new_stack_frame ?a ?b ?c] => destruct (new_stack_frame a b c)
         | |- context [if ?b then _ else _] => destruct b
         end;
  intros [= <- <- <-]; (eapply thaw_post_step; [exact H | reflexivity ..]).

Lemma recurse_thaw_compiled_frame_ok hf stream s_end n stub_caller thaw_next th vm :
  (forall n', thawing_ok stream s_end th vm (thaw_next n' th vm)) ->
  thawing_ok (hf :: stream) s_end th vm
    (recurse_thaw_compiled_frame hf stream s_end n stub_caller thaw_next th vm).
Proof.
  intros Hn caller th' vm'. unfold recurse_thaw_compiled_frame.
  pose proof (recurse_thaw_java_frame_ok false hf stream s_end n thaw_next th vm Hn) as Hr.
  destruct (recurse_thaw_java_frame _ _ _ _ _ _ _ _) as [[[[bottom c1] th1] vm1]|];
    [|discriminate].
  specialize (Hr _ _ _ _ eq_refl). cbn [mbind option_bind].
  destruct (tail_chunk (_thaw_tail th1) vm1) as [[id chunk]|]; [|discriminate].
  cbn [mbind option_bind]. thaw_steps Hr.
Qed.

Lemma recurse_thaw_interpreted_frame_ok hf stream s_end n thaw_next th vm :
  (forall n', thawing_ok stream s_end th vm (thaw_next n' th vm)) ->
  thawing_ok (hf :: stream) s_end th vm
    (recurse_thaw_interpreted_frame hf stream s_end n thaw_next th vm).
Proof.
  intros Hn caller th' vm'. unfold recurse_thaw_interpreted_frame.
  pose proof (recurse_thaw_java_frame_ok true hf stream s_end n thaw_next th vm Hn) as Hr.
  destruct (recurse_thaw_java_frame _ _ _ _ _ _ _ _) as [[[[bottom c1] th1] vm1]|];
    [|discriminate].
  specialize (Hr _ _ _ _ eq_refl). cbn [mbind option_bind].
  destruct (tail_chunk (_thaw_tail th1) vm1) as [[id chunk]|]; [|discriminate].
  cbn [mbind option_bind]. thaw_steps Hr.
Qed.

Lemma recurse_thaw_stub_frame_ok hf hf2 stream s_end n thaw_next th vm :
  (forall n', thawing_ok stream s_end th vm (thaw_next n' th vm)) ->
  thawing_ok (hf :: hf2 :: stream) s_end th vm
    (recurse_thaw_stub_frame hf hf2 stream s_end n thaw_next th vm).
Proof.
  intros Hn caller th' vm'. unfold recurse_thaw_stub_frame.
  pose proof (recurse_thaw_compiled_frame_ok hf2 stream s_end n true thaw_next th vm Hn) as Hr.
  destruct (recurse_thaw_compiled_frame _ _ _ _ _ _ _ _) as [[[c1 th1] vm1]|];
    [|discriminate].
  specialize (Hr _ _ _ eq_refl). cbn [mbind option_bind].
  destruct (tail_chunk (_thaw_tail th1) vm1) as [[id chunk]|]; [|discriminate].
  cbn [mbind option_bind]. apply (thaw_post_cons hf) in Hr. thaw_steps Hr.
Qed.

Lemma thaw_one_frame_ok stream :
  forall s_end n top th vm,
    thawing_ok stream s_end th vm (thaw_one_frame stream s_end n top th vm).
Proof.
  induction stream as [stream IH] using (induction_ltof1 _ (@length cframe)).
  unfold ltof in IH. intros s_end n top th vm.
  destruct stream as [|hf rest]; [intros ? ? ?; discriminate|].
  cbn [thaw_one_frame].
  destruct (top && bool_decide (c_kind hf = StubFrame)).
  - destruct rest as [|hf2 rest2]; [intros ? ? ?; discriminate|].
    apply recurse_thaw_stub_frame_ok. intros n'. apply IH. cbn. lia.
  - destruct (negb _).
    + apply recurse_thaw_compiled_frame_ok. intros n'. apply IH. cbn. lia.
    + apply recurse_thaw_interpreted_frame_ok. intros n'. apply IH. cbn. lia.
Qed.

Lemma thaw_slow_post chunk frames return_barrier th vm sp' vm' id c :
  thaw_slow chunk frames return_barrier th vm = Some (sp', vm') ->
  tail_chunk (_thaw_tail th) vm = Some (id, c) ->
  let seen := _thaw_barriers th || is_gc_mode c in
  exists c1 rest thawed al,
    frames = thawed ++ rest /\ thawed <> [] /\
    finalized c c1 rest
      (stream_unextended_sp rest (stream_end chunk)
       - stream_unextended_sp frames (stream_end chunk)) /\
    heap vm' = <[id := finished seen al c1]> (heap vm) /\
    continuation_tail vm' = (if is_empty c1 && seen then parent c1 else _thaw_tail th).
Proof.
  intros Hs Ht seen. unfold thaw_slow in Hs.
  match type of Hs with context [thaw_one_frame ?fs ?e ?n ?t ?h ?v] =>
    pose proof (thaw_one_frame_ok fs e n t h v) as Ho;
    destruct (thaw_one_frame fs e n t h v) as [[[caller th1] vm1]|]
  end; [|discriminate].
  specialize (Ho _ _ _ eq_refl). cbn [mbind option_bind] in Hs.
  destruct Ho as (A1 & A2 & A3 & A4 & id' & c0 & c1 & rest & thawed & B1 & B2 & B3 & B4 & B5).
  cbn in A1, A2, A3, B1, B5. rewrite Ht in B1. injection B1 as <- <-.
  destruct (tail_chunk_Some _ _ _ _ Ht) as [Htl Hh].
  assert (Ht1 : tail_chunk (_thaw_tail th1) vm1 = Some (id, c1)).
  { rewrite A1, Htl. apply tail_chunk_intro. rewrite B2.
    apply list_lookup_insert_eq. eapply lookup_lt_Some; eauto. }
  unfold finish_thaw, seen_by_gc in Hs. rewrite Ht1 in Hs. cbn [mbind option_bind] in Hs.
  assert (Hseen : _thaw_barriers th1 || is_gc_mode c1 = seen).
  { unfold seen. rewrite A2. destruct B5 as (_ & _ & _ & _ & -> & _). reflexivity. }
  rewrite Hseen in Hs.
  exists c1, rest, thawed, (_thaw_align_size th1).
  split; [exact B3|]. split; [exact B4|]. split; [exact B5|].
  unfold finished.
  destruct (is_empty c1); [destruct seen|]; cbn in Hs;
    match type of Hs with context [bool_decide ?p] => destruct (bool_decide p) end;
    injection Hs as <- <-; cbn; rewrite ?B2, ?list_insert_insert_eq, ?A1; auto.
Qed.

Lemma freeze_slow_ok frames csp a fr vm fr' vm' :
  freeze_slow frames csp a fr vm = Some (freeze_ok, fr', vm') ->
  exists id c top w,
    continuation_tail vm' = Some id /\ heap vm' !! id = Some c /\
    has_mixed_frames c = true /\
    sp c = h_sp top /\ pc c = h_pc top /\ words c = set_top_frame_metadata_pd top w /\
    (forall j c', heap vm' !! j = Some c' -> j <> id -> heap vm !! j = Some c').
Proof.
  unfold freeze_slow.
  match goal with |- context [freeze ?fs ?d ?c ?a ?x ?y ?t ?r ?v] =>
    pose proof (freeze_walk_ok fs d c a x y t r v) as Hw;
    destruct (freeze fs d c a x y t r v) as [[[[r0 caller] fr1] vm1]|]
  end; [|discriminate].
  cbn [mbind option_bind].
  destruct (Hw _ _ _ _ eq_refl) as (_ & _ & Hm & _ & _).
  destruct (decide (r0 = freeze_ok)) as [->|Hne]; [|intros [= -> _ _]; contradiction].
  destruct (Hm eq_refl) as [(id & c & Ht & Hmx) Hok].
  unfold finish_freeze. rewrite Ht. cbn [mbind option_bind]. intros [= <- <-].
  destruct (tail_chunk_Some _ _ _ _ Ht) as [Htl Hh].
  eexists id, _, caller, (words c). split; [exact Htl|].
  split; [cbn; apply list_lookup_insert_eq; eapply lookup_lt_Some; eauto|].
  cbn. repeat (split; [first [exact Hmx | reflexivity]|]).
  intros j c' Hl Hj. rewrite list_lookup_insert_ne in Hl by congruence.
  apply Hok; [exact Hl | congruence].
Qed.

(** C10. A successful slow-path freeze leaves the published tail chunk with
    HAS_MIXED_FRAMES set, whatever the kinds of the frozen frames.  A tail
    chunk with the flag is refused by the fast-path freeze and by the
    fast-path thaw.  The slow thaw keeps the flag on a chunk it does not
    empty; when it empties the chunk it either clears the flag and keeps the
    chunk as the tail, or, when the collector has seen the chunk, unlinks
    it. *)
Theorem slow_freeze_marks_mixed :
  (forall frames csp a fr vm fr' vm',
     freeze_slow frames csp a fr vm = Some (freeze_ok, fr', vm') ->
     exists id c,
       continuation_tail vm' = Some id /\ heap vm' !! id = Some c /\
       has_mixed_frames c = true) /\
  (forall frame_sp fr vm id c,
     tail_chunk (_cont_tail fr) vm = Some (id, c) -> has_mixed_frames c = true ->
     is_chunk_available_for_fast_freeze frame_sp fr vm = false) /\
  (forall c th vm, has_mixed_frames c = true -> can_thaw_fast c th vm = false) /\
  (forall kind frames preempted vm sp' vm' id c,
     thaw kind frames preempted vm = Some (sp', vm') ->
     tail_chunk (continuation_tail vm) vm = Some (id, c) ->
     has_mixed_frames c = true ->
     exists c',
       heap vm' !! id = Some c' /\
       (is_empty c' = false ->
          has_mixed_frames c' = true /\ continuation_tail vm' = Some id) /\
       (is_empty c' = true ->
          if requires_barriers c || is_gc_mode c
          then continuation_tail vm' = parent c
          else has_mixed_frames c' = false /\ continuation_tail vm' = Some id)).
Proof.
  split; [|split; [|split]].
  - intros frames csp a fr vm fr' vm' Hs.
    destruct (freeze_slow_ok _ _ _ _ _ _ _ Hs) as (id & c & _ & _ & H1 & H2 & H3 & _).
    eauto.
  - intros frame_sp fr vm id c Ht Hm. unfold is_chunk_available_for_fast_freeze.
    rewrite Ht, Hm. rewrite !orb_true_r. reflexivity.
  - intros c th vm Hm. unfold can_thaw_fast, has_thaw_slowpath_condition. rewrite Hm.
    cbn. rewrite andb_false_r. reflexivity.
  - intros kind frames preempted vm sp' vm' id c Hthaw Ht Hm.
    unfold thaw in Hthaw. cbn [_thaw_tail new_Thaw] in Hthaw. rewrite Ht in Hthaw.
    cbn [mbind option_bind] in Hthaw.
    assert (Hc : can_thaw_fast c (thaw_set_barriers (requires_barriers c)
                                    (new_Thaw preempted vm)) vm = false).
    { unfold can_thaw_fast, has_thaw_slowpath_condition. rewrite Hm.
      cbn. rewrite andb_false_r. reflexivity. }
    rewrite Hc in Hthaw.
    destruct (thaw_slow_post _ _ _ _ _ _ _ id c Hthaw Ht)
      as (c1 & rest & thawed & al & _ & _ & F & Hheap & Hct).
    cbn [_thaw_barriers _thaw_tail thaw_set_barriers new_Thaw] in Hheap, Hct.
    destruct (tail_chunk_Some _ _ _ _ Ht) as [Htl Hh].
    eexists. split.
    { rewrite Hheap. apply list_lookup_insert_eq. eapply lookup_lt_Some; eauto. }
    destruct F as (F1 & F2 & F3 & F4 & F5 & F6 & F7).
    unfold finished. destruct (is_empty c1) eqn:He.
    + unfold is_empty in *.
      destruct (requires_barriers c || is_gc_mode c); cbn.
      * split; [intros E; rewrite He in E; discriminate|]. intros _.
        rewrite Hct, F2. reflexivity.
      * split; [intros E; rewrite He in E; discriminate|]. intros _.
        rewrite Hct, Htl. auto.
    + unfold is_empty in *. cbn. rewrite He.
      split; [|discriminate]. intros _. rewrite Hct, F4, Htl. auto.
Qed.

(** *** The chunk a fast freeze leaves *)

Lemma allocate_chunk_fresh size a fr vm id fr1 vm1 :
  allocate_chunk size a fr vm = (Some id, fr1, vm1) ->
  exists barriers par, heap vm1 = heap vm ++ [fresh_chunk size barriers par].
Proof.
  unfold allocate_chunk.
  destruct (bool_decide (0 < stack_chunk_max_size) && _); [discriminate|].
  destruct a as [b | b f |]; [| | discriminate]; intros [= <- <- <-]; eauto.
Qed.

Local Ltac same_words Hw c' :=
  rewrite Hw;
  match goal with
  | |- <[?i := _]> (copy_words _ _ _ ?t _) = <[?j := _]> (copy_words _ _ _ ?u _) =>
      replace j with i by lia; replace u with t by lia; reflexivity
  end.

(** The chunk [c'] that a successful [freeze_fast] has written, from the
    chunk [c0] it started with, in the heap [h0] of that moment. *)
Lemma freeze_fast_result b frame_sp a fr vm fr' vm' :
  freeze_fast b frame_sp a fr vm = Some (true, fr', vm') ->
  let csize := cont_size frame_sp vm in
  let cargs := entry_argsize (entry vm) in
  exists id c0 c' h0 stk,
    (if b then h0 = heap vm /\ tail_chunk (_cont_tail fr) vm = Some (id, c0)
     else id = length (heap vm) /\
          exists barriers par, h0 = heap vm ++ [c0] /\
            c0 = fresh_chunk (csize + metadata_words) barriers par) /\
    h0 !! id = Some c0 /\ heap vm' = <[id := c']> h0 /\
    stack_size c' = stack_size c0 /\ has_mixed_frames c' = has_mixed_frames c0 /\
    (sp c0 < stack_size c0 ->
       sp c' = sp c0 - (csize - cargs) /\ max_size c' = max_size c0 + (csize - cargs) /\
       argsize c' = argsize c0) /\
    (~ sp c0 < stack_size c0 ->
       sp c' = sp c0 - csize /\ max_size c' = csize /\ argsize c' = cargs) /\
    pc c' = stk (cont_stack_top frame_sp - sender_sp_ret_address_offset) /\
    words c' =
      <[sp c' + csize - cargs - sender_sp_ret_address_offset := pc c0]>
        (copy_words stk (cont_stack_top frame_sp - metadata_words) (words c0)
           (sp c' - metadata_words) (csize + metadata_words)).
Proof.
  intros Hf csize cargs. unfold freeze_fast in Hf. fold csize cargs in Hf.
  destruct b.
  - destruct (tail_chunk (_cont_tail fr) vm) as [[id c0]|] eqn:Ht; [|discriminate].
    destruct (tail_chunk_Some _ _ _ _ Ht) as [_ Hh].
    destruct (bool_decide (sp c0 < stack_size c0)) eqn:Hne;
      [apply bool_decide_eq_true in Hne | apply bool_decide_eq_false in Hne];
      injection Hf as <- <-;
      match goal with |- context [freeze_fast_copy ?f ?i ?c ?s ?r ?v] =>
        destruct (freeze_fast_copy_chunk f i c0 c s r v Hh) as
          (c' & Hc' & Hsp & Hmax & Harg & Hsz & _ & Hmx & Hpc & Hw & _ & _ & _ & Hheap);
        change (cont_size f v) with csize in Hsp, Hw;
        change (entry_argsize (entry v)) with cargs in Hw;
        exists id, c0, c', (heap vm), (stack (thread v))
      end;
      (split; [split; reflexivity|]); (split; [exact Hh|]);
      (split; [exact Hheap|]); (split; [exact Hsz|]); (split; [exact Hmx|]).
    + split; [intros _; cbn in Hmax, Harg; repeat split; lia|].
      split; [intros; contradiction|]. split; [exact Hpc|].
      same_words Hw c'.
    + split; [intros; contradiction|].
      split; [intros _; cbn in Hmax, Harg; repeat split; lia|]. split; [exact Hpc|].
      same_words Hw c'.
  - destruct (allocate_chunk (csize + metadata_words) a fr vm) as [[[id|] fr1] vm1] eqn:Ea;
      [|discriminate].
    destruct (allocate_chunk_Some _ _ _ _ _ _ _ Ea) as (-> & _ & _ & _ & He & Hst).
    destruct (allocate_chunk_fresh _ _ _ _ _ _ _ Ea) as (bar & par & Hheap1).
    destruct (negb (cont_fastpath (thread vm1)) || _barriers fr1); [discriminate|].
    assert (Hl : heap vm1 !! length (heap vm)
                 = Some (fresh_chunk (csize + metadata_words) bar par)).
    { rewrite Hheap1, lookup_app_r by lia. rewrite Nat.sub_diag. reflexivity. }
    rewrite Hl in Hf. injection Hf as <- <-.
    match goal with |- context [freeze_fast_copy ?f ?i ?c ?s ?r ?v] =>
      destruct (freeze_fast_copy_chunk f i _ c s r v Hl) as
        (c' & Hc' & Hsp & Hmax & Harg & Hsz & _ & Hmx & Hpc & Hw & _ & _ & _ & Hheap);
      assert (Hcs : cont_size f v = csize)
        by (unfold csize, cont_size, cont_stack_bottom; rewrite He; reflexivity);
      rewrite Hcs in Hsp, Hw; rewrite He in Hw; fold cargs in Hw;
      exists (length (heap vm)), (fresh_chunk (csize + metadata_words) bar par), c',
        (heap vm1), (stack (thread v))
    end.
    split; [split; [reflexivity | exists bar, par; split; [exact Hheap1 | reflexivity]]|].
    split; [exact Hl|]. split; [exact Hheap|]. split; [exact Hsz|]. split; [exact Hmx|].
    cbn [sp stack_size fresh_chunk].
    split; [intros; lia|].
    split; [intros _; cbn in Hmax, Harg; repeat split; lia|]. split; [exact Hpc|].
    same_words Hw c'.
Qed.

(** *** Invariants of the chunks *)

Lemma all_chunks_insert (Q : stackChunk -> Prop) (h : list stackChunk) id c' :
  (forall j c, h !! j = Some c -> Q c) -> Q c' ->
  forall j c, <[id := c']> h !! j = Some c -> Q c.
Proof.
  intros Hall Hc j c Hl. destruct (decide (id = j)) as [->|Hne].
  - destruct (decide (j < length h)%nat) as [Hlt|Hge].
    + rewrite list_lookup_insert_eq in Hl by exact Hlt. injection Hl as <-. exact Hc.
    + rewrite list_insert_ge in Hl by lia. eauto.
  - rewrite list_lookup_insert_ne in Hl by exact Hne. eauto.
Qed.

Lemma all_chunks_app (Q : stackChunk -> Prop) (h : list stackChunk) c0 :
  (forall j c, h !! j = Some c -> Q c) -> Q c0 ->
  forall j c, (h ++ [c0]) !! j = Some c -> Q c.
Proof.
  intros Hall Hc j c Hl. apply lookup_app_Some in Hl as [Hl | [_ Hl]]; [eauto|].
  apply list_lookup_singleton_Some in Hl as [_ <-]. exact Hc.
Qed.

Lemma return_pc_ok_empty c : is_empty c = true -> return_pc_ok c.
Proof. intros He Hn. congruence. Qed.

Lemma recurse_compiled_not_bottom f ca ci a snd fr vm r c fr' vm' :
  recurse_freeze_compiled_frame f ca ci a snd fr vm = Some (r, c, fr', vm') ->
  r <> freeze_ok_bottom.
Proof.
  unfold recurse_freeze_compiled_frame.
  destruct (recurse_freeze_java_frame _ _ _ _ _ _ _ _) as [[[[result c1] fr1] vm1]|];
    [|discriminate].
  cbn [mbind option_bind]. destruct (gt_ok_bottom result) eqn:Hg.
  - intros [= <- _ _ _] ->. discriminate Hg.
  - destruct (new_heap_frame f c1). destruct (copy_to_chunk _ _ _ _ _); [|discriminate].
    cbn [mbind option_bind]. destruct (freeze_patch _ _ _ _ _ _); [|discriminate].
    cbn [mbind option_bind]. intros [= <- _ _ _]. discriminate.
Qed.

Lemma recurse_interpreted_not_bottom f ca ci a snd fr vm r c fr' vm' :
  recurse_freeze_interpreted_frame f ca ci a snd fr vm = Some (r, c, fr', vm') ->
  r <> freeze_ok_bottom.
Proof.
  unfold recurse_freeze_interpreted_frame.
  destruct (recurse_freeze_java_frame _ _ _ _ _ _ _ _) as [[[[result c1] fr1] vm1]|];
    [|discriminate].
  cbn [mbind option_bind]. destruct (gt_ok_bottom result) eqn:Hg.
  - intros [= <- _ _ _] ->. discriminate Hg.
  - destruct (new_heap_frame _ c1).
    repeat (match goal with
            | |- context [mbind _ ?m] => destruct m; [|discriminate]
            end; cbn [mbind option_bind]).
    intros [= <- _ _ _]. discriminate.
Qed.

Lemma freeze_not_bottom frames depth csp a ca ci top fr vm r c fr' vm' :
  freeze frames depth csp a ca ci top fr vm = Some (r, c, fr', vm') ->
  r <> freeze_ok_bottom.
Proof.
  destruct frames as [|f senders]; [discriminate|]. cbn [freeze].
  destruct (stack_overflow _ _ _) as [[|] vm0]; [intros [= <- _ _ _]; discriminate|].
  destruct (kind f).
  - destruct (negb (oop_map f)); [intros [= <- _ _ _]; discriminate|].
    destruct (is_owning_locks f); [intros [= <- _ _ _]; discriminate|].
    apply recurse_compiled_not_bottom.
  - destruct (is_owning_locks f); [intros [= <- _ _ _]; discriminate|].
    destruct (_ && is_native f); [intros [= <- _ _ _]; discriminate|].
    apply recurse_interpreted_not_bottom.
  - destruct (_preempt fr && top); [|intros [= <- _ _ _]; discriminate].
    destruct senders as [|senderf senders']; [discriminate|].
    unfold recurse_freeze_stub_frame.
    destruct (negb (oop_map senderf)); [intros [= <- _ _ _]; discriminate|].
    destruct (is_owning_locks senderf); [intros [= <- _ _ _]; discriminate|].
    destruct (recurse_freeze_compiled_frame _ _ _ _ _ _ _) as [[[[result c1] fr1] vm1]|]
      eqn:Er; [|discriminate].
    cbn [mbind option_bind]. destruct (gt_ok_bottom result) eqn:Hg.
    + intros [= <- _ _ _]. eapply recurse_compiled_not_bottom; eauto.
    + destruct (new_heap_frame f c1). destruct (copy_to_chunk _ _ _ _ _); [|discriminate].
      cbn [mbind option_bind]. intros [= <- _ _ _]. discriminate.
  - intros [= <- _ _ _]. discriminate.
Qed.

(** A slow freeze that does not succeed leaves the heap as it was. *)
Lemma freeze_slow_failed frames csp a fr vm res fr' vm' :
  freeze_slow frames csp a fr vm = Some (res, fr', vm') ->
  res <> freeze_ok -> heap vm' = heap vm.
Proof.
  unfold freeze_slow.
  match goal with |- context [freeze ?fs ?d ?c ?a ?x ?y ?t ?r ?v] =>
    pose proof (freeze_walk_ok fs d c a x y t r v) as Hw;
    pose proof (freeze_not_bottom fs d c a x y t r v) as Hb;
    destruct (freeze fs d c a x y t r v) as [[[[r0 caller] fr1] vm1]|]
  end; [|discriminate].
  cbn [mbind option_bind].
  destruct (Hw _ _ _ _ eq_refl) as (_ & Hh & _).
  specialize (Hb _ _ _ _ eq_refl).
  destruct (decide (r0 = freeze_ok)) as [->|Hne].
  - destruct (finish_freeze caller fr1 vm1); [|discriminate].
    cbn [mbind option_bind]. intros [= <- _ _] Hn. contradiction.
  - intros [= <- _ <-] _. apply Hh. destruct r0; try reflexivity; contradiction.
Qed.

Lemma thaw_fast_chunk id chunk vm :
  let fsz := blob_frame_size (stream_pc chunk (sp chunk)) in
  exists c',
    heap (thaw_fast id chunk vm).2 = <[id := c']> (heap vm) /\
    continuation_tail (thaw_fast id chunk vm).2 = continuation_tail vm /\
    stack_size c' = stack_size chunk /\ words c' = words chunk /\
    parent c' = parent chunk /\ has_mixed_frames c' = has_mixed_frames chunk /\
    ((sp c' = stack_size chunk /\ argsize c' = 0 /\ max_size c' = 0) \/
     (stream_is_done_at chunk (sp chunk + fsz) = false /\
      sp c' = sp chunk + fsz /\ max_size c' = max_size chunk - fsz /\
      pc c' = stream_pc chunk (sp chunk + fsz) /\ argsize c' = argsize chunk)).
Proof.
  intros fsz. unfold thaw_fast.
  change (negb TEST_THAW_ONE_CHUNK_FRAME) with true. cbn [andb].
  destruct (bool_decide (stack_size chunk - sp chunk < threshold)).
  - eexists. split; [reflexivity|]. cbn. repeat (split; [reflexivity|]). left. auto.
  - fold fsz. destruct (stream_is_done_at chunk (sp chunk + fsz)) eqn:Hd.
    + eexists. split; [reflexivity|]. cbn. repeat (split; [reflexivity|]). left. auto.
    + eexists. split; [reflexivity|]. cbn. repeat (split; [reflexivity|]). right. auto.
Qed.

Lemma freeze_fast_true_ok frame_sp a fr vm ok fr1 vm1 :
  freeze_fast true frame_sp a fr vm = Some (ok, fr1, vm1) -> ok = true.
Proof.
  unfold freeze_fast. destruct (tail_chunk _ _) as [[id c]|]; [|discriminate].
  destruct (bool_decide _); intros [= <- _ _]; reflexivity.
Qed.

Lemma freeze_fast_abandoned_fresh frame_sp a fr vm fr1 vm1 :
  freeze_fast false frame_sp a fr vm = Some (false, fr1, vm1) ->
  heap vm1 = heap vm \/
  exists size barriers par, heap vm1 = heap vm ++ [fresh_chunk size barriers par].
Proof.
  unfold freeze_fast.
  match goal with |- context [allocate_chunk ?sz a fr vm] =>
    pose proof (allocate_chunk_fresh sz a fr vm) as HS;
    pose proof (allocate_chunk_None sz a fr vm) as HN;
    destruct (allocate_chunk sz a fr vm) as [[[i|] f1] v1]
  end.
  - destruct (HS _ _ _ eq_refl) as (b & par & Hheap).
    destruct (negb (cont_fastpath (thread v1)) || _barriers f1).
    + intros [= <- <-]. right. eauto.
    + destruct (heap v1 !! i); discriminate.
  - destruct (HN _ _ eq_refl) as (Hheap & _). intros [= <- <-]. left. exact Hheap.
Qed.

Lemma is_empty_fresh size barriers par : is_empty (fresh_chunk size barriers par) = true.
Proof. unfold is_empty. apply bool_decide_eq_true. reflexivity. Qed.

Section ReturnPc.
Hypothesis ret_offset_1 : sender_sp_ret_address_offset = 1.
Hypothesis metadata_ge_1 : 1 <= metadata_words.
Hypothesis top_metadata_pc :
  forall hf m, set_top_frame_metadata_pd hf m (h_sp hf - 1) = h_pc hf.

Lemma freeze_fast_return_pc b frame_sp a fr vm fr1 vm1 :
  0 <= entry_argsize (entry vm) < cont_size frame_sp vm ->
  all_chunks return_pc_ok vm ->
  freeze_fast b frame_sp a fr vm = Some (true, fr1, vm1) ->
  all_chunks return_pc_ok vm1.
Proof.
  intros Hargs Hall Hf.
  destruct (freeze_fast_result _ _ _ _ _ _ _ Hf)
    as (id & c0 & c' & h0 & stk & Hb & Hl & Hheap & _ & _ & _ & _ & Hpc & Hw).
  unfold all_chunks. rewrite Hheap. apply all_chunks_insert.
  - destruct b.
    + destruct Hb as [-> _]. exact Hall.
    + destruct Hb as (_ & bar & par & -> & ->).
      apply all_chunks_app; [exact Hall|].
      apply return_pc_ok_empty, is_empty_fresh.
  - intros _. rewrite Hw, Hpc, ret_offset_1.
    rewrite fn_lookup_insert_ne by lia.
    rewrite copy_words_inside by lia. f_equal. lia.
Qed.

Lemma freeze_slow_return_pc frames csp a fr vm res fr' vm' :
  all_chunks return_pc_ok vm ->
  freeze_slow frames csp a fr vm = Some (res, fr', vm') ->
  all_chunks return_pc_ok vm'.
Proof.
  intros Hall Hs. destruct (decide (res = freeze_ok)) as [->|Hne].
  - destruct (freeze_slow_ok _ _ _ _ _ _ _ Hs)
      as (id & c & top & w & _ & Hl & _ & Hsp & Hpc & Hw & Hothers).
    intros j c' Hj. destruct (decide (j = id)) as [->|Hji].
    + rewrite Hl in Hj. injection Hj as <-. intros _.
      rewrite Hw, Hsp, Hpc. apply top_metadata_pc.
    + eapply Hall, Hothers; eauto.
  - unfold all_chunks. rewrite (freeze_slow_failed _ _ _ _ _ _ _ _ Hs Hne). exact Hall.
Qed.

(** C2. The word at [sp - 1] of every non-empty chunk equals the chunk's
    [pc], and every freeze and every thaw keeps it so: the fast freeze
    copies the return address of the topmost frame into that slot and sets
    [pc] to it, the single-frame fast thaw sets [pc] to the word below the
    new [sp], the slow freeze stores the top frame's pc through
    [set_top_frame_metadata_pd], and the slow thaw takes [sp] and [pc] from
    the stream.  The platform puts the return pc one word below a frame's sp
    and has at least that metadata word. *)
Theorem return_pc_slot_holds_pc :
  (forall frame_sp frames csp a a' vm res vm',
     0 <= entry_argsize (entry vm) < cont_size frame_sp vm ->
     all_chunks return_pc_ok vm ->
     freeze_internal frame_sp frames csp a a' vm = Some (res, vm') ->
     all_chunks return_pc_ok vm') /\
  (forall kind frames preempted vm sp' vm' id c,
     tail_chunk (continuation_tail vm) vm = Some (id, c) ->
     stream_wf c frames ->
     all_chunks return_pc_ok vm ->
     thaw kind frames preempted vm = Some (sp', vm') ->
     all_chunks return_pc_ok vm').
Proof.
  split.
  - intros frame_sp frames csp a a' vm res vm' Hargs Hall. unfold freeze_internal.
    destruct (entry_is_pinned (entry vm)); [intros [= _ <-]; exact Hall|].
    destruct (can_freeze_fast (thread vm)); cbn [andb].
    + unfold try_freeze_fast.
      destruct (is_chunk_available_for_fast_freeze _ _ _).
      * destruct (freeze_fast true _ _ _ _) as [[[ok fr1] vm1]|] eqn:Eff; [|discriminate].
        pose proof (freeze_fast_true_ok _ _ _ _ _ _ _ Eff) as ->.
        cbn [mbind option_bind]. intros [= _ <-].
        eapply freeze_fast_return_pc; eauto.
      * destruct (freeze_fast false _ _ _ _) as [[[ok fr1] vm1]|] eqn:Eff; [|discriminate].
        cbn [mbind option_bind]. destruct ok.
        { cbn [mbind option_bind]. intros [= _ <-]. eapply freeze_fast_return_pc; eauto. }
        assert (Hall1 : all_chunks return_pc_ok vm1).
        { destruct (freeze_fast_abandoned_fresh _ _ _ _ _ _ Eff)
            as [Hh | (sz & bar & par & Hh)]; unfold all_chunks; rewrite Hh; [exact Hall|].
          apply all_chunks_app; [exact Hall|]. apply return_pc_ok_empty, is_empty_fresh. }
        destruct (has_pending_exception (thread vm1)).
        { cbn [mbind option_bind]. intros [= _ <-]. exact Hall1. }
        destruct (freeze_slow frames csp a' fr1 vm1) as [[[r f] v]|] eqn:Es; [|discriminate].
        cbn [mbind option_bind]. intros [= _ <-].
        eapply freeze_slow_return_pc; eauto.
    + destruct (freeze_slow frames csp a _ vm) as [[[r f] v]|] eqn:Es; [|discriminate].
      cbn [mbind option_bind]. intros [= _ <-].
      eapply freeze_slow_return_pc; eauto.
  - intros kind frames preempted vm sp' vm' id c Ht Hwf Hall. unfold thaw.
    cbn [_thaw_tail new_Thaw]. rewrite Ht. cbn [mbind option_bind].
    destruct (tail_chunk_Some _ _ _ _ Ht) as [Htl Hh].
    destruct (can_thaw_fast c _ vm).
    + intros [= Hr].
      destruct (thaw_fast_chunk id c vm) as (c' & Hheap & _ & Hsz & Hw & _ & _ & Hcase).
      rewrite Hr in Hheap. cbn [snd] in Hheap.
      unfold all_chunks. rewrite Hheap. apply all_chunks_insert; [exact Hall|].
      destruct Hcase as [(Hsp & _) | (_ & Hsp & _ & Hpc & _)].
      * apply return_pc_ok_empty. unfold is_empty. apply bool_decide_eq_true. congruence.
      * intros _. rewrite Hw, Hsp, Hpc. unfold stream_pc. rewrite ret_offset_1. reflexivity.
    + intros Hs.
      destruct (thaw_slow_post _ _ _ _ _ _ _ id c Hs Ht)
        as (c1 & rest & thawed & al & Hfr & _ & F & Hheap & _).
      unfold all_chunks. rewrite Hheap. apply all_chunks_insert; [exact Hall|].
      destruct F as (F1 & F2 & F3 & F4 & F5 & F6 & F7).
      unfold finished. destruct (is_empty c1) eqn:He.
      * apply return_pc_ok_empty. unfold is_empty in *.
        destruct (_ || _); cbn; exact He.
      * intros _. cbn. destruct rest as [|f rest'].
        { exfalso. destruct F7 as (Hsp & _). unfold is_empty in He.
          apply bool_decide_eq_false in He. congruence. }
        destruct F7 as (Hsp & Hpc & _). rewrite F3, Hsp, Hpc.
        unfold stream_wf in Hwf. rewrite Hfr in Hwf.
        apply Forall_app in Hwf as [_ Hwf]. inversion Hwf as [|? ? [_ Hf] _]; subst.
        rewrite Hf. unfold stream_pc. rewrite ret_offset_1. reflexivity.
Qed.

End ReturnPc.

(** *** The emptiness invariant *)

Lemma set_words_words c : set_words (words c) c = c.
Proof. destruct c; reflexivity. Qed.

Lemma header_kept_refl fr vm : header_kept fr vm vm.
Proof. intros id c Ht. exists (words c). rewrite set_words_words. exact Ht. Qed.

Lemma header_kept_trans fr vm1 vm2 vm3 :
  header_kept fr vm1 vm2 -> header_kept fr vm2 vm3 -> header_kept fr vm1 vm3.
Proof.
  intros H1 H2 id c Ht. destruct (H1 _ _ Ht) as [w1 Ht1].
  destruct (H2 _ _ Ht1) as [w2 Ht2]. exists w2. exact Ht2.
Qed.

Lemma header_kept_modify g fr vm vm' :
  modify_tail_words g fr vm = Some vm' -> header_kept fr vm vm'.
Proof.
  intros Hm id c Ht.
  destruct (modify_tail_words_post _ _ _ _ Hm) as (_ & _ & _ & id' & c' & Ht' & ->).
  rewrite Ht in Ht'. injection Ht' as <- <-.
  destruct (tail_chunk_Some _ _ _ _ Ht) as [Htl Hh].
  eexists. rewrite Htl. apply tail_chunk_intro. eapply lookup_store_chunk; eauto.
Qed.

Lemma header_kept_patch f hf caller bottom fr vm vm' :
  freeze_patch f hf caller bottom fr vm = Some vm' -> header_kept fr vm vm'.
Proof.
  unfold freeze_patch. intros Hp.
  destruct (if bottom then _ else _) as [vm1|] eqn:E1; [|discriminate].
  cbn [mbind option_bind] in Hp.
  destruct (modify_tail_words (patch_pd hf caller) fr vm1) as [vm2|] eqn:E2; [|discriminate].
  cbn [mbind option_bind] in Hp.
  assert (H1 : header_kept fr vm vm1).
  { destruct bottom; [eapply header_kept_modify; eauto | injection E1 as <-; apply header_kept_refl]. }
  assert (H2 : header_kept fr vm1 vm2) by (eapply header_kept_modify; eauto).
  destruct (decide (kind f = InterpretedFrame)).
  - eapply header_kept_trans; [eapply header_kept_trans; eauto|].
    eapply header_kept_modify; eauto.
  - injection Hp as <-. eapply header_kept_trans; eauto.
Qed.

Lemma chunk_top_frame_sp c : h_sp (chunk_top_frame c) = sp c.
Proof. unfold chunk_top_frame. destruct (stream_is_done_at c (sp c)); reflexivity. Qed.

Lemma allocate_chunk_sizes size a fr vm o fr1 vm1 :
  allocate_chunk size a fr vm = (o, fr1, vm1) ->
  _size fr1 = _size fr /\ _align_size fr1 = _align_size fr /\ _preempt fr1 = _preempt fr.
Proof.
  unfold allocate_chunk. destruct (_ && _); [intros [= _ <- _]; auto|].
  destruct a; intros [= _ <- _]; auto.
Qed.

Lemma chunk_inv_empty c :
  chunk_inv c -> is_empty c = true -> sp c = stack_size c /\ max_size c = 0.
Proof.
  intros (Ha & [(Hs & _ & Hm) | (Hsp & _)]) He; [auto|].
  unfold is_empty in He. apply bool_decide_eq_true in He. lia.
Qed.

Lemma chunk_inv_live c :
  chunk_inv c -> is_empty c = false ->
  0 <= argsize c /\ sp c < stack_size c - argsize c /\ 0 < max_size c.
Proof.
  intros (Ha & [(Hsp & _) | (Hsp & Hm & _)]) He; [|auto].
  unfold is_empty in He. apply bool_decide_eq_false in He. contradiction.
Qed.

Local Ltac split_ifs H :=
  repeat match type of H with
         | context [if ?b then _ else _] => destruct b eqn:?
         end.

Local Ltac prepared_leaf Ht Htl :=
  eexists _, _;
  (split;
   [first [rewrite Ht | cbn [_cont_tail set_size]; rewrite Htl];
    apply tail_chunk_intro; eapply lookup_store_chunk; cbn; eauto|]);
  unfold prepared; rewrite chunk_top_frame_sp;
  (destruct (decide (freeze_ok_bottom = freeze_ok)); [discriminate|]);
  cbn [sp argsize stack_size max_size set_max_size set_has_mixed_frames set_argsize
       set_sp _size set_size];
  lia.

Lemma finalize_freeze_sized callee argsz a fr vm :
  0 <= argsz < _size fr ->
  (forall id c, tail_chunk (_cont_tail fr) vm = Some (id, c) -> chunk_inv c) ->
  walk_sized fr (finalize_freeze callee argsz a fr vm).
Proof.
  intros Hsz Hinv res caller fr' vm' Hf Hg. unfold finalize_freeze in Hf.
  cbn [_size set_size _barriers _cont_tail _align_size] in Hf.
  destruct (tail_chunk (_cont_tail fr) vm) as [[id c0]|] eqn:Et.
  - destruct (tail_chunk_Some _ _ _ _ Et) as [Htl Hh].
    specialize (Hinv _ _ eq_refl).
    pose proof (chunk_inv_empty c0 Hinv) as HE.
    pose proof (chunk_inv_live c0 Hinv) as HL.
    set (ti := negb (is_empty c0) && Interpreter_contains (pc c0)) in Hf.
    set (ov := if negb (is_empty c0)
                  && bool_decide (bool_decide (kind callee = InterpretedFrame) = ti)
               then argsz else 0) in Hf.
    assert (Hov : 0 <= ov <= argsz)
      by (unfold ov; destruct (negb (is_empty c0) && bool_decide _); lia).
    clearbody ov ti.
    match type of Hf with context [allocate_chunk ?sz a ?f vm] =>
      pose proof (allocate_chunk_Some sz a f vm) as HS;
      pose proof (allocate_chunk_sizes sz a f vm) as HZ;
      destruct (allocate_chunk sz a f vm) as [[[i|] f1] v1] eqn:Ea
    end.
    + destruct (HS _ _ _ eq_refl)
        as (-> & Ht & _ & (c & Hheap & _ & He & Hmax & Hss & Harg) & _).
      destruct (HZ _ _ _ eq_refl) as (Hz1 & Hz2 & _). clear HS HZ.
      cbn [_size set_size _align_size] in Hz1, Hz2.
      assert (Hl : heap v1 !! length (heap vm) = Some c).
      { rewrite Hheap, lookup_app_r by lia. rewrite Nat.sub_diag. reflexivity. }
      rewrite Hl in Hf.
      apply bool_decide_eq_true in He.
      destruct (is_empty c0) eqn:Hemp;
        [specialize (HE eq_refl); clear HL | specialize (HL eq_refl); clear HE];
        split_ifs Hf; injection Hf as <- <- <- <-; cbn [_align_size set_size];
        (split; [lia|]); prepared_leaf Ht Htl.
    + clear HS. destruct (HZ _ _ _ eq_refl) as (Hz1 & Hz2 & _). clear HZ.
      cbn [_size set_size _align_size] in Hz1, Hz2.
      destruct (is_empty c0) eqn:Hemp;
        [specialize (HE eq_refl); clear HL | specialize (HL eq_refl); clear HE];
        split_ifs Hf; injection Hf as <- <- <- <-;
        try (vm_compute in Hg; discriminate Hg);
        cbn [_align_size set_size];
        (split; [lia|]); prepared_leaf Htl Htl.
  - clear Hinv.
    match type of Hf with context [allocate_chunk ?sz a ?f vm] =>
      pose proof (allocate_chunk_Some sz a f vm) as HS;
      pose proof (allocate_chunk_sizes sz a f vm) as HZ;
      destruct (allocate_chunk sz a f vm) as [[[i|] f1] v1] eqn:Ea
    end.
    + destruct (HS _ _ _ eq_refl)
        as (-> & Ht & _ & (c & Hheap & _ & He & Hmax & Hss & Harg) & _).
      destruct (HZ _ _ _ eq_refl) as (Hz1 & Hz2 & _). clear HS HZ.
      cbn [_size set_size _align_size] in Hz1, Hz2.
      assert (Hl : heap v1 !! length (heap vm) = Some c).
      { rewrite Hheap, lookup_app_r by lia. rewrite Nat.sub_diag. reflexivity. }
      rewrite Hl in Hf.
      apply bool_decide_eq_true in He.
      split_ifs Hf; [|discriminate].
      injection Hf as <- <- <- <-; cbn [_align_size set_size].
      split; [lia|]. prepared_leaf Ht Ht.
    + split_ifs Hf; [|discriminate].
      injection Hf as <- <- <- <-. vm_compute in Hg. discriminate Hg.
Qed.

Lemma walk_sized_pinned fr r c fr' vm' :
  gt_ok_bottom r = true -> walk_sized fr (Some (r, c, fr', vm')).
Proof. intros Hr res caller fr1 vm1 [= <- <- <- <-] Hg. congruence. Qed.

Section Emptiness.
Hypothesis align_wiggle_nonneg : 0 <= align_wiggle.
Hypothesis heap_frame_below :
  forall f caller, h_sp (new_heap_frame f caller).1 < h_sp caller.
Hypothesis stack_frame_kind :
  forall hf caller bottom,
    h_interpreted (new_stack_frame hf caller bottom).1
    = bool_decide (c_kind hf = InterpretedFrame).

(** A frame written into the prepared chunk, below its caller. *)
Lemma walk_sized_written fr result caller fr1 vm1 hf fr2 vm2 :
  walk_sized fr (Some (result, caller, fr1, vm1)) -> gt_ok_bottom result = false ->
  _cont_tail fr2 = _cont_tail fr1 -> _align_size fr1 <= _align_size fr2 ->
  header_kept fr1 vm1 vm2 -> h_sp hf < h_sp caller ->
  walk_sized fr (Some (freeze_ok, hf, fr2, vm2)).
Proof.
  intros Hr Hg Ht Hal Hk Hlt res c' fr' vm' [= <- <- <- <-] _.
  destruct (Hr _ _ _ _ eq_refl Hg) as (Ha & id & c & Htc & Hp).
  split; [lia|]. destruct (Hk _ _ Htc) as [w Hw].
  exists id, (set_words w c). rewrite Ht. split; [exact Hw|].
  destruct (decide (freeze_ok = freeze_ok)); [|congruence].
  unfold prepared in *. cbn [sp argsize stack_size max_size set_words].
  destruct (decide (result = freeze_ok)); lia.
Qed.

Lemma recurse_freeze_java_frame_sized interpreted f fsize argsz callee a freeze_sender fr vm :
  0 <= argsz < fsize -> 0 <= _size fr ->
  (forall id c, tail_chunk (_cont_tail fr) vm = Some (id, c) -> chunk_inv c) ->
  walk_sized fr (freeze_sender argsz interpreted (set_size (_size fr + fsize) fr) vm) ->
  walk_sized fr
    (recurse_freeze_java_frame interpreted f fsize argsz (finalize_freeze callee argsz a)
       freeze_sender fr vm).
Proof.
  intros Hsz H0 Hinv Hs. unfold recurse_freeze_java_frame.
  destruct (bool_decide _); [|exact Hs].
  apply (finalize_freeze_sized callee argsz a (set_size (_size fr + fsize) fr) vm);
    [cbn; lia | exact Hinv].
Qed.

Lemma recurse_freeze_compiled_frame_sized f ca ci a freeze_sender fr vm :
  0 <= stack_argsize f < compiled_fsize f ca ci -> 0 <= _size fr ->
  (forall id c, tail_chunk (_cont_tail fr) vm = Some (id, c) -> chunk_inv c) ->
  walk_sized fr
    (freeze_sender (stack_argsize f) false
       (set_size (_size fr + compiled_fsize f ca ci) fr) vm) ->
  walk_sized fr (recurse_freeze_compiled_frame f ca ci a freeze_sender fr vm).
Proof.
  intros Hsz H0 Hinv Hs. unfold recurse_freeze_compiled_frame.
  pose proof (recurse_freeze_java_frame_sized false f _ _ f a freeze_sender fr vm
                Hsz H0 Hinv Hs) as Hr.
  unfold compiled_fsize in Hr.
  destruct (recurse_freeze_java_frame _ _ _ _ _ _ _ _) as [[[[result caller] fr1] vm1]|];
    [|intros ? ? ? ?; discriminate].
  cbn [mbind option_bind].
  destruct (gt_ok_bottom result) eqn:Hg; [exact Hr|].
  pose proof (heap_frame_below f caller) as Hb.
  destruct (new_heap_frame f caller) as [hf caller_sp]. cbn [fst] in Hb.
  destruct (copy_to_chunk _ _ _ fr1 vm1) as [vm2|] eqn:Ec; [|intros ? ? ? ?; discriminate].
  cbn [mbind option_bind].
  match goal with |- context [freeze_patch ?f ?h ?c ?b ?r ?v] =>
    destruct (freeze_patch f h c b r v) as [vm3|] eqn:Ep
  end; [|intros ? ? ? ?; discriminate].
  cbn [mbind option_bind].
  match type of Ep with freeze_patch _ _ _ _ ?r _ = _ =>
    assert (Ht : _cont_tail r = _cont_tail fr1) by (destruct (h_interpreted _); reflexivity);
    assert (Hal : _align_size fr1 <= _align_size r)
      by (destruct (h_interpreted _); cbn; lia)
  end.
  eapply walk_sized_written; [exact Hr | exact Hg | exact Ht | exact Hal | | exact Hb].
  eapply header_kept_trans; [eapply header_kept_modify; exact Ec|].
  intros id c Htc. rewrite <- Ht in Htc.
  destruct (header_kept_patch _ _ _ _ _ _ _ Ep _ _ Htc) as [w Hw].
  exists w. rewrite <- Ht. exact Hw.
Qed.

Lemma recurse_freeze_interpreted_frame_sized f ca ci a freeze_sender fr vm :
  (let f' := adjust_interpreted_frame_unextended_sp f in
   0 <= stack_argsize f' < interpreted_fsize f ca ci) ->
  0 <= _size fr ->
  (forall id c, tail_chunk (_cont_tail fr) vm = Some (id, c) -> chunk_inv c) ->
  walk_sized fr
    (freeze_sender (stack_argsize (adjust_interpreted_frame_unextended_sp f)) true
       (set_size (_size fr + interpreted_fsize f ca ci) fr) vm) ->
  walk_sized fr (recurse_freeze_interpreted_frame f ca ci a freeze_sender fr vm).
Proof.
  intros Hsz H0 Hinv Hs. unfold recurse_freeze_interpreted_frame.
  cbv zeta in Hsz.
  pose proof (recurse_freeze_java_frame_sized true
                (adjust_interpreted_frame_unextended_sp f) _ _
                (adjust_interpreted_frame_unextended_sp f) a freeze_sender fr vm
                Hsz H0 Hinv Hs) as Hr.
  unfold interpreted_fsize in Hr.
  destruct (recurse_freeze_java_frame _ _ _ _ _ _ _ _) as [[[[result caller] fr1] vm1]|];
    [|intros ? ? ? ?; discriminate].
  cbn [mbind option_bind].
  destruct (gt_ok_bottom result) eqn:Hg; [exact Hr|].
  pose proof (heap_frame_below (adjust_interpreted_frame_unextended_sp f) caller) as Hb.
  destruct (new_heap_frame _ caller) as [hf caller_sp]. cbn [fst] in Hb.
  set (fr2 := set_align_size _ fr1).
  destruct (copy_to_chunk _ _ _ fr2 vm1) as [vm2|] eqn:Ec; [|intros ? ? ? ?; discriminate].
  cbn [mbind option_bind].
  destruct (copy_to_chunk _ _ _ fr2 vm2) as [vm3|] eqn:Ec'; [|intros ? ? ? ?; discriminate].
  cbn [mbind option_bind].
  destruct (modify_tail_words _ fr2 vm3) as [vm4|] eqn:Er; [|intros ? ? ? ?; discriminate].
  cbn [mbind option_bind].
  destruct (freeze_patch _ _ _ _ fr2 vm4) as [vm5|] eqn:Ep; [|intros ? ? ? ?; discriminate].
  cbn [mbind option_bind].
  eapply walk_sized_written;
    [exact Hr | exact Hg | reflexivity | unfold fr2; cbn; lia | | exact Hb].
  change (header_kept fr2 vm1 vm5).
  eapply header_kept_trans; [eapply header_kept_modify; exact Ec|].
  eapply header_kept_trans; [eapply header_kept_modify; exact Ec'|].
  eapply header_kept_trans; [eapply header_kept_modify; exact Er|].
  eapply header_kept_patch; exact Ep.
Qed.

(** The walk over frames that are not preempted at a safepoint stub. *)
Lemma freeze_walk_sized frames :
  forall depth csp a ca ci top fr vm,
    _preempt fr = false -> 0 <= _size fr -> frames_sized ca ci frames ->
    (forall id c, tail_chunk (_cont_tail fr) vm = Some (id, c) -> chunk_inv c) ->
    walk_sized fr (freeze frames depth csp a ca ci top fr vm).
Proof.
  induction frames as [|f senders IH]; intros depth csp a ca ci top fr vm Hp H0 Hsz Hinv.
  { intros ? ? ? ?; discriminate. }
  cbn [freeze].
  destruct (stack_overflow (csp depth) fr vm) as [[|] vm0] eqn:Eo.
  { apply walk_sized_pinned. reflexivity. }
  apply stack_overflow_false in Eo. subst vm0.
  cbn [frames_sized] in Hsz. rewrite Hp. cbn [andb].
  destruct (kind f).
  - destruct Hsz as [Hf Hrest].
    destruct (negb (oop_map f)); [apply walk_sized_pinned; reflexivity|].
    destruct (is_owning_locks f); [apply walk_sized_pinned; reflexivity|].
    apply recurse_freeze_compiled_frame_sized; [exact Hf | exact H0 | exact Hinv|].
    apply (IH (S depth) csp a _ _ false (set_size (_size fr + compiled_fsize f ca ci) fr) vm);
      [exact Hp | cbn; lia | exact Hrest | exact Hinv].
  - destruct Hsz as [Hf Hrest].
    destruct (is_owning_locks f); [apply walk_sized_pinned; reflexivity|].
    apply recurse_freeze_interpreted_frame_sized; [exact Hf | exact H0 | exact Hinv|].
    apply (IH (S depth) csp a _ _ false (set_size (_size fr + interpreted_fsize f ca ci) fr) vm);
      [exact Hp | cbn; unfold interpreted_fsize in *; lia | exact Hrest | exact Hinv].
  - apply walk_sized_pinned. reflexivity.
  - apply walk_sized_pinned. reflexivity.
Qed.


(** *** The alignment room counted by the slow thaw *)








Lemma freeze_slow_sized frames csp a fr vm fr' vm' :
  _preempt fr = false -> frames_sized 0 false (tl frames) ->
  (forall id c, tail_chunk (_cont_tail fr) vm = Some (id, c) -> chunk_inv c) ->
  freeze_slow frames csp a fr vm = Some (freeze_ok, fr', vm') ->
  exists id c,
    continuation_tail vm' = Some id /\ heap vm' !! id = Some c /\
    0 <= argsize c /\ sp c < stack_size c - argsize c /\ 0 < max_size c.
Proof.
  intros Hp Hsz Hinv. unfold freeze_slow.
  assert (Hst : freeze_start_frame frames (set_align_size 0 (set_size 0 fr)) = tl frames).
  { unfold freeze_start_frame. destruct frames; [reflexivity|].
    cbn [_preempt set_align_size set_size]. rewrite Hp. reflexivity. }
  rewrite Hst.
  match goal with |- context [freeze ?fs ?d ?c ?a ?x ?y ?t ?r ?v] =>
    pose proof (freeze_walk_sized fs d c a x y t r v Hp (Z.le_refl 0) Hsz Hinv) as Hw;
    destruct (freeze fs d c a x y t r v) as [[[[r0 caller] fr1] vm1]|]
  end; [|discriminate].
  cbn [mbind option_bind].
  destruct (decide (r0 = freeze_ok)) as [->|Hne]; [|intros [= -> _ _]; contradiction].
  destruct (Hw _ _ _ _ eq_refl eq_refl) as (Hal & id & c & Ht & Hprep).
  cbn [_align_size set_align_size] in Hal.
  destruct (decide (freeze_ok = freeze_ok)); [|congruence].
  unfold finish_freeze. rewrite Ht. cbn [mbind option_bind]. intros [= <- <-].
  destruct (tail_chunk_Some _ _ _ _ Ht) as [Htl Hh].
  eexists id, _. split; [exact Htl|].
  split; [cbn; apply list_lookup_insert_eq; eapply lookup_lt_Some; eauto|].
  unfold prepared in Hprep. cbn. lia.
Qed.

Lemma chunk_inv_fresh size barriers par : chunk_inv (fresh_chunk size barriers par).
Proof. split; [cbn; lia|]. left. repeat split. Qed.



Lemma freeze_fast_abandoned_preempt frame_sp a fr vm fr1 vm1 :
  freeze_fast false frame_sp a fr vm = Some (false, fr1, vm1) -> _preempt fr1 = _preempt fr.
Proof.
  unfold freeze_fast.
  match goal with |- context [allocate_chunk ?sz a fr vm] =>
    pose proof (allocate_chunk_sizes sz a fr vm) as HZ;
    destruct (allocate_chunk sz a fr vm) as [[[i|] f1] v1]
  end; destruct (HZ _ _ _ eq_refl) as (_ & _ & Hp).
  - destruct (negb (cont_fastpath (thread v1)) || _barriers f1).
    + intros [= <- _]. exact Hp.
    + destruct (heap v1 !! i); discriminate.
  - intros [= <- _]. exact Hp.
Qed.


End Emptiness.

End Properties.

(** ** Further properties of the engine *)

Section Further.
Context {P : Platform} {R : Runtime}.

(** *** What a thaw leaves of the chunks *)


(** *** The stack a fast thaw writes *)

(** X2. A fast thaw writes the native stack only between the stack pointer
    it returns, less the metadata words, and the entry's sp: the entry frame
    and everything above it, and everything below the thawed frames, is left
    as it was.  The platform aligns pointers downwards. *)
Theorem thaw_fast_stack_window id chunk vm :
  (forall p, frame_align_pointer p <= p) ->
  (forall p q, p <= q -> frame_align_pointer p <= frame_align_pointer q) ->
  1 <= sender_sp_ret_address_offset <= metadata_words ->
  0 <= argsize chunk <= stack_size chunk - sp chunk ->
  0 <= blob_frame_size (stream_pc chunk (sp chunk)) ->
  0 <= blob_stack_argsize (stream_pc chunk (sp chunk)) ->
  (thaw_fast id chunk vm).1 <= entry_sp (entry vm) /\
  forall a, a < (thaw_fast id chunk vm).1 - metadata_words \/ entry_sp (entry vm) <= a ->
    stack (thread (thaw_fast id chunk vm).2) a = stack (thread vm) a.
Proof.
  intros Hle Hmono Hro Harg Hfs Hfa. unfold thaw_fast.
  change (negb TEST_THAW_ONE_CHUNK_FRAME) with true. cbn [andb].
  set (e := entry_sp (entry vm)).
  assert (Hwin : forall argsz thaw_sz is_last c' a,
            0 <= argsz <= thaw_sz ->
            a < frame_align_pointer (e - thaw_sz) - metadata_words \/ e <= a ->
            stack (thread
              (patch_return (frame_align_pointer (e - argsz)) is_last
                 (with_entry (entry_set_argsize argsz (entry (store_chunk id c' vm)))
                    (copy_from_chunk c' (sp chunk - metadata_words)
                       (frame_align_pointer (e - thaw_sz) - metadata_words)
                       (thaw_sz + metadata_words) (store_chunk id c' vm))))) a
            = stack (thread vm) a).
  { intros argsz thaw_sz is_last c' a Hsz Ha.
    pose proof (Hle (e - thaw_sz)). pose proof (Hle (e - argsz)).
    pose proof (Hmono (e - thaw_sz) (e - argsz) ltac:(lia)).
    unfold patch_return, modify_stack, copy_from_chunk. cbn.
    rewrite fn_lookup_insert_ne by lia.
    rewrite copy_words_outside by lia. reflexivity. }
  destruct (bool_decide (stack_size chunk - sp chunk < threshold)).
  - cbn [fst snd entry store_chunk with_heap]. fold e.
    pose proof (Hle (e - (stack_size chunk - sp chunk))).
    split; [lia|]. intros a Ha. apply Hwin; [lia | exact Ha].
  - set (fs := blob_frame_size (stream_pc chunk (sp chunk))) in *.
    set (fa := blob_stack_argsize (stream_pc chunk (sp chunk))) in *.
    cbn [fst snd entry store_chunk with_heap]. fold e.
    pose proof (Hle (e - (fs + fa))).
    split; [lia|]. intros a Ha. apply Hwin; [lia | exact Ha].
Qed.

(** *** The chunk words a fast freeze writes *)

(** X3. When [is_chunk_available_for_fast_freeze] answers yes, the fast
    freeze succeeds and stays inside the chunk: the new [sp] leaves room for
    the metadata words at the start of the chunk, and no word of the chunk
    is changed below the copied block or from the old [sp] on (from the end
    of the overlapped arguments on, when the chunk was not empty).  No other
    chunk is touched. *)
Theorem freeze_fast_within_chunk frame_sp a fr vm :
  is_chunk_available_for_fast_freeze frame_sp fr vm = true ->
  0 <= entry_argsize (entry vm) <= cont_size frame_sp vm ->
  1 <= sender_sp_ret_address_offset <= metadata_words ->
  exists id c c' vm',
    tail_chunk (_cont_tail fr) vm = Some (id, c) /\
    freeze_fast true frame_sp a fr vm = Some (true, fr, vm') /\
    heap vm' !! id = Some c' /\
    stack_size c' = stack_size c /\
    metadata_words <= sp c' /\
    (forall i,
       i < sp c' - metadata_words \/
       sp c + (if bool_decide (sp c < stack_size c) then entry_argsize (entry vm) else 0) <= i ->
       words c' i = words c i) /\
    (forall j, j <> id -> heap vm' !! j = heap vm !! j).
Proof.
  intros Hav Hargs Hro. unfold is_chunk_available_for_fast_freeze in Hav.
  destruct (tail_chunk (_cont_tail fr) vm) as [[id c]|] eqn:Ht; [|discriminate].
  destruct (tail_chunk_Some _ _ _ _ Ht) as [_ Hh].
  destruct (is_gc_mode c || requires_barriers c || has_mixed_frames c); [discriminate|].
  apply bool_decide_eq_true in Hav.
  unfold freeze_fast. rewrite Ht.
  destruct (decide (sp c < stack_size c)) as [Hlt|Hge];
    [rewrite !bool_decide_eq_true_2 in Hav |- * by exact Hlt
    |rewrite !bool_decide_eq_false_2 in Hav |- * by exact Hge].
  - match goal with |- context [freeze_fast_copy ?f ?i ?c1 ?s ?r ?v] =>
      destruct (freeze_fast_copy_chunk f i c c1 s r v Hh)
        as (c' & Hl & Hsp & _ & _ & Hss & _ & _ & _ & Hw & _ & _ & _ & Hheap)
    end.
    cbn [entry stack thread with_thread set_stack max_size stack_size set_max_size words pc]
      in Hsp, Hss, Hw, Hheap.
    change (cont_size frame_sp (with_thread _ vm)) with (cont_size frame_sp vm) in *.
    eexists id, c, c', _. split; [reflexivity|]. split; [reflexivity|].
    split; [exact Hl|]. split; [exact Hss|]. split; [lia|].
    split.
    + intros i Hi. rewrite bool_decide_eq_true_2 in Hi by exact Hlt.
      rewrite Hw. rewrite fn_lookup_insert_ne by lia.
      rewrite copy_words_outside by lia. reflexivity.
    + intros j Hj. rewrite Hheap. apply list_lookup_insert_ne. congruence.
  - match goal with |- context [freeze_fast_copy ?f ?i ?c1 ?s ?r ?v] =>
      destruct (freeze_fast_copy_chunk f i c c1 s r v Hh)
        as (c' & Hl & Hsp & _ & _ & Hss & _ & _ & _ & Hw & _ & _ & _ & Hheap)
    end.
    cbn [max_size stack_size set_max_size set_argsize words pc] in Hsp, Hss, Hw.
    eexists id, c, c', _. split; [reflexivity|]. split; [reflexivity|].
    split; [exact Hl|]. split; [exact Hss|]. split; [lia|].
    split.
    + intros i Hi. rewrite bool_decide_eq_false_2 in Hi by exact Hge.
      rewrite Hw. rewrite fn_lookup_insert_ne by lia.
      rewrite copy_words_outside by lia. reflexivity.
    + intros j Hj. rewrite Hheap. apply list_lookup_insert_ne. congruence.
Qed.

(** *** Freeze, then thaw *)

(** The chunk a fast freeze leaves when it starts from an empty tail or
    from a fresh chunk, and the rest of the state. *)
Lemma freeze_fast_from_empty b frame_sp a fr vm fr1 vm1 :
  freeze_fast b frame_sp a fr vm = Some (true, fr1, vm1) ->
  (b = true -> forall id c, tail_chunk (_cont_tail fr) vm = Some (id, c) ->
               sp c = stack_size c) ->
  exists id c0 c',
    continuation_tail vm1 = Some id /\ heap vm1 !! id = Some c' /\
    stack_size c' - sp c' = cont_size frame_sp vm /\
    argsize c' = entry_argsize (entry vm) /\ parent c' = parent c0 /\
    words c' =
      <[sp c' + cont_size frame_sp vm - entry_argsize (entry vm)
        - sender_sp_ret_address_offset := pc c0]>
        (copy_words (stack (thread vm)) (cont_stack_top frame_sp - metadata_words) (words c0)
           (sp c' - metadata_words) (cont_size frame_sp vm + metadata_words)) /\
    stack (thread vm1) = stack (thread vm) /\ entry vm1 = entry vm.
Proof.
  intros Hf Hemp. unfold freeze_fast in Hf.
  destruct b.
  - destruct (tail_chunk (_cont_tail fr) vm) as [[id c0]|] eqn:Ht; [|discriminate].
    destruct (tail_chunk_Some _ _ _ _ Ht) as [Htl Hh].
    specialize (Hemp eq_refl _ _ eq_refl).
    rewrite bool_decide_eq_false_2 in Hf by lia. injection Hf as <- <-.
    match goal with |- context [freeze_fast_copy ?f ?i ?c ?s ?r ?v] =>
      destruct (freeze_fast_copy_chunk f i c0 c s r v Hh)
        as (c' & Hl & Hsp & _ & Harg & Hss & Hp & _ & _ & Hw & Hct & Hst & He & _)
    end.
    cbn [argsize stack_size parent words pc set_argsize set_max_size] in Harg, Hss, Hp, Hw.
    exists id, c0, c'. split; [congruence|]. split; [exact Hl|].
    split; [lia|]. split; [exact Harg|]. split; [exact Hp|].
    split; [|split; assumption].
    rewrite Hw. f_equal; [lia|]. f_equal. lia.
  - match type of Hf with context [allocate_chunk ?sz a fr vm] =>
      pose proof (allocate_chunk_Some sz a fr vm) as HS;
      destruct (allocate_chunk sz a fr vm) as [[[i|] f1] v1]
    end; [|discriminate].
    destruct (HS _ _ _ eq_refl)
      as (-> & Ht & _ & (c0 & Hheap & _ & He0 & _ & Hsz & _) & Hen & Hstk).
    destruct (negb (cont_fastpath (thread v1)) || _barriers f1); [discriminate|].
    assert (Hl0 : heap v1 !! length (heap vm) = Some c0).
    { rewrite Hheap, lookup_app_r by lia. rewrite Nat.sub_diag. reflexivity. }
    rewrite Hl0 in Hf. injection Hf as <- <-.
    match goal with |- context [freeze_fast_copy ?f ?i ?c ?s ?r ?v] =>
      destruct (freeze_fast_copy_chunk f i c0 c s r v Hl0)
        as (c' & Hl & Hsp & _ & Harg & Hss & Hp & _ & _ & Hw & Hct & Hst & He & _)
    end.
    cbn [argsize stack_size parent words pc set_argsize set_max_size] in Harg, Hss, Hp, Hw.
    assert (Hcs : cont_size frame_sp v1 = cont_size frame_sp vm)
      by (unfold cont_size, cont_stack_bottom; rewrite Hen; reflexivity).
    rewrite Hcs in Hsp, Hw. rewrite Hen in Hw. rewrite Hstk in Hw.
    exists (length (heap vm)), c0, c'. split; [congruence|]. split; [exact Hl|].
    split; [lia|]. split; [exact Harg|]. split; [exact Hp|].
    split; [|split; congruence].
    rewrite Hw. f_equal; [lia|]. f_equal. lia.
Qed.

(** X4. Round trip.  A fast freeze that starts from an empty tail chunk or
    from a fresh chunk, followed by a fast thaw of the frozen frames (fewer
    than 500 words, so the whole chunk), puts the frames back where they
    were: the thaw returns the stack pointer the frames had, every word of
    the native stack is what it was before the freeze except the return-pc
    slot of the bottom frame, which holds the entry's pc when the chunk has
    no parent and the return barrier otherwise, and the chunk is empty
    again.  The entry and the frames are aligned as the platform aligns
    them. *)
Theorem freeze_thaw_round_trip b frame_sp a fr vm fr1 vm1 :
  freeze_fast b frame_sp a fr vm = Some (true, fr1, vm1) ->
  (b = true -> forall id c, tail_chunk (_cont_tail fr) vm = Some (id, c) ->
               sp c = stack_size c) ->
  cont_size frame_sp vm < 500 ->
  frame_align_pointer (entry_sp (entry vm) - cont_size frame_sp vm) = cont_stack_top frame_sp ->
  frame_align_pointer (entry_sp (entry vm) - entry_argsize (entry vm))
    = cont_stack_bottom vm - entry_argsize (entry vm) ->
  exists id c' c'',
    continuation_tail vm1 = Some id /\ heap vm1 !! id = Some c' /\
    (thaw_fast id c' vm1).1 = cont_stack_top frame_sp /\
    (forall a,
       a <> cont_stack_bottom vm - entry_argsize (entry vm) - sender_sp_ret_address_offset ->
       stack (thread (thaw_fast id c' vm1).2) a = stack (thread vm) a) /\
    stack (thread (thaw_fast id c' vm1).2)
      (cont_stack_bottom vm - entry_argsize (entry vm) - sender_sp_ret_address_offset)
      = (if bool_decide (parent c' = None) then entry_pc (entry vm) else cont_returnBarrier) /\
    heap (thaw_fast id c' vm1).2 !! id = Some c'' /\
    sp c'' = stack_size c'' /\ argsize c'' = 0 /\ max_size c'' = 0.
Proof.
  intros Hf Hemp Hsmall H1 H2.
  destruct (freeze_fast_from_empty _ _ _ _ _ _ _ Hf Hemp)
    as (id & c0 & c' & Htl & Hl & Hfull & Harg & _ & Hw & Hstk & Hen).
  exists id, c'. unfold thaw_fast.
  change (negb TEST_THAW_ONE_CHUNK_FRAME) with true. cbn [andb].
  rewrite bool_decide_eq_true_2 by (unfold threshold; lia).
  eexists. split; [exact Htl|]. split; [exact Hl|].
  cbn [fst snd entry store_chunk with_heap]. rewrite Hen, Hfull, Harg, H1, H2.
  split; [reflexivity|].
  assert (Hb : cont_stack_bottom vm = cont_stack_top frame_sp + cont_size frame_sp vm)
    by (unfold cont_size; lia).
  split; [|split].
  - intros x Hx. unfold patch_return, modify_stack, copy_from_chunk. cbn.
    rewrite fn_lookup_insert_ne by (intros E; apply Hx; symmetry; exact E).
    rewrite Hstk.
    destruct (decide (cont_stack_top frame_sp - metadata_words <= x
                      < cont_stack_top frame_sp - metadata_words
                        + (cont_size frame_sp vm + metadata_words))) as [Hin|Hout].
    + rewrite copy_words_inside by exact Hin. rewrite Hw.
      rewrite fn_lookup_insert_ne by lia.
      rewrite copy_words_inside by lia. f_equal. lia.
    + rewrite copy_words_outside by exact Hout. reflexivity.
  - unfold patch_return, modify_stack, copy_from_chunk. cbn.
    rewrite fn_lookup_insert. rewrite Hen.
    destruct (bool_decide (parent c' = None)); reflexivity.
  - split; [cbn; apply list_lookup_insert_eq; eapply lookup_lt_Some; eauto|].
    cbn. repeat split.
Qed.

(** *** The result codes of freeze *)

Lemma allocate_chunk_pending size a fr vm o fr1 vm1 :
  allocate_chunk size a fr vm = (o, fr1, vm1) ->
  _preempt fr1 = _preempt fr /\
  match o with
  | Some _ => has_pending_exception (thread vm1) = has_pending_exception (thread vm)
  | None => _preempt fr = false -> has_pending_exception (thread vm1) = true
  end.
Proof.
  unfold allocate_chunk. destruct (_ && _).
  - intros [= <- <- <-]. split; [reflexivity|]. intros ->. reflexivity.
  - destruct a; intros [= <- <- <-]; split; reflexivity.
Qed.

Lemma finalize_freeze_pending callee argsz a fr vm :
  walk_pending fr vm (finalize_freeze callee argsz a fr vm).
Proof.
  intros res caller fr' vm' Hf. unfold finalize_freeze in Hf.
  cbn [_size set_size _barriers _cont_tail _preempt] in Hf.
  match type of Hf with context [allocate_chunk ?sz a ?f vm] =>
    pose proof (allocate_chunk_pending sz a f vm) as HA;
    destruct (allocate_chunk sz a f vm) as [[o f1] v1]
  end.
  destruct (HA _ _ _ eq_refl) as [Hp Hx]. clear HA. cbn [_preempt set_size] in Hp, Hx.
  destruct o as [i|].
  - destruct (heap v1 !! i);
      repeat match type of Hf with
             | context [match ?t with Some _ => _ | None => _ end] => destruct t as [[? ?]|]
             | context [if ?b then _ else _] => destruct b
             end;
      try discriminate Hf; injection Hf as <- <- <- <-;
      (split; [first [exact Hp | reflexivity]|]);
      (split; [discriminate|]); intros _; first [exact Hx | reflexivity].
  - repeat match type of Hf with
           | context [match ?t with Some _ => _ | None => _ end] => destruct t as [[? ?]|]
           | context [if ?b then _ else _] => destruct b
           end;
      try discriminate Hf; injection Hf as <- <- <- <-;
      (split; [first [exact Hp | reflexivity]|]);
      first [ split; [intros _; exact Hx | intros E; contradiction]
            | split; [discriminate | intros _; reflexivity] ].
Qed.

Lemma modify_tail_words_thread g fr vm vm' :
  modify_tail_words g fr vm = Some vm' -> thread vm' = thread vm.
Proof. intros Hm. destruct (modify_tail_words_post _ _ _ _ Hm) as (_ & _ & Ht & _). exact Ht. Qed.

Lemma freeze_patch_thread f hf caller bottom fr vm vm' :
  freeze_patch f hf caller bottom fr vm = Some vm' -> thread vm' = thread vm.
Proof.
  unfold freeze_patch. intros Hp.
  destruct (if bottom then _ else _) as [vm1|] eqn:E1; [|discriminate].
  cbn [mbind option_bind] in Hp.
  destruct (modify_tail_words (patch_pd hf caller) fr vm1) as [vm2|] eqn:E2; [|discriminate].
  cbn [mbind option_bind] in Hp.
  assert (H1 : thread vm1 = thread vm).
  { destruct bottom; [eapply modify_tail_words_thread; eauto | congruence]. }
  assert (H2 : thread vm2 = thread vm1) by (eapply modify_tail_words_thread; eauto).
  destruct (decide (kind f = InterpretedFrame)).
  - apply modify_tail_words_thread in Hp. congruence.
  - injection Hp as <-. congruence.
Qed.

Lemma walk_pending_written fr vm result caller fr1 vm1 hf fr2 vm2 :
  walk_pending fr vm (Some (result, caller, fr1, vm1)) -> gt_ok_bottom result = false ->
  _preempt fr2 = _preempt fr1 -> thread vm2 = thread vm1 ->
  walk_pending fr vm (Some (freeze_ok, hf, fr2, vm2)).
Proof.
  intros Hr Hg Hp Ht res c' fr' vm' [= <- <- <- <-].
  destruct (Hr _ _ _ _ eq_refl) as (Hp1 & _ & Hk).
  split; [congruence|]. split; [discriminate|]. intros _.
  rewrite Ht. apply Hk. intros ->. discriminate Hg.
Qed.

Lemma walk_pending_size fr vm w n :
  walk_pending (set_size n fr) vm w -> walk_pending fr vm w.
Proof. intros H. exact H. Qed.

Lemma recurse_freeze_java_frame_pending interpreted f fsize argsz callee a freeze_sender fr vm :
  (forall ca ci fr1, _preempt fr1 = _preempt fr -> walk_pending fr vm (freeze_sender ca ci fr1 vm)) ->
  walk_pending fr vm
    (recurse_freeze_java_frame interpreted f fsize argsz (finalize_freeze callee argsz a)
       freeze_sender fr vm).
Proof.
  intros Hs. unfold recurse_freeze_java_frame.
  destruct (bool_decide _); [|apply Hs; reflexivity].
  apply (walk_pending_size fr vm _ (_size fr + fsize)). apply finalize_freeze_pending.
Qed.

Lemma recurse_freeze_compiled_frame_pending f ca ci a freeze_sender fr vm :
  (forall ca ci fr1, _preempt fr1 = _preempt fr -> walk_pending fr vm (freeze_sender ca ci fr1 vm)) ->
  walk_pending fr vm (recurse_freeze_compiled_frame f ca ci a freeze_sender fr vm).
Proof.
  intros Hs. unfold recurse_freeze_compiled_frame.
  pose proof (recurse_freeze_java_frame_pending false f
                (frame_bottom f + stack_argsize f - frame_top f ca ci) (stack_argsize f)
                f a freeze_sender fr vm Hs) as Hr.
  destruct (recurse_freeze_java_frame _ _ _ _ _ _ _ _) as [[[[result caller] fr1] vm1]|];
    [|intros ? ? ? ?; discriminate].
  cbn [mbind option_bind].
  destruct (gt_ok_bottom result) eqn:Hg; [exact Hr|].
  destruct (new_heap_frame f caller) as [hf caller_sp].
  destruct (copy_to_chunk _ _ _ fr1 vm1) as [vm2|] eqn:Ec; [|intros ? ? ? ?; discriminate].
  cbn [mbind option_bind].
  match goal with |- context [freeze_patch ?f ?h ?c ?b ?r ?v] =>
    destruct (freeze_patch f h c b r v) as [vm3|] eqn:Ep
  end; [|intros ? ? ? ?; discriminate].
  cbn [mbind option_bind].
  eapply walk_pending_written; [exact Hr | exact Hg | |].
  - destruct (h_interpreted _); reflexivity.
  - apply freeze_patch_thread in Ep. apply modify_tail_words_thread in Ec. congruence.
Qed.

Lemma recurse_freeze_interpreted_frame_pending f ca ci a freeze_sender fr vm :
  (forall ca ci fr1, _preempt fr1 = _preempt fr -> walk_pending fr vm (freeze_sender ca ci fr1 vm)) ->
  walk_pending fr vm (recurse_freeze_interpreted_frame f ca ci a freeze_sender fr vm).
Proof.
  intros Hs. unfold recurse_freeze_interpreted_frame.
  match goal with |- context [recurse_freeze_java_frame ?i ?g ?s ?z (finalize_freeze ?g' _ _) _ _ _] =>
    pose proof (recurse_freeze_java_frame_pending i g s z g' a freeze_sender fr vm Hs) as Hr
  end.
  destruct (recurse_freeze_java_frame _ _ _ _ _ _ _ _) as [[[[result caller] fr1] vm1]|];
    [|intros ? ? ? ?; discriminate].
  cbn [mbind option_bind].
  destruct (gt_ok_bottom result) eqn:Hg; [exact Hr|].
  destruct (new_heap_frame _ caller) as [hf caller_sp].
  set (fr2 := set_align_size _ fr1).
  destruct (copy_to_chunk _ _ _ fr2 vm1) as [vm2|] eqn:Ec; [|intros ? ? ? ?; discriminate].
  cbn [mbind option_bind].
  destruct (copy_to_chunk _ _ _ fr2 vm2) as [vm3|] eqn:Ec'; [|intros ? ? ? ?; discriminate].
  cbn [mbind option_bind].
  destruct (modify_tail_words _ fr2 vm3) as [vm4|] eqn:Er; [|intros ? ? ? ?; discriminate].
  cbn [mbind option_bind].
  destruct (freeze_patch _ _ _ _ fr2 vm4) as [vm5|] eqn:Ep; [|intros ? ? ? ?; discriminate].
  cbn [mbind option_bind].
  eapply walk_pending_written; [exact Hr | exact Hg | reflexivity |].
  apply freeze_patch_thread in Ep. apply modify_tail_words_thread in Ec, Ec', Er. congruence.
Qed.

Lemma walk_pending_leaf fr vm r c :
  r <> freeze_exception -> walk_pending fr vm (Some (r, c, fr, vm)).
Proof.
  intros Hr res c' fr' vm' [= <- <- <- <-].
  split; [reflexivity|]. split; [intros E; contradiction | reflexivity].
Qed.

Lemma recurse_freeze_stub_frame_pending f senderf a freeze_sender fr vm :
  (forall ca ci fr1, _preempt fr1 = _preempt fr -> walk_pending fr vm (freeze_sender ca ci fr1 vm)) ->
  walk_pending fr vm (recurse_freeze_stub_frame f senderf a freeze_sender fr vm).
Proof.
  intros Hs. unfold recurse_freeze_stub_frame.
  destruct (negb (oop_map senderf)).
  { apply (walk_pending_size fr vm _ (_size fr + cb_frame_size f)).
    apply walk_pending_leaf. discriminate. }
  destruct (is_owning_locks senderf).
  { apply (walk_pending_size fr vm _ (_size fr + cb_frame_size f)).
    apply walk_pending_leaf. discriminate. }
  match goal with |- context [recurse_freeze_compiled_frame ?g ?x ?y ?a ?snd ?r ?v] =>
    pose proof (recurse_freeze_compiled_frame_pending g x y a snd r v) as Hr;
    destruct (recurse_freeze_compiled_frame g x y a snd r v) as [[[[result caller] fr1] vm1]|]
  end; [|intros ? ? ? ?; discriminate].
  assert (Hr' : walk_pending fr vm (Some (result, caller, fr1, vm1))).
  { apply (walk_pending_size fr vm _ (_size fr + cb_frame_size f)). apply Hr.
    intros ca ci fr2 Hp. apply (walk_pending_size fr vm _ (_size fr + cb_frame_size f)).
    apply Hs. exact Hp. }
  cbn [mbind option_bind].
  destruct (gt_ok_bottom result) eqn:Hg; [exact Hr'|].
  destruct (new_heap_frame f caller) as [hf caller_sp].
  destruct (copy_to_chunk _ _ _ fr1 vm1) as [vm2|] eqn:Ec; [|intros ? ? ? ?; discriminate].
  cbn [mbind option_bind].
  eapply walk_pending_written; [exact Hr' | exact Hg | reflexivity |].
  apply modify_tail_words_thread in Ec. exact Ec.
Qed.

Lemma freeze_walk_pending frames :
  forall depth csp a ca ci top fr vm,
    walk_pending fr vm (freeze frames depth csp a ca ci top fr vm).
Proof.
  induction frames as [frames IH] using (induction_ltof1 _ (@length frame)).
  unfold ltof in IH.
  intros depth csp a ca ci top fr vm.
  destruct frames as [|f senders]; [intros ? ? ? ?; discriminate|].
  cbn [freeze]. unfold stack_overflow.
  destruct (bool_decide (csp depth < stack_overflow_limit (thread vm))).
  { intros res c' fr' vm' [= <- <- <- <-].
    split; [reflexivity|]. split; [intros _ ->; reflexivity | intros E; contradiction]. }
  assert (Hs : forall ca ci fr1, _preempt fr1 = _preempt fr ->
             walk_pending fr vm (freeze senders (S depth) csp a ca ci false fr1 vm)).
  { intros ca' ci' fr1 Hp res c' fr' vm' E.
    destruct (IH senders ltac:(cbn; lia) (S depth) csp a ca' ci' false fr1 vm _ _ _ _ E)
      as (A1 & A2 & A3).
    rewrite Hp in A1, A2. auto. }
  destruct (kind f).
  - destruct (negb (oop_map f)); [apply walk_pending_leaf; discriminate|].
    destruct (is_owning_locks f); [apply walk_pending_leaf; discriminate|].
    apply recurse_freeze_compiled_frame_pending. exact Hs.
  - destruct (is_owning_locks f); [apply walk_pending_leaf; discriminate|].
    destruct (_preempt fr && top && is_native f); [apply walk_pending_leaf; discriminate|].
    apply recurse_freeze_interpreted_frame_pending. exact Hs.
  - destruct (_preempt fr && top).
    + destruct senders as [|senderf senders']; [intros ? ? ? ?; discriminate|].
      apply recurse_freeze_stub_frame_pending.
      intros ca' ci' fr1 Hp res c' fr' vm' E.
      destruct (IH senders' ltac:(cbn; lia) (S depth) csp a ca' ci' false fr1 vm _ _ _ _ E)
        as (A1 & A2 & A3).
      rewrite Hp in A1, A2. auto.
    + apply walk_pending_leaf. discriminate.
  - apply walk_pending_leaf. discriminate.
Qed.

Lemma freeze_slow_pending frames csp a fr vm res fr' vm' :
  freeze_slow frames csp a fr vm = Some (res, fr', vm') ->
  res <> freeze_ok_bottom /\
  (res = freeze_exception -> _preempt fr = false ->
     has_pending_exception (thread vm') = true) /\
  (res <> freeze_exception ->
     has_pending_exception (thread vm') = has_pending_exception (thread vm)).
Proof.
  unfold freeze_slow.
  match goal with |- context [freeze ?fs ?d ?c ?a ?x ?y ?t ?r ?v] =>
    pose proof (freeze_walk_pending fs d c a x y t r v) as Hw;
    pose proof (freeze_not_bottom fs d c a x y t r v) as Hb;
    destruct (freeze fs d c a x y t r v) as [[[[r0 caller] fr1] vm1]|]
  end; [|discriminate].
  cbn [mbind option_bind].
  destruct (Hw _ _ _ _ eq_refl) as (_ & He & Hk). specialize (Hb _ _ _ _ eq_refl).
  cbn [_preempt set_align_size set_size] in He.
  destruct (decide (r0 = freeze_ok)) as [->|Hne].
  - unfold finish_freeze. destruct (tail_chunk (_cont_tail fr1) vm1) as [[id c]|];
      [|discriminate].
    cbn [mbind option_bind]. intros [= <- <- <-].
    split; [discriminate|]. split; [discriminate|]. intros _. apply Hk. discriminate.
  - intros [= <- <- <-]. auto.
Qed.

Lemma freeze_fast_pending b frame_sp a fr vm ok fr1 vm1 :
  freeze_fast b frame_sp a fr vm = Some (ok, fr1, vm1) ->
  _preempt fr1 = _preempt fr /\
  (ok = true -> has_pending_exception (thread vm1) = has_pending_exception (thread vm)) /\
  (ok = false ->
     has_pending_exception (thread vm1) = has_pending_exception (thread vm) \/
     (_preempt fr = false -> has_pending_exception (thread vm1) = true)).
Proof.
  unfold freeze_fast. destruct b.
  - destruct (tail_chunk _ _) as [[id c]|]; [|discriminate].
    destruct (bool_decide _); intros [= <- <- <-];
      (split; [reflexivity|]); (split; [intros _; reflexivity | discriminate]).
  - match goal with |- context [allocate_chunk ?sz a fr vm] =>
      pose proof (allocate_chunk_pending sz a fr vm) as HA;
      destruct (allocate_chunk sz a fr vm) as [[o f1] v1]
    end.
    destruct (HA _ _ _ eq_refl) as [Hp Hx]. destruct o as [i|].
    + destruct (negb (cont_fastpath (thread v1)) || _barriers f1).
      * intros [= <- <- <-]. split; [exact Hp|]. split; [discriminate | auto].
      * destruct (heap v1 !! i); [|discriminate]. intros [= <- <- <-].
        split; [exact Hp|]. split; [intros _; exact Hx | discriminate].
    + intros [= <- <- <-]. split; [exact Hp|]. split; [discriminate | auto].
Qed.

(** X5. The code [freeze_internal] returns is one of the public codes,
    never the walk's own [freeze_ok_bottom], and it is [freeze_exception]
    exactly when the call leaves a Java exception pending: a
    StackOverflowError from the recursion check or from a humongous chunk,
    or the allocator's OutOfMemoryError.  No exception is pending at the
    call, as the function asserts. *)
Theorem freeze_exception_iff_pending frame_sp frames csp a a' vm res vm' :
  has_pending_exception (thread vm) = false ->
  freeze_internal frame_sp frames csp a a' vm = Some (res, vm') ->
  res <> freeze_ok_bottom /\
  (res = freeze_exception <-> has_pending_exception (thread vm') = true).
Proof.
  intros Hno. unfold freeze_internal.
  destruct (entry_is_pinned (entry vm)).
  { intros [= <- <-]. split; [discriminate|]. rewrite Hno. split; discriminate. }
  assert (Hslow : forall a0 fr0 vm0 r f v,
            _preempt fr0 = false -> has_pending_exception (thread vm0) = false ->
            freeze_slow frames csp a0 fr0 vm0 = Some (r, f, v) ->
            r <> freeze_ok_bottom /\
            (r = freeze_exception <-> has_pending_exception (thread v) = true)).
  { intros a0 fr0 vm0 r f v Hp H0 Hs.
    destruct (freeze_slow_pending _ _ _ _ _ _ _ _ Hs) as (Hb & He & Hk).
    split; [exact Hb|]. split; [intros E; apply He; assumption|].
    intros Hpend. destruct (decide (r = freeze_exception)) as [E|E]; [exact E|].
    rewrite (Hk E), H0 in Hpend. discriminate. }
  destruct (can_freeze_fast (thread vm)); cbn [andb].
  - unfold try_freeze_fast.
    destruct (is_chunk_available_for_fast_freeze _ _ _).
    + destruct (freeze_fast true _ _ _ _) as [[[ok fr1] vm1]|] eqn:Eff; [|discriminate].
      pose proof (freeze_fast_true_ok _ _ _ _ _ _ _ Eff) as ->.
      destruct (freeze_fast_pending _ _ _ _ _ _ _ _ Eff) as (_ & Hk & _).
      cbn [mbind option_bind]. intros [= <- <-].
      split; [discriminate|]. rewrite (Hk eq_refl), Hno. split; discriminate.
    + destruct (freeze_fast false _ _ _ _) as [[[ok fr1] vm1]|] eqn:Eff; [|discriminate].
      destruct (freeze_fast_pending _ _ _ _ _ _ _ _ Eff) as (Hp & Hk & _).
      cbn [mbind option_bind]. destruct ok.
      { cbn [mbind option_bind]. intros [= <- <-].
        split; [discriminate|]. rewrite (Hk eq_refl), Hno. split; discriminate. }
      destruct (has_pending_exception (thread vm1)) eqn:Hpend.
      { cbn [mbind option_bind]. intros [= <- <-]. split; [discriminate|]. tauto. }
      destruct (freeze_slow frames csp a' fr1 vm1) as [[[r f] v]|] eqn:Es; [|discriminate].
      cbn [mbind option_bind]. intros [= <- <-].
      eapply Hslow; [| exact Hpend | exact Es]. rewrite Hp. reflexivity.
  - destruct (freeze_slow frames csp a _ vm) as [[[r f] v]|] eqn:Es; [|discriminate].
    cbn [mbind option_bind]. intros [= <- <-].
    eapply Hslow; [| exact Hno | exact Es]. reflexivity.
Qed.

(** *** The pin codes of the walk *)

Lemma finalize_freeze_code fp callee argsz a fr vm :
  walk_code fp (finalize_freeze callee argsz a fr vm).
Proof.
  intros res caller fr' vm'. unfold finalize_freeze.
  match goal with |- match ?p with _ => _ end = _ -> _ => destruct p as [[[[[id c] f1] v1]|]|[f1 v1]] end;
    [intros [= <- <- <- <-]; auto | discriminate | intros [= <- <- <- <-]; auto].
Qed.

Lemma recurse_freeze_java_frame_code fp interpreted f fsize argsz callee a freeze_sender fr vm :
  (bool_decide (_bottom_address fr - 1 <= frame_bottom f) = false ->
   forall ca ci fr1, _preempt fr1 = _preempt fr -> _bottom_address fr1 = _bottom_address fr ->
     walk_code fp (freeze_sender ca ci fr1 vm)) ->
  walk_code fp
    (recurse_freeze_java_frame interpreted f fsize argsz (finalize_freeze callee argsz a)
       freeze_sender fr vm).
Proof.
  intros Hs. unfold recurse_freeze_java_frame. cbn [_bottom_address set_size].
  destruct (bool_decide _); [apply finalize_freeze_code | apply Hs; reflexivity].
Qed.

Lemma recurse_freeze_compiled_frame_code fp f ca ci a freeze_sender fr vm :
  (bool_decide (_bottom_address fr - 1 <= frame_bottom f) = false ->
   forall ca ci fr1, _preempt fr1 = _preempt fr -> _bottom_address fr1 = _bottom_address fr ->
     walk_code fp (freeze_sender ca ci fr1 vm)) ->
  walk_code fp (recurse_freeze_compiled_frame f ca ci a freeze_sender fr vm).
Proof.
  intros Hs. unfold recurse_freeze_compiled_frame.
  pose proof (recurse_freeze_java_frame_code fp false f
                (frame_bottom f + stack_argsize f - frame_top f ca ci) (stack_argsize f)
                f a freeze_sender fr vm Hs) as Hr.
  destruct (recurse_freeze_java_frame _ _ _ _ _ _ _ _) as [[[[result caller] fr1] vm1]|];
    [|intros ? ? ? ?; discriminate].
  cbn [mbind option_bind].
  destruct (gt_ok_bottom result) eqn:Hg; [exact Hr|].
  destruct (new_heap_frame f caller) as [hf caller_sp].
  destruct (copy_to_chunk _ _ _ fr1 vm1) as [vm2|]; [|intros ? ? ? ?; discriminate].
  cbn [mbind option_bind].
  match goal with |- context [freeze_patch ?f ?h ?c ?b ?r ?v] =>
    destruct (freeze_patch f h c b r v) as [vm3|]
  end; [|intros ? ? ? ?; discriminate].
  intros res c' fr' vm' [= <- <- <- <-]. auto.
Qed.

Lemma recurse_freeze_interpreted_frame_code fp f ca ci a freeze_sender fr vm :
  (bool_decide (_bottom_address fr - 1
                <= frame_bottom (adjust_interpreted_frame_unextended_sp f)) = false ->
   forall ca ci fr1, _preempt fr1 = _preempt fr -> _bottom_address fr1 = _bottom_address fr ->
     walk_code fp (freeze_sender ca ci fr1 vm)) ->
  walk_code fp (recurse_freeze_interpreted_frame f ca ci a freeze_sender fr vm).
Proof.
  intros Hs. unfold recurse_freeze_interpreted_frame.
  match goal with |- context [recurse_freeze_java_frame ?i ?g ?s ?z (finalize_freeze ?g' _ _) _ _ _] =>
    pose proof (recurse_freeze_java_frame_code fp i g s z g' a freeze_sender fr vm Hs) as Hr
  end.
  destruct (recurse_freeze_java_frame _ _ _ _ _ _ _ _) as [[[[result caller] fr1] vm1]|];
    [|intros ? ? ? ?; discriminate].
  cbn [mbind option_bind].
  destruct (gt_ok_bottom result) eqn:Hg; [exact Hr|].
  destruct (new_heap_frame _ caller) as [hf caller_sp].
  set (fr2 := set_align_size _ fr1).
  destruct (copy_to_chunk _ _ _ fr2 vm1) as [vm2|]; [|intros ? ? ? ?; discriminate].
  cbn [mbind option_bind].
  destruct (copy_to_chunk _ _ _ fr2 vm2) as [vm3|]; [|intros ? ? ? ?; discriminate].
  cbn [mbind option_bind].
  destruct (modify_tail_words _ fr2 vm3) as [vm4|]; [|intros ? ? ? ?; discriminate].
  cbn [mbind option_bind].
  destruct (freeze_patch _ _ _ _ fr2 vm4) as [vm5|]; [|intros ? ? ? ?; discriminate].
  intros res c' fr' vm' [= <- <- <- <-]. auto.
Qed.

Lemma walk_code_leaf r c fr vm : walk_code (Some r) (Some (r, c, fr, vm)).
Proof. intros res c' fr' vm' [= <- <- <- <-]. auto. Qed.

Lemma freeze_walk_code frames :
  forall depth csp a ca ci top fr vm,
    match frames with
    | s :: c :: _ =>
        _preempt fr && top = true -> kind s = StubFrame -> kind c = CompiledFrame
    | _ => True
    end ->
    walk_code (first_pinned (_preempt fr) top (_bottom_address fr) frames)
      (freeze frames depth csp a ca ci top fr vm).
Proof.
  induction frames as [frames IH] using (induction_ltof1 _ (@length frame)).
  unfold ltof in IH.
  intros depth csp a ca ci top fr vm Hstub.
  destruct frames as [|f senders]; [intros ? ? ? ?; discriminate|].
  cbn [freeze first_pinned]. unfold stack_overflow.
  destruct (bool_decide (csp depth < stack_overflow_limit (thread vm))).
  { intros res c' fr' vm' [= <- <- <- <-]. auto. }
  assert (Hs : forall ca ci fr1,
             _preempt fr1 = _preempt fr -> _bottom_address fr1 = _bottom_address fr ->
             walk_code (first_pinned (_preempt fr) false (_bottom_address fr) senders)
               (freeze senders (S depth) csp a ca ci false fr1 vm)).
  { intros ca' ci' fr1 H1 H2. rewrite <- H1, <- H2. apply IH; [cbn; lia|].
    destruct senders as [|? [|? ?]]; try exact I.
    rewrite andb_false_r. discriminate. }
  unfold pin_code, reaches_bottom.
  destruct (kind f) eqn:Hk.
  - destruct (negb (oop_map f)); [apply walk_code_leaf|].
    destruct (is_owning_locks f); [apply walk_code_leaf|].
    destruct (decide (CompiledFrame = StubFrame)); [discriminate|].
    destruct (decide (CompiledFrame = InterpretedFrame)); [discriminate|].
    apply recurse_freeze_compiled_frame_code. intros ->. exact Hs.
  - destruct (is_owning_locks f); [apply walk_code_leaf|].
    destruct (_preempt fr && top && is_native f); [apply walk_code_leaf|].
    destruct (decide (InterpretedFrame = StubFrame)); [discriminate|].
    destruct (decide (InterpretedFrame = InterpretedFrame)); [|contradiction].
    apply recurse_freeze_interpreted_frame_code. intros ->. exact Hs.
  - destruct (_preempt fr && top) eqn:Hpt; [|apply walk_code_leaf].
    destruct (decide (StubFrame = StubFrame)); [|contradiction].
    destruct senders as [|senderf senders']; [intros ? ? ? ?; discriminate|].
    specialize (Hstub eq_refl eq_refl).
    cbn [first_pinned]. unfold pin_code, reaches_bottom. rewrite Hstub.
    unfold recurse_freeze_stub_frame.
    destruct (negb (oop_map senderf)); [apply walk_code_leaf|].
    destruct (is_owning_locks senderf); [apply walk_code_leaf|].
    destruct (decide (CompiledFrame = StubFrame)); [discriminate|].
    destruct (decide (CompiledFrame = InterpretedFrame)); [discriminate|].
    match goal with |- context [recurse_freeze_compiled_frame ?g ?x ?y ?a ?snd ?r ?v] =>
      pose proof (recurse_freeze_compiled_frame_code
                    (if bool_decide (_bottom_address fr - 1 <= frame_bottom g) then None
                     else first_pinned (_preempt fr) false (_bottom_address fr) senders')
                    g x y a snd r v) as Hr;
      destruct (recurse_freeze_compiled_frame g x y a snd r v) as [[[[result caller] fr1] vm1]|]
    end; [|intros ? ? ? ?; discriminate].
    cbn [mbind option_bind].
    destruct (gt_ok_bottom result) eqn:Hg.
    + apply Hr. cbn [_bottom_address _preempt set_size]. intros ->.
      intros ca' ci' fr2 H1 H2. rewrite <- H1, <- H2. apply IH; [cbn; lia|].
      destruct senders' as [|? [|? ?]]; try exact I.
      rewrite andb_false_r. discriminate.
    + destruct (new_heap_frame f caller) as [hf caller_sp].
      destruct (copy_to_chunk _ _ _ fr1 vm1) as [vm2|]; [|intros ? ? ? ?; discriminate].
      intros res c' fr' vm' [= <- <- <- <-]. auto.
  - apply walk_code_leaf.
Qed.

(** X6. The walk of the slow path ends in one of three ways: it succeeds,
    it fails with an exception, or it returns the pin code of the first
    pinned frame between the top frame and the bottom of the continuation.
    So a continuation none of whose frames is pinned is never reported as
    pinned.  The caller of the safepoint stub on top of a forced preemption
    is a compiled frame. *)
Theorem freeze_pin_code_is_first_pinned frames :
  forall depth csp a ca ci top fr vm r caller fr' vm',
    match frames with
    | s :: c :: _ =>
        _preempt fr && top = true -> kind s = StubFrame -> kind c = CompiledFrame
    | _ => True
    end ->
    freeze frames depth csp a ca ci top fr vm = Some (r, caller, fr', vm') ->
    r = freeze_ok \/ r = freeze_exception \/
    first_pinned (_preempt fr) top (_bottom_address fr) frames = Some r.
Proof.
  intros depth csp a ca ci top fr vm r caller fr' vm' Hstub E.
  pose proof (freeze_not_bottom frames depth csp a ca ci top fr vm _ _ _ _ E) as Hb.
  destruct (freeze_walk_code frames depth csp a ca ci top fr vm Hstub _ _ _ _ E)
    as [?|[?|[?|?]]]; auto.
  contradiction.
Qed.

(** *** The pinning query and the freeze *)

Lemma first_pinned_approved top b frames r :
  Forall (fun f => is_pinned f = freeze_ok /\ (kind f = CompiledFrame -> oop_map f = true))
    frames ->
  first_pinned false top b frames = Some r -> False.
Proof.
  intros Hall. revert top. induction Hall as [|f senders [Hf Ho] _ IH]; intros top;
    [discriminate|].
  cbn [first_pinned]. unfold pin_code, is_pinned in *.
  destruct (kind f) eqn:Hk.
  - rewrite (Ho eq_refl). cbn [negb].
    destruct (is_owning_locks f); [discriminate|].
    destruct (decide _); [apply IH|]. destruct (reaches_bottom b f); [discriminate | apply IH].
  - destruct (is_owning_locks f); [discriminate|]. cbn [andb].
    destruct (decide _); [apply IH|]. destruct (reaches_bottom b f); [discriminate | apply IH].
  - discriminate.
  - discriminate.
Qed.

(** X7. The query and the freeze agree on frames that do not pin: outside
    a critical section, when [is_pinned] answers [freeze_ok] for every frame
    below the yield stub and the compiled ones have oop maps, a freeze does
    not come back pinned: it succeeds or leaves an exception. *)
Theorem freeze_of_approved_frames frame_sp frames csp a a' vm res vm' :
  entry_is_pinned (entry vm) = false ->
  Forall (fun f => is_pinned f = freeze_ok /\ (kind f = CompiledFrame -> oop_map f = true))
    (tl frames) ->
  freeze_internal frame_sp frames csp a a' vm = Some (res, vm') ->
  res = freeze_ok \/ res = freeze_exception.
Proof.
  intros Hcs Hall. unfold freeze_internal. rewrite Hcs.
  assert (Hslow : forall a0 fr0 vm0 r f v,
            _preempt fr0 = false ->
            freeze_slow frames csp a0 fr0 vm0 = Some (r, f, v) ->
            r = freeze_ok \/ r = freeze_exception).
  { intros a0 fr0 vm0 r f v Hp. unfold freeze_slow.
    assert (Hst : freeze_start_frame frames (set_align_size 0 (set_size 0 fr0)) = tl frames).
    { unfold freeze_start_frame. destruct frames; [reflexivity|].
      cbn [_preempt set_align_size set_size]. rewrite Hp. reflexivity. }
    rewrite Hst.
    match goal with |- context [freeze ?fs ?d ?c ?a ?x ?y ?t ?r ?v] =>
      pose proof (freeze_walk_code fs d c a x y t r v) as Hw;
      pose proof (freeze_not_bottom fs d c a x y t r v) as Hb;
      destruct (freeze fs d c a x y t r v) as [[[[r0 caller] fr1] vm1]|]
    end; [|discriminate].
    cbn [mbind option_bind].
    assert (Hr0 : r0 = freeze_ok \/ r0 = freeze_exception).
    { cbn [_preempt set_align_size set_size] in Hw. rewrite Hp in Hw.
      assert (Hst' : match tl frames with
                     | s :: c :: _ =>
                         false && true = true -> kind s = StubFrame -> kind c = CompiledFrame
                     | _ => True
                     end).
      { destruct (tl frames) as [|? [|? ?]]; try exact I. discriminate. }
      destruct (Hw Hst' _ _ _ _ eq_refl) as [?|[?|[?|Hfp]]]; auto.
      - exfalso. eapply Hb; eauto.
      - exfalso. eapply first_pinned_approved; eauto. }
    destruct (decide (r0 = freeze_ok)) as [->|Hne].
    - destruct (finish_freeze _ _ _); [|discriminate].
      cbn [mbind option_bind]. intros [= <- _ _]. auto.
    - intros [= <- _ _]. exact Hr0. }
  destruct (can_freeze_fast (thread vm)); cbn [andb].
  - unfold try_freeze_fast.
    destruct (is_chunk_available_for_fast_freeze _ _ _).
    + destruct (freeze_fast true _ _ _ _) as [[[ok fr1] vm1]|] eqn:Eff; [|discriminate].
      pose proof (freeze_fast_true_ok _ _ _ _ _ _ _ Eff) as ->.
      cbn [mbind option_bind]. intros [= <- _]. auto.
    + destruct (freeze_fast false _ _ _ _) as [[[ok fr1] vm1]|] eqn:Eff; [|discriminate].
      cbn [mbind option_bind]. destruct ok.
      { cbn [mbind option_bind]. intros [= <- _]. auto. }
      destruct (has_pending_exception (thread vm1)).
      { cbn [mbind option_bind]. intros [= <- _]. auto. }
      destruct (freeze_slow frames csp a' fr1 vm1) as [[[r f] v]|] eqn:Es; [|discriminate].
      cbn [mbind option_bind]. intros [= <- _].
      eapply Hslow; [|exact Es].
      rewrite (freeze_fast_abandoned_preempt _ _ _ _ _ _ Eff). reflexivity.
  - destruct (freeze_slow frames csp a _ vm) as [[[r f] v]|] eqn:Es; [|discriminate].
    cbn [mbind option_bind]. intros [= <- _].
    eapply Hslow; [|exact Es]. reflexivity.
Qed.

(** *** The pinning query across scopes *)

Lemma is_pinned_codes f :
  is_pinned f = freeze_ok \/ is_pinned f = freeze_pinned_native \/
  is_pinned f = freeze_pinned_monitor.
Proof.
  unfold is_pinned. destruct (kind f);
    repeat match goal with |- context [if ?b then _ else _] => destruct b end; auto.
Qed.

Lemma is_pinned0_loop_codes in_cont s frames :
  forall e parents r,
    is_pinned0_loop in_cont s e parents frames = Some r ->
    r = freeze_ok \/ is_pinned_result r = true.
Proof.
  induction frames as [|f senders IH]; intros e parents r; [discriminate|].
  cbn [is_pinned0_loop].
  destruct (bool_decide (is_pinned f <> freeze_ok)).
  { intros [= <-]. destruct (is_pinned_codes f) as [-> | [-> | ->]]; auto. }
  destruct senders as [|f' senders']; [discriminate|].
  destruct (negb (in_cont e.1 f')); [|apply IH].
  destruct (bool_decide (e.2 = s)); [intros [= <-]; auto|].
  destruct parents as [|e' parents']; [intros [= <-]; auto|].
  destruct (entry_is_pinned e'.1); [intros [= <-]; auto | apply IH].
Qed.

Lemma is_pinned0_loop_scope in_cont s1 s2 frames :
  forall e parents r1 r2,
    is_pinned0_loop in_cont s1 e parents frames = Some r1 ->
    is_pinned0_loop in_cont s2 e parents frames = Some r2 ->
    r1 = r2 \/ r1 = freeze_ok \/ r2 = freeze_ok.
Proof.
  induction frames as [|f senders IH]; intros e parents r1 r2; [discriminate|].
  cbn [is_pinned0_loop].
  destruct (bool_decide (is_pinned f <> freeze_ok)).
  { intros [= <-] [= <-]. auto. }
  destruct senders as [|f' senders']; [discriminate|].
  destruct (negb (in_cont e.1 f')); [|apply IH].
  destruct (bool_decide (e.2 = s1)); [intros [= <-] _; auto|].
  destruct (bool_decide (e.2 = s2)); [intros _ [= <-]; auto|].
  destruct parents as [|e' parents']; [intros [= <-] [= <-]; auto|].
  destruct (entry_is_pinned e'.1); [intros [= <-] [= <-]; auto | apply IH].
Qed.

(** X8. The answer of [is_pinned0] is [freeze_ok] or one of the three pin
    codes, and the scope asked about decides only how far the walk looks,
    not what it reports: two queries of the same thread that both find it
    pinned give the same reason. *)
Theorem is_pinned0_reason_any_scope in_cont entries frames s1 s2 safepoint r1 r2 :
  is_pinned0 in_cont entries frames s1 safepoint = Some r1 ->
  is_pinned0 in_cont entries frames s2 safepoint = Some r2 ->
  (r1 = freeze_ok \/ is_pinned_result r1 = true) /\
  (r1 <> freeze_ok -> r2 <> freeze_ok -> r1 = r2).
Proof.
  unfold is_pinned0. destruct entries as [|e parents].
  { intros [= <-] [= <-]. auto. }
  destruct (entry_is_pinned e.1).
  { intros [= <-] [= <-]. auto. }
  intros H1 H2. split; [eapply is_pinned0_loop_codes; exact H1|].
  intros N1 N2.
  destruct (is_pinned0_loop_scope _ _ _ _ _ _ _ _ H1 H2) as [?|[?|?]];
    [assumption | contradiction..].
Qed.

(** *** The frames of a slow thaw *)

Lemma thaw_split_cons x frames thawed rest th vm' :
  thaw_split frames thawed rest th vm' -> thaw_split (x :: frames) (x :: thawed) rest th vm'.
Proof. intros [-> H]. split; [reflexivity | exact H]. Qed.

Lemma thaw_split_step frames thawed rest th vm1 vm2 :
  thaw_split frames thawed rest th vm1 -> heap vm2 = heap vm1 ->
  thaw_split frames thawed rest th vm2.
Proof. intros [E H] Hh. split; [exact E|]. rewrite Hh. exact H. Qed.

Lemma no_compiled_top_cons x thawed rest :
  thawed <> [] -> no_compiled_top thawed rest -> no_compiled_top (x :: thawed) rest.
Proof.
  intros Hne H l Hl. apply H. destruct thawed as [|y t]; [contradiction|]. exact Hl.
Qed.

Lemma recurse_thaw_java_frame_counted interpreted hf stream s_end n thaw_next th vm :
  (1 <= n)%nat ->
  interpreted = bool_decide (c_kind hf = InterpretedFrame) ->
  (forall n', (1 <= n')%nat -> thaw_counted n' stream th (thaw_next n' th vm)) ->
  forall bottom caller th' vm',
    recurse_thaw_java_frame interpreted hf stream s_end n thaw_next th vm
      = Some (bottom, caller, th', vm') ->
    exists thawed rest,
      thaw_split (hf :: stream) thawed rest th vm' /\
      (1 <= length thawed <= n + 1)%nat /\
      (n = 1%nat -> interpreted = false -> length thawed = 1%nat) /\
      no_compiled_top thawed rest.
Proof.
  intros Hn Hi Hnext bottom caller th' vm'. unfold recurse_thaw_java_frame.
  destruct (Nat.eqb n 1 && negb (is_done stream) && interpreted && is_compiled stream) eqn:Ext.
  - (* the compiled caller of an interpreted frame is thawed with it *)
    apply andb_prop in Ext as [Ext Hc]. apply andb_prop in Ext as [Ext Hint].
    apply andb_prop in Ext as [Hn1 Hd]. apply Nat.eqb_eq in Hn1. subst n.
    destruct stream as [|hf2 rest0]; [discriminate|].
    cbn [Nat.eqb is_done orb].
    specialize (Hnext 1%nat ltac:(lia)).
    change (2 - 1)%nat with 1%nat.
    destruct (thaw_next 1%nat th vm) as [[[c t] v]|]; [|discriminate].
    cbn [mbind option_bind]. intros [= <- <- <- <-].
    destruct (Hnext _ _ _ eq_refl) as (thawed & rest & Hsp & Hlen & Hone & Hlast).
    assert (Hl1 : length thawed = 1%nat).
    { apply Hone; [reflexivity|]. cbn [head_interpreted is_compiled] in *.
      apply bool_decide_eq_true_1 in Hc. apply bool_decide_eq_false_2. congruence. }
    exists (hf :: thawed), rest. split; [apply thaw_split_cons; exact Hsp|].
    split; [cbn [length]; lia|]. split; [intros _ E; congruence|].
    apply no_compiled_top_cons; [|exact Hlast]. intros ->. discriminate.
  - destruct (Nat.eqb n 1 || is_done stream) eqn:Hstop.
    + destruct (finalize_thaw _ _ _ _ _) as [[[c t] v]|] eqn:Hf; [|discriminate].
      cbn [mbind option_bind]. intros [= <- <- <- <-].
      destruct (finalize_thaw_caller _ _ _ _ _ _ _ _ Hf)
        as (_ & -> & id & c0 & Ht & _ & _ & _ & c' & Hheap & F1 & _ & _ & _ & _ & _ & F7).
      destruct (tail_chunk_Some _ _ _ _ Ht) as [Htl Hh].
      exists [hf], stream. split.
      { split; [reflexivity|]. exists id, c'. split; [exact Htl|]. split.
        - rewrite Hheap. apply list_lookup_insert_eq. eapply lookup_lt_Some; eauto.
        - destruct stream; [rewrite F1|]; tauto. }
      split; [cbn [length]; lia|]. split; [reflexivity|].
      intros l [= <-] Hk.
      destruct (is_compiled stream) eqn:Hc; [|reflexivity].
      assert (Hd : is_done stream = false) by (destruct stream; [discriminate | reflexivity]).
      rewrite Hd, orb_false_r in Hstop. rewrite Hstop, Hd, Hi in Ext.
      rewrite bool_decide_eq_true_2 in Ext by exact Hk. discriminate.
    + apply orb_false_elim in Hstop as [Hn1 Hd]. apply Nat.eqb_neq in Hn1.
      specialize (Hnext (n - 1)%nat ltac:(lia)).
      destruct (thaw_next (n - 1)%nat th vm) as [[[c t] v]|]; [|discriminate].
      cbn [mbind option_bind]. intros [= <- <- <- <-].
      destruct (Hnext _ _ _ eq_refl) as (thawed & rest & Hsp & Hlen & _ & Hlast).
      exists (hf :: thawed), rest. split; [apply thaw_split_cons; exact Hsp|].
      split; [cbn [length]; lia|]. split; [intros E; contradiction|].
      apply no_compiled_top_cons; [|exact Hlast]. intros ->. cbn in Hlen. lia.
Qed.

Local Ltac thaw_heap_steps :=
  unfold thaw_patch;
  repeat match goal with
         | |- context [new_stack_frame ?a ?b ?c] => destruct (new_stack_frame a b c)
         | |- context [if ?b then _ else _] => destruct b
         end;
  intros [= <- <- <-].

Lemma recurse_thaw_compiled_frame_counted hf stream s_end n stub_caller thaw_next th vm :
  (1 <= n)%nat -> c_kind hf <> InterpretedFrame ->
  (forall n', (1 <= n')%nat -> thaw_counted n' stream th (thaw_next n' th vm)) ->
  thaw_counted n (hf :: stream) th
    (recurse_thaw_compiled_frame hf stream s_end n stub_caller thaw_next th vm).
Proof.
  intros Hn Hk Hnext caller th' vm'. unfold recurse_thaw_compiled_frame.
  pose proof (recurse_thaw_java_frame_counted false hf stream s_end n thaw_next th vm Hn
                ltac:(symmetry; apply bool_decide_eq_false_2; exact Hk) Hnext) as Hr.
  destruct (recurse_thaw_java_frame _ _ _ _ _ _ _ _) as [[[[bottom c1] th1] vm1]|];
    [|discriminate].
  destruct (Hr _ _ _ _ eq_refl) as (thawed & rest & Hsp & Hlen & Hone & Hlast).
  cbn [mbind option_bind].
  destruct (tail_chunk (_thaw_tail th1) vm1) as [[id chunk]|]; [|discriminate].
  cbn [mbind option_bind]. thaw_heap_steps;
    (exists thawed, rest; split; [eapply thaw_split_step; [exact Hsp | reflexivity]|];
     split; [exact Hlen|]; split; [intros E _; apply Hone; [exact E | reflexivity] | exact Hlast]).
Qed.

Lemma recurse_thaw_interpreted_frame_counted hf stream s_end n thaw_next th vm :
  (1 <= n)%nat -> c_kind hf = InterpretedFrame ->
  (forall n', (1 <= n')%nat -> thaw_counted n' stream th (thaw_next n' th vm)) ->
  thaw_counted n (hf :: stream) th
    (recurse_thaw_interpreted_frame hf stream s_end n thaw_next th vm).
Proof.
  intros Hn Hk Hnext caller th' vm'. unfold recurse_thaw_interpreted_frame.
  pose proof (recurse_thaw_java_frame_counted true hf stream s_end n thaw_next th vm Hn
                ltac:(symmetry; apply bool_decide_eq_true_2; exact Hk) Hnext) as Hr.
  destruct (recurse_thaw_java_frame _ _ _ _ _ _ _ _) as [[[[bottom c1] th1] vm1]|];
    [|discriminate].
  destruct (Hr _ _ _ _ eq_refl) as (thawed & rest & Hsp & Hlen & Hone & Hlast).
  cbn [mbind option_bind].
  destruct (tail_chunk (_thaw_tail th1) vm1) as [[id chunk]|]; [|discriminate].
  cbn [mbind option_bind]. thaw_heap_steps;
    (exists thawed, rest; split; [eapply thaw_split_step; [exact Hsp | reflexivity]|];
     split; [exact Hlen|]; split; [|exact Hlast];
     intros _ E; cbn [head_interpreted] in E;
     rewrite bool_decide_eq_true_2 in E by exact Hk; discriminate).
Qed.

Lemma thaw_one_frame_counted stream :
  forall s_end n th vm, (1 <= n)%nat ->
    thaw_counted n stream th (thaw_one_frame stream s_end n false th vm).
Proof.
  induction stream as [|hf rest IH]; intros s_end n th vm Hn;
    [intros ? ? ?; discriminate|].
  cbn [thaw_one_frame andb].
  destruct (bool_decide (c_kind hf = InterpretedFrame)) eqn:Hk; cbn [negb].
  - apply bool_decide_eq_true_1 in Hk.
    apply recurse_thaw_interpreted_frame_counted; [exact Hn | exact Hk|].
    intros n' Hn'. apply IH. exact Hn'.
  - apply bool_decide_eq_false_1 in Hk.
    apply recurse_thaw_compiled_frame_counted; [exact Hn | exact Hk|].
    intros n' Hn'. apply IH. exact Hn'.
Qed.

Lemma thaw_one_frame_top stream s_end n th vm :
  top_stub stream = false ->
  thaw_one_frame stream s_end n true th vm = thaw_one_frame stream s_end n false th vm.
Proof.
  destruct stream as [|hf rest]; [reflexivity|]. cbn [top_stub thaw_one_frame andb].
  intros ->. reflexivity.
Qed.

Lemma recurse_thaw_stub_frame_counted hf hf2 stream s_end n thaw_next th vm :
  (1 <= n)%nat -> c_kind hf2 <> InterpretedFrame ->
  (forall n', (1 <= n')%nat -> thaw_counted n' stream th (thaw_next n' th vm)) ->
  forall caller th' vm',
    recurse_thaw_stub_frame hf hf2 stream s_end n thaw_next th vm = Some (caller, th', vm') ->
    exists thawed rest,
      thaw_split (hf :: hf2 :: stream) thawed rest th vm' /\
      (2 <= length thawed <= n + 2)%nat /\ no_compiled_top thawed rest.
Proof.
  intros Hn Hk Hnext caller th' vm'. unfold recurse_thaw_stub_frame.
  pose proof (recurse_thaw_compiled_frame_counted hf2 stream s_end n true thaw_next th vm
                Hn Hk Hnext) as Hr.
  destruct (recurse_thaw_compiled_frame _ _ _ _ _ _ _ _) as [[[c1 th1] vm1]|];
    [|discriminate].
  destruct (Hr _ _ _ eq_refl) as (thawed & rest & Hsp & Hlen & _ & Hlast).
  cbn [mbind option_bind].
  destruct (tail_chunk (_thaw_tail th1) vm1) as [[id chunk]|]; [|discriminate].
  cbn [mbind option_bind]. thaw_heap_steps.
  exists (hf :: thawed), rest.
  split; [eapply thaw_split_step; [apply thaw_split_cons; exact Hsp | reflexivity]|].
  split; [cbn [length]; lia|].
  apply no_compiled_top_cons; [|exact Hlast]. intros ->. cbn in Hlen. lia.
Qed.

(** X9. A slow thaw takes at least one frame off the chunk and at most two
    on a return barrier and three otherwise, the safepoint stub on top of a
    preempted continuation not counted; what is left in the chunk starts at
    the next frame, or the chunk is empty.  It never leaves a compiled
    frame on top of the chunk when the last frame it thawed, the callee of
    that frame, is interpreted.  The caller of a safepoint stub is a
    compiled frame. *)
Theorem thaw_slow_frame_count chunk frames return_barrier th vm sp' vm' :
  match frames with
  | s :: c :: _ => c_kind s = StubFrame -> c_kind c = CompiledFrame
  | _ => True
  end ->
  thaw_slow chunk frames return_barrier th vm = Some (sp', vm') ->
  exists id c' thawed rest,
    _thaw_tail th = Some id /\ heap vm' !! id = Some c' /\
    frames = thawed ++ rest /\
    match rest with
    | r :: _ => sp c' = c_sp r /\ pc c' = c_pc r
    | [] => sp c' = stack_size c' /\ pc c' = 0
    end /\
    (1 <= length thawed)%nat /\
    (length thawed <= (if return_barrier then 2 else 3) + (if top_stub frames then 1 else 0))%nat /\
    no_compiled_top thawed rest.
Proof.
  intros Hstub Hs. unfold thaw_slow in Hs.
  set (n := if return_barrier then 1%nat else 2%nat) in Hs.
  assert (Hn : (1 <= n)%nat) by (unfold n; destruct return_barrier; lia).
  set (th0 := thaw_set_top_unextended_sp _ _) in Hs.
  assert (Hc : forall caller th1 vm1,
            thaw_one_frame frames (stream_end chunk) n true th0 vm = Some (caller, th1, vm1) ->
            exists thawed rest,
              thaw_split frames thawed rest th0 vm1 /\
              (1 <= length thawed)%nat /\
              (length thawed <= n + 1 + (if top_stub frames then 1 else 0))%nat /\
              no_compiled_top thawed rest).
  { intros caller th1 vm1. destruct (top_stub frames) eqn:Htop.
    - destruct frames as [|hf [|hf2 rest2]]; [discriminate| |].
      + cbn [thaw_one_frame]. cbn [top_stub] in Htop. rewrite Htop. discriminate.
      + cbn [thaw_one_frame]. cbn [top_stub] in Htop. rewrite Htop. cbn [andb].
        intros E.
        assert (Hk2 : c_kind hf2 <> InterpretedFrame).
        { apply bool_decide_eq_true_1 in Htop. rewrite (Hstub Htop). discriminate. }
        destruct (recurse_thaw_stub_frame_counted hf hf2 rest2 (stream_end chunk) n
                    (fun n th vm => thaw_one_frame rest2 (stream_end chunk) n false th vm)
                    th0 vm Hn Hk2
                    ltac:(intros n' Hn'; apply thaw_one_frame_counted; exact Hn')
                    _ _ _ E) as (thawed & rest & A & B & C).
        exists thawed, rest. split; [exact A|]. split; [lia|]. split; [lia | exact C].
    - rewrite thaw_one_frame_top by exact Htop. intros E.
      destruct (thaw_one_frame_counted frames (stream_end chunk) n th0 vm Hn _ _ _ E)
        as (thawed & rest & A & B & _ & C).
      exists thawed, rest. split; [exact A|]. split; [lia|]. split; [lia | exact C]. }
  pose proof (thaw_one_frame_ok frames (stream_end chunk) n true th0 vm) as Ho.
  destruct (thaw_one_frame frames (stream_end chunk) n true th0 vm) as [[[caller th1] vm1]|];
    [|discriminate].
  destruct (Hc _ _ _ eq_refl) as (thawed & rest & [Hfr (id & c1 & Htl & Hh & Hrest)] & Hl1 & Hl2 & Hlast).
  destruct (Ho _ _ _ eq_refl) as (A1 & _). clear Hc Ho.
  cbn [mbind option_bind] in Hs.
  unfold finish_thaw, seen_by_gc in Hs. rewrite A1, Htl in Hs.
  unfold tail_chunk in Hs. rewrite Hh in Hs. cbn [mbind option_bind] in Hs.
  exists id. 
  assert (Hkeep : forall c2, sp c2 = sp c1 -> pc c2 = pc c1 -> stack_size c2 = stack_size c1 ->
            match rest with
            | r :: _ => sp c2 = c_sp r /\ pc c2 = c_pc r
            | [] => sp c2 = stack_size c2 /\ pc c2 = 0
            end).
  { intros c2 E1 E2 E3. destruct rest; rewrite E1, E2, ?E3; exact Hrest. }
  assert (Hn2 : (n + 1 = if return_barrier then 2 else 3)%nat)
    by (unfold n; destruct return_barrier; reflexivity).
  rewrite <- Hn2.
  destruct (is_empty c1); [destruct (_thaw_barriers th1 || is_gc_mode c1)|];
    destruct (bool_decide _); injection Hs as <- <-;
    (eexists; exists thawed, rest; split; [exact Htl|]; split;
     [cbn; apply list_lookup_insert_eq; eapply lookup_lt_Some; exact Hh|];
     split; [exact Hfr|]; split; [apply Hkeep; reflexivity|];
     split; [exact Hl1|]; split; [exact Hl2 | exact Hlast]).
Qed.

(** *** A successful freeze leaves frames *)

Lemma freeze_fast_live b frame_sp a fr vm fr1 vm1 :
  0 <= entry_argsize (entry vm) < cont_size frame_sp vm ->
  (forall id c, tail_chunk (_cont_tail fr) vm = Some (id, c) -> chunk_inv c) ->
  freeze_fast b frame_sp a fr vm = Some (true, fr1, vm1) ->
  exists id c,
    continuation_tail vm1 = Some id /\ heap vm1 !! id = Some c /\
    0 <= argsize c /\ sp c < stack_size c - argsize c /\ 0 < max_size c.
Proof.
  intros Hargs Hinv Hf. unfold freeze_fast in Hf.
  destruct b.
  - destruct (tail_chunk (_cont_tail fr) vm) as [[id c0]|] eqn:Ht; [|discriminate].
    destruct (tail_chunk_Some _ _ _ _ Ht) as [Htl Hh].
    destruct (Hinv _ _ eq_refl) as (Ha & Hc).
    destruct (bool_decide (sp c0 < stack_size c0)) eqn:Hne;
      [apply bool_decide_eq_true in Hne | apply bool_decide_eq_false in Hne];
      injection Hf as <- <-;
      match goal with |- context [freeze_fast_copy ?f ?i ?c ?s ?r ?v] =>
        destruct (freeze_fast_copy_chunk f i c0 c s r v Hh)
          as (c' & Hl & Hsp & Hmax & Harg & Hss & _ & _ & _ & _ & Hct & _ & _ & _)
      end;
      cbn [argsize stack_size max_size set_argsize set_max_size] in Hmax, Harg, Hss;
      change (cont_size frame_sp (with_thread _ vm)) with (cont_size frame_sp vm) in Hsp;
      exists id, c'; (split; [congruence|]); (split; [exact Hl|]);
      destruct Hc as [(E1 & E2 & E3) | (L1 & L2 & L3)]; lia.
  - match type of Hf with context [allocate_chunk ?sz a fr vm] =>
      pose proof (allocate_chunk_Some sz a fr vm) as HS;
      destruct (allocate_chunk sz a fr vm) as [[[i|] f1] v1]
    end; [|discriminate].
    destruct (HS _ _ _ eq_refl)
      as (-> & Ht & _ & (c0 & Hheap & _ & He0 & _ & Hsz & _) & Hen & Hstk).
    destruct (negb (cont_fastpath (thread v1)) || _barriers f1); [discriminate|].
    assert (Hl0 : heap v1 !! length (heap vm) = Some c0).
    { rewrite Hheap, lookup_app_r by lia. rewrite Nat.sub_diag. reflexivity. }
    rewrite Hl0 in Hf. injection Hf as <- <-.
    match goal with |- context [freeze_fast_copy ?f ?i ?c ?s ?r ?v] =>
      destruct (freeze_fast_copy_chunk f i c0 c s r v Hl0)
        as (c' & Hl & Hsp & Hmax & Harg & Hss & _ & _ & _ & _ & Hct & _ & _ & _)
    end.
    cbn [argsize stack_size max_size set_argsize set_max_size] in Hmax, Harg, Hss.
    assert (Hcs : cont_size frame_sp v1 = cont_size frame_sp vm)
      by (unfold cont_size, cont_stack_bottom; rewrite Hen; reflexivity).
    rewrite Hcs in Hsp.
    exists (length (heap vm)), c'. split; [congruence|]. split; [exact Hl|]. lia.
Qed.

(** X10. When [freeze_internal] returns [freeze_ok] the continuation is not
    empty: the tail it has published holds frames above its bottom and has
    a positive [max_size], so the next thaw finds its frames in the tail
    itself.  The chunks satisfy the emptiness invariant before the call,
    the frames are larger than their stack arguments, and a heap frame lies
    below its caller. *)
Theorem freeze_ok_leaves_frames frame_sp frames csp a a' vm vm' :
  0 <= align_wiggle ->
  (forall f caller, h_sp (new_heap_frame f caller).1 < h_sp caller) ->
  0 <= entry_argsize (entry vm) < cont_size frame_sp vm ->
  frames_sized 0 false (tl frames) ->
  all_chunks chunk_inv vm ->
  freeze_internal frame_sp frames csp a a' vm = Some (freeze_ok, vm') ->
  exists id c,
    continuation_tail vm' = Some id /\ heap vm' !! id = Some c /\
    is_empty c = false /\ sp c < stack_size c - argsize c /\ 0 < max_size c /\
    cont_is_empty (continuation_tail vm') vm' = false /\
    last_nonempty_chunk (continuation_tail vm') vm' = Some id.
Proof.
  intros Haw Hhf Hargs Hsz Hall Hf.
  assert (Hlive : exists id c,
            continuation_tail vm' = Some id /\ heap vm' !! id = Some c /\
            0 <= argsize c /\ sp c < stack_size c - argsize c /\ 0 < max_size c).
  { assert (Htail : forall fr v, all_chunks chunk_inv v ->
              forall id c, tail_chunk (_cont_tail fr) v = Some (id, c) -> chunk_inv c).
    { intros fr v Hv id c Ht. destruct (tail_chunk_Some _ _ _ _ Ht) as [_ Hh].
      eapply Hv; eauto. }
    unfold freeze_internal in Hf.
    destruct (entry_is_pinned (entry vm)); [discriminate|].
    destruct (can_freeze_fast (thread vm)); cbn [andb] in Hf.
    - unfold try_freeze_fast in Hf.
      destruct (is_chunk_available_for_fast_freeze _ _ _).
      + destruct (freeze_fast true _ _ _ _) as [[[ok fr1] vm1]|] eqn:Eff; [|discriminate].
        pose proof (freeze_fast_true_ok _ _ _ _ _ _ _ Eff) as ->.
        cbn [mbind option_bind] in Hf. injection Hf as <-.
        eapply freeze_fast_live; [exact Hargs | | exact Eff]. apply Htail. exact Hall.
      + destruct (freeze_fast false _ _ _ _) as [[[ok fr1] vm1]|] eqn:Eff; [|discriminate].
        cbn [mbind option_bind] in Hf. destruct ok.
        { cbn [mbind option_bind] in Hf. injection Hf as <-.
          eapply freeze_fast_live; [exact Hargs | | exact Eff]. apply Htail. exact Hall. }
        assert (Hall1 : all_chunks chunk_inv vm1).
        { destruct (freeze_fast_abandoned_fresh _ _ _ _ _ _ Eff)
            as [Hh | (sz & bar & par & Hh)]; unfold all_chunks; rewrite Hh; [exact Hall|].
          apply all_chunks_app; [exact Hall | apply chunk_inv_fresh]. }
        destruct (has_pending_exception (thread vm1)); [discriminate|].
        destruct (freeze_slow frames csp a' fr1 vm1) as [[[r f] v]|] eqn:Es; [|discriminate].
        cbn [mbind option_bind] in Hf. injection Hf as -> <-.
        eapply (freeze_slow_sized Haw Hhf); [| exact Hsz | apply Htail; exact Hall1 | exact Es].
        rewrite (freeze_fast_abandoned_preempt _ _ _ _ _ _ Eff). reflexivity.
    - destruct (freeze_slow frames csp a _ vm) as [[[r f] v]|] eqn:Es; [|discriminate].
      cbn [mbind option_bind] in Hf. injection Hf as -> <-.
      eapply (freeze_slow_sized Haw Hhf); [| exact Hsz | apply Htail; exact Hall | exact Es].
      reflexivity. }
  destruct Hlive as (id & c & Htl & Hh & Ha & Hsp & Hm).
  assert (He : is_empty c = false) by (unfold is_empty; apply bool_decide_eq_false_2; lia).
  exists id, c. repeat (split; [assumption|]).
  assert (Hl : last_nonempty_chunk (continuation_tail vm') vm' = Some id).
  { unfold last_nonempty_chunk. rewrite Htl, (tail_chunk_intro _ _ _ Hh), He. reflexivity. }
  split; [|exact Hl]. unfold cont_is_empty. rewrite Hl. reflexivity.
Qed.

(** *** A freeze that fails with an exception *)

Lemma allocate_chunk_thrown size a fr vm fr1 vm1 :
  allocate_chunk size a fr vm = (None, fr1, vm1) -> vm1 = vm \/ vm1 = throw_exception vm.
Proof.
  unfold allocate_chunk. destruct (_ && _).
  - intros [= <- <-]. destruct (_preempt fr); auto.
  - destruct a; intros [= <- <-] || discriminate. auto.
Qed.

Lemma finalize_freeze_thrown callee argsz a fr vm :
  walk_thrown vm (finalize_freeze callee argsz a fr vm).
Proof.
  intros res caller fr' vm' Hf ->. unfold finalize_freeze in Hf.
  cbn [_size set_size _barriers _cont_tail _preempt] in Hf.
  match type of Hf with context [allocate_chunk ?sz a ?f vm] =>
    pose proof (allocate_chunk_thrown sz a f vm) as HA;
    destruct (allocate_chunk sz a f vm) as [[o f1] v1]
  end.
  destruct o as [i|].
  - destruct (heap v1 !! i);
      repeat match type of Hf with
             | context [match ?t with Some _ => _ | None => _ end] => destruct t as [[? ?]|]
             | context [if ?b then _ else _] => destruct b
             end;
      discriminate Hf.
  - specialize (HA _ _ eq_refl).
    repeat match type of Hf with
           | context [match ?t with Some _ => _ | None => _ end] => destruct t as [[? ?]|]
           | context [if ?b then _ else _] => destruct b
           end;
      try discriminate Hf; injection Hf as <- <- <-; exact HA.
Qed.

Lemma walk_thrown_ok vm (hf : hframe) (fr : Freeze) (vm' : VM) :
  walk_thrown vm (Some (freeze_ok, hf, fr, vm')).
Proof. intros res c' fr' v [= <- <- <- <-]. discriminate. Qed.

Lemma walk_thrown_leaf vm r (hf : hframe) (fr : Freeze) :
  walk_thrown vm (Some (r, hf, fr, vm)).
Proof. intros res c' fr' v [= <- <- <- <-] _. auto. Qed.

Lemma recurse_freeze_java_frame_thrown interpreted f fsize argsz callee a freeze_sender fr vm :
  (forall ca ci fr1, walk_thrown vm (freeze_sender ca ci fr1 vm)) ->
  walk_thrown vm
    (recurse_freeze_java_frame interpreted f fsize argsz (finalize_freeze callee argsz a)
       freeze_sender fr vm).
Proof.
  intros Hs. unfold recurse_freeze_java_frame.
  destruct (bool_decide _); [apply finalize_freeze_thrown | apply Hs].
Qed.

Lemma recurse_freeze_compiled_frame_thrown f ca ci a freeze_sender fr vm :
  (forall ca ci fr1, walk_thrown vm (freeze_sender ca ci fr1 vm)) ->
  walk_thrown vm (recurse_freeze_compiled_frame f ca ci a freeze_sender fr vm).
Proof.
  intros Hs. unfold recurse_freeze_compiled_frame.
  pose proof (recurse_freeze_java_frame_thrown false f
                (frame_bottom f + stack_argsize f - frame_top f ca ci) (stack_argsize f)
                f a freeze_sender fr vm Hs) as Hr.
  destruct (recurse_freeze_java_frame _ _ _ _ _ _ _ _) as [[[[result caller] fr1] vm1]|];
    [|intros ? ? ? ?; discriminate].
  cbn [mbind option_bind].
  destruct (gt_ok_bottom result) eqn:Hg; [exact Hr|].
  destruct (new_heap_frame f caller) as [hf caller_sp].
  destruct (copy_to_chunk _ _ _ fr1 vm1) as [vm2|]; [|intros ? ? ? ?; discriminate].
  cbn [mbind option_bind].
  match goal with |- context [freeze_patch ?f ?h ?c ?b ?r ?v] =>
    destruct (freeze_patch f h c b r v) as [vm3|]
  end; [|intros ? ? ? ?; discriminate].
  apply walk_thrown_ok.
Qed.

Lemma recurse_freeze_interpreted_frame_thrown f ca ci a freeze_sender fr vm :
  (forall ca ci fr1, walk_thrown vm (freeze_sender ca ci fr1 vm)) ->
  walk_thrown vm (recurse_freeze_interpreted_frame f ca ci a freeze_sender fr vm).
Proof.
  intros Hs. unfold recurse_freeze_interpreted_frame.
  match goal with |- context [recurse_freeze_java_frame ?i ?g ?s ?z (finalize_freeze ?g' _ _) _ _ _] =>
    pose proof (recurse_freeze_java_frame_thrown i g s z g' a freeze_sender fr vm Hs) as Hr
  end.
  destruct (recurse_freeze_java_frame _ _ _ _ _ _ _ _) as [[[[result caller] fr1] vm1]|];
    [|intros ? ? ? ?; discriminate].
  cbn [mbind option_bind].
  destruct (gt_ok_bottom result) eqn:Hg; [exact Hr|].
  destruct (new_heap_frame _ caller) as [hf caller_sp].
  set (fr2 := set_align_size _ fr1).
  destruct (copy_to_chunk _ _ _ fr2 vm1) as [vm2|]; [|intros ? ? ? ?; discriminate].
  cbn [mbind option_bind].
  destruct (copy_to_chunk _ _ _ fr2 vm2) as [vm3|]; [|intros ? ? ? ?; discriminate].
  cbn [mbind option_bind].
  destruct (modify_tail_words _ fr2 vm3) as [vm4|]; [|intros ? ? ? ?; discriminate].
  cbn [mbind option_bind].
  destruct (freeze_patch _ _ _ _ fr2 vm4) as [vm5|]; [|intros ? ? ? ?; discriminate].
  apply walk_thrown_ok.
Qed.

Lemma recurse_freeze_stub_frame_thrown f senderf a freeze_sender fr vm :
  (forall ca ci fr1, walk_thrown vm (freeze_sender ca ci fr1 vm)) ->
  walk_thrown vm (recurse_freeze_stub_frame f senderf a freeze_sender fr vm).
Proof.
  intros Hs. unfold recurse_freeze_stub_frame.
  destruct (negb (oop_map senderf)); [apply walk_thrown_leaf|].
  destruct (is_owning_locks senderf); [apply walk_thrown_leaf|].
  match goal with |- context [recurse_freeze_compiled_frame ?g ?x ?y ?a ?snd ?r ?v] =>
    pose proof (recurse_freeze_compiled_frame_thrown g x y a snd r v Hs) as Hr;
    destruct (recurse_freeze_compiled_frame g x y a snd r v) as [[[[result caller] fr1] vm1]|]
  end; [|intros ? ? ? ?; discriminate].
  cbn [mbind option_bind].
  destruct (gt_ok_bottom result) eqn:Hg; [exact Hr|].
  destruct (new_heap_frame f caller) as [hf caller_sp].
  destruct (copy_to_chunk _ _ _ fr1 vm1) as [vm2|]; [|intros ? ? ? ?; discriminate].
  apply walk_thrown_ok.
Qed.

Lemma freeze_walk_thrown frames :
  forall depth csp a ca ci top fr vm,
    walk_thrown vm (freeze frames depth csp a ca ci top fr vm).
Proof.
  induction frames as [frames IH] using (induction_ltof1 _ (@length frame)).
  unfold ltof in IH.
  intros depth csp a ca ci top fr vm.
  destruct frames as [|f senders]; [intros ? ? ? ?; discriminate|].
  cbn [freeze]. unfold stack_overflow.
  destruct (bool_decide (csp depth < stack_overflow_limit (thread vm))).
  { intros res c' fr' vm' [= <- <- <- <-] _. destruct (_preempt fr); auto. }
  assert (Hs : forall ca ci fr1,
             walk_thrown vm (freeze senders (S depth) csp a ca ci false fr1 vm)).
  { intros ca' ci' fr1. apply IH. cbn. lia. }
  destruct (kind f).
  - destruct (negb (oop_map f)); [apply walk_thrown_leaf|].
    destruct (is_owning_locks f); [apply walk_thrown_leaf|].
    apply recurse_freeze_compiled_frame_thrown. exact Hs.
  - destruct (is_owning_locks f); [apply walk_thrown_leaf|].
    destruct (_preempt fr && top && is_native f); [apply walk_thrown_leaf|].
    apply recurse_freeze_interpreted_frame_thrown. exact Hs.
  - destruct (_preempt fr && top).
    + destruct senders as [|senderf senders']; [intros ? ? ? ?; discriminate|].
      apply recurse_freeze_stub_frame_thrown.
      intros ca' ci' fr1. apply IH. cbn. lia.
    + apply walk_thrown_leaf.
  - apply walk_thrown_leaf.
Qed.

Lemma freeze_slow_thrown frames csp a fr vm fr' vm' :
  freeze_slow frames csp a fr vm = Some (freeze_exception, fr', vm') ->
  vm' = vm \/ vm' = throw_exception vm.
Proof.
  unfold freeze_slow.
  match goal with |- context [freeze ?fs ?d ?c ?a ?x ?y ?t ?r ?v] =>
    pose proof (freeze_walk_thrown fs d c a x y t r v) as Hw;
    destruct (freeze fs d c a x y t r v) as [[[[r0 caller] fr1] vm1]|]
  end; [|discriminate].
  cbn [mbind option_bind].
  destruct (decide (r0 = freeze_ok)) as [->|Hne].
  - destruct (finish_freeze _ _ _); discriminate.
  - intros [= -> _ <-]. exact (Hw _ _ _ _ eq_refl eq_refl).
Qed.

(** X11. A freeze that fails with an exception has changed nothing of the
    continuation: the published tail is the same, every chunk of the heap
    is as it was (a chunk that an abandoned fast path has allocated stays
    unpublished), the entry and the words of the native stack are
    untouched, and the exception is pending.  When the thread could not
    take the fast path the only change is the pending exception. *)
Theorem freeze_exception_leaves_state frame_sp frames csp a a' vm vm' :
  has_pending_exception (thread vm) = false ->
  freeze_internal frame_sp frames csp a a' vm = Some (freeze_exception, vm') ->
  continuation_tail vm' = continuation_tail vm /\
  (forall id c, heap vm !! id = Some c -> heap vm' !! id = Some c) /\
  entry vm' = entry vm /\
  stack (thread vm') = stack (thread vm) /\
  has_pending_exception (thread vm') = true /\
  (can_freeze_fast (thread vm) = false -> vm' = throw_exception vm).
Proof.
  intros Hno Hf.
  assert (Hthrow : forall v, has_pending_exception (thread v) = false ->
            forall v', (v' = v \/ v' = throw_exception v) ->
            has_pending_exception (thread v') = true -> v' = throw_exception v).
  { intros v H0 v' [-> | ->] H1; [congruence | reflexivity]. }
  assert (Hslow : forall a0 fr0 vm0 f v,
            _preempt fr0 = false -> has_pending_exception (thread vm0) = false ->
            freeze_slow frames csp a0 fr0 vm0 = Some (freeze_exception, f, v) ->
            v = throw_exception vm0).
  { intros a0 fr0 vm0 f v Hp H0 Hs.
    destruct (freeze_slow_pending _ _ _ _ _ _ _ _ Hs) as (_ & He & _).
    apply (Hthrow vm0 H0); [eapply freeze_slow_thrown; exact Hs | auto]. }
  assert (Hgoal : continuation_tail vm' = continuation_tail vm /\
                  entry vm' = entry vm /\ stack (thread vm') = stack (thread vm) /\
                  has_pending_exception (thread vm') = true /\
                  (exists unpublished, heap vm' = heap vm ++ unpublished) /\
                  (can_freeze_fast (thread vm) = false -> vm' = throw_exception vm)).
  { revert Hf. unfold freeze_internal.
    destruct (entry_is_pinned (entry vm)); [discriminate|].
    destruct (can_freeze_fast (thread vm)) eqn:Hfast; cbn [andb].
    - destruct (is_chunk_available_for_fast_freeze frame_sp _ vm).
      { destruct (try_freeze_fast true _ _ _ _ _ _ _) as [[[r f] v]|]; discriminate. }
      unfold try_freeze_fast.
      destruct (freeze_fast false _ _ _ _) as [[[ok fr1] vm1]|] eqn:Eff; [|discriminate].
      cbn [mbind option_bind]. destruct ok; [discriminate|].
      destruct (freeze_fast_abandoned _ _ _ _ _ _ Eff) as (H1 & H2 & H3 & H4).
      destruct (has_pending_exception (thread vm1)) eqn:Hpend.
      { cbn [mbind option_bind]. intros [= <-].
        split_and!; first [assumption | discriminate]. }
      destruct (freeze_slow frames csp a' fr1 vm1) as [[[r f] v]|] eqn:Es; [|discriminate].
      cbn [mbind option_bind]. intros [= -> <-].
      rewrite (Hslow a' fr1 vm1 f v); [| | exact Hpend | exact Es].
      + split_and!; first [assumption | reflexivity | discriminate].
      + rewrite (freeze_fast_abandoned_preempt _ _ _ _ _ _ Eff). reflexivity.
    - destruct (freeze_slow frames csp a _ vm) as [[[r f] v]|] eqn:Es; [|discriminate].
      cbn [mbind option_bind]. intros [= -> <-].
      rewrite (Hslow a (new_Freeze false vm) vm f v eq_refl Hno Es).
      split_and!; try reflexivity.
      exists []. symmetry. apply app_nil_r. }
  destruct Hgoal as (G1 & G2 & G3 & G4 & (u & G5) & G6).
  split_and!; try assumption.
  intros id c Hl. rewrite G5. apply lookup_app_l_Some. exact Hl.
Qed.

(** *** The fast-path flag after a slow thaw *)




(** *** The chunks a freeze writes *)

Lemma freeze_fast_others b frame_sp a fr vm fr1 vm1 :
  freeze_fast b frame_sp a fr vm = Some (true, fr1, vm1) ->
  exists id,
    continuation_tail vm1 = Some id /\
    forall j c, heap vm1 !! j = Some c -> j <> id -> heap vm !! j = Some c.
Proof.
  intros Hf. unfold freeze_fast in Hf.
  destruct b.
  - destruct (tail_chunk (_cont_tail fr) vm) as [[id c0]|] eqn:Ht; [|discriminate].
    destruct (tail_chunk_Some _ _ _ _ Ht) as [Htl Hh].
    destruct (bool_decide (sp c0 < stack_size c0));
      injection Hf as <- <-;
      match goal with |- context [freeze_fast_copy ?f ?i ?c ?s ?r ?v] =>
        destruct (freeze_fast_copy_chunk f i c0 c s r v Hh)
          as (c' & _ & _ & _ & _ & _ & _ & _ & _ & _ & Hct & _ & _ & Hheap)
      end;
      exists id; (split; [congruence|]); intros j c Hl Hj;
      rewrite Hheap, list_lookup_insert_ne in Hl by congruence; exact Hl.
  - match type of Hf with context [allocate_chunk ?sz a fr vm] =>
      pose proof (allocate_chunk_Some sz a fr vm) as HS;
      destruct (allocate_chunk sz a fr vm) as [[[i|] f1] v1]
    end; [|discriminate].
    destruct (HS _ _ _ eq_refl) as (-> & Ht & _ & (c0 & Hheap0 & _) & _).
    destruct (negb (cont_fastpath (thread v1)) || _barriers f1); [discriminate|].
    assert (Hl0 : heap v1 !! length (heap vm) = Some c0).
    { rewrite Hheap0, lookup_app_r by lia. rewrite Nat.sub_diag. reflexivity. }
    rewrite Hl0 in Hf. injection Hf as <- <-.
    match goal with |- context [freeze_fast_copy ?f ?i ?c ?s ?r ?v] =>
      destruct (freeze_fast_copy_chunk f i c0 c s r v Hl0)
        as (c' & _ & _ & _ & _ & _ & _ & _ & _ & _ & Hct & _ & _ & Hheap)
    end.
    exists (length (heap vm)). split; [congruence|]. intros j c Hl Hj.
    rewrite Hheap, list_lookup_insert_ne in Hl by congruence.
    rewrite Hheap0 in Hl. apply lookup_app_Some in Hl as [Hl | [Hge Hl]]; [exact Hl|].
    destruct (j - length (heap vm))%nat as [|k] eqn:Hk; [lia|].
    destruct k; discriminate.
Qed.

(** X13. A freeze writes into one chunk only, the one it publishes as the
    tail: every other chunk of the heap after the call is a chunk that was
    there before, unchanged, or a new, empty chunk that an abandoned fast
    path has allocated. *)
Theorem freeze_writes_tail_only frame_sp frames csp a a' vm res vm' :
  freeze_internal frame_sp frames csp a a' vm = Some (res, vm') ->
  forall j c, heap vm' !! j = Some c -> continuation_tail vm' <> Some j ->
    heap vm !! j = Some c \/ (heap vm !! j = None /\ is_empty c = true).
Proof.
  intros Hf.
  assert (Hslow : forall a0 fr0 vm0 r f v,
            freeze_slow frames csp a0 fr0 vm0 = Some (r, f, v) ->
            forall j c, heap v !! j = Some c -> continuation_tail v <> Some j ->
              heap vm0 !! j = Some c).
  { intros a0 fr0 vm0 r f v Hs j c Hl Hj. destruct (decide (r = freeze_ok)) as [->|Hne].
    - destruct (freeze_slow_ok _ _ _ _ _ _ _ Hs) as (id & _ & _ & _ & Htl & _ & _ & _ & _ & _ & Ho).
      apply Ho; [exact Hl | congruence].
    - rewrite <- (freeze_slow_failed _ _ _ _ _ _ _ _ Hs Hne). exact Hl. }
  revert Hf. unfold freeze_internal.
  destruct (entry_is_pinned (entry vm)); [intros [= _ <-]; auto|].
  destruct (can_freeze_fast (thread vm)); cbn [andb].
  - unfold try_freeze_fast.
    destruct (is_chunk_available_for_fast_freeze _ _ _).
    + destruct (freeze_fast true _ _ _ _) as [[[ok fr1] vm1]|] eqn:Eff; [|discriminate].
      pose proof (freeze_fast_true_ok _ _ _ _ _ _ _ Eff) as ->.
      cbn [mbind option_bind]. intros [= _ <-] j c Hl Hj.
      destruct (freeze_fast_others _ _ _ _ _ _ _ Eff) as (id & Htl & Ho).
      left. apply Ho; [exact Hl | congruence].
    + destruct (freeze_fast false _ _ _ _) as [[[ok fr1] vm1]|] eqn:Eff; [|discriminate].
      cbn [mbind option_bind]. destruct ok.
      { cbn [mbind option_bind]. intros [= _ <-] j c Hl Hj.
        destruct (freeze_fast_others _ _ _ _ _ _ _ Eff) as (id & Htl & Ho).
        left. apply Ho; [exact Hl | congruence]. }
      assert (Hfresh : forall j c, heap vm1 !! j = Some c ->
                heap vm !! j = Some c \/ (heap vm !! j = None /\ is_empty c = true)).
      { intros j c Hl.
        destruct (freeze_fast_abandoned_fresh _ _ _ _ _ _ Eff)
          as [Hh | (sz & bar & par & Hh)]; rewrite Hh in Hl; [auto|].
        apply lookup_app_Some in Hl as [Hl | [Hge Hl]]; [auto|]. right.
        split; [apply lookup_ge_None_2; exact Hge|].
        destruct (j - length (heap vm))%nat as [|k]; [|destruct k; discriminate].
        injection Hl as <-. unfold is_empty. apply bool_decide_eq_true_2. reflexivity. }
      destruct (has_pending_exception (thread vm1)).
      { cbn [mbind option_bind]. intros [= _ <-] j c Hl _. apply Hfresh. exact Hl. }
      destruct (freeze_slow frames csp a' fr1 vm1) as [[[r f] v]|] eqn:Es; [|discriminate].
      cbn [mbind option_bind]. intros [= _ <-] j c Hl Hj.
      apply Hfresh. eapply Hslow; eauto.
  - destruct (freeze_slow frames csp a _ vm) as [[[r f] v]|] eqn:Es; [|discriminate].
    cbn [mbind option_bind]. intros [= _ <-] j c Hl Hj.
    left. eapply Hslow; eauto.
Qed.

(** *** The stack pointer a thaw returns *)

Lemma shift_aligned x :
  Z.shiftl x 3 `mod` 16 <> 0 -> Z.shiftl (x - 1) 3 `mod` 16 = 0.
Proof.
  rewrite !Z.shiftl_mul_pow2 by lia. change (2 ^ 3) with 8. change 16 with (2 * 8).
  rewrite !Z.mul_mod_distr_r by lia.
  pose proof (Z.mod_pos_bound x 2 ltac:(lia)).
  pose proof (Z.mod_pos_bound (x - 1) 2 ltac:(lia)).
  pose proof (Z.div_mod x 2 ltac:(lia)).
  pose proof (Z.div_mod (x - 1) 2 ltac:(lia)).
  lia.
Qed.

(** X14. The stack pointer a thaw returns is aligned to the frame alignment
    of 16 bytes, as [thaw_internal] asserts: the fast path aligns it, and
    the slow path moves the top frame down a word when it is not.  Words
    are 8 bytes and [frame_align_pointer] returns aligned addresses. *)
Theorem thaw_returns_aligned_sp kind frames preempted vm sp' vm' :
  LogBytesPerWord = 3 -> frame_alignment = 16 ->
  (forall p, Z.shiftl (frame_align_pointer p) 3 `mod` 16 = 0) ->
  thaw kind frames preempted vm = Some (sp', vm') ->
  Z.shiftl sp' LogBytesPerWord `mod` frame_alignment = 0.
Proof.
  intros Hlog Hfa Hal. rewrite Hlog, Hfa. unfold thaw.
  destruct (tail_chunk _ vm) as [[id chunk]|]; [|discriminate].
  cbn [mbind option_bind].
  destruct (can_thaw_fast chunk _ vm).
  - intros [= Hr]. replace sp' with (thaw_fast id chunk vm).1 by (rewrite Hr; reflexivity).
    unfold thaw_fast.
    destruct (negb TEST_THAW_ONE_CHUNK_FRAME && bool_decide _); cbn [fst]; apply Hal.
  - unfold thaw_slow.
    destruct (thaw_one_frame _ _ _ _ _ _) as [[[f th1] vm1]|]; [|discriminate].
    cbn [mbind option_bind]. unfold finish_thaw, seen_by_gc.
    destruct (tail_chunk (_thaw_tail th1) vm1) as [[id1 c1]|]; [|discriminate].
    cbn [mbind option_bind]. rewrite Hlog, Hfa.
    destruct (is_empty c1); [destruct (_thaw_barriers th1 || is_gc_mode c1)|];
      (destruct (bool_decide (Z.shiftl (h_sp f) 3 `mod` 16 = 0)) eqn:E;
       [apply bool_decide_eq_true in E | apply bool_decide_eq_false in E]);
      intros [= <- _]; cbn [h_sp hframe_set_sp];
      first [exact E | apply shift_aligned; exact E].
Qed.

(** *** Thaw, then freeze *)

(** X15. Round trip, the other way.  A fast thaw of the whole tail chunk
    followed at once by a fast freeze of the thawed frames puts them back
    into the same chunk, where they were: the chunk has its [sp],
    [argsize], size and parent again, and every word of it is what it was,
    except the return-pc slot of the bottom frame, which now holds the
    chunk's former [pc]; no other chunk changes.  The emptied chunk is the
    one the freeze finds available when it is not in GC mode, needs no
    barriers and has room for the metadata words.  The entry and the
    frames are aligned as the platform aligns them. *)
Theorem thaw_freeze_round_trip id c vm a :
  continuation_tail vm = Some id -> heap vm !! id = Some c ->
  stack_size c - sp c < 500 ->
  1 <= sender_sp_ret_address_offset <= metadata_words ->
  frame_align_pointer (entry_sp (entry vm) - (stack_size c - sp c))
    = entry_sp (entry vm) - frame_align_words (argsize c) - (stack_size c - sp c) ->
  frame_align_pointer (entry_sp (entry vm) - argsize c)
    = entry_sp (entry vm) - frame_align_words (argsize c) - argsize c ->
  let sp' := (thaw_fast id c vm).1 in
  let vm1 := (thaw_fast id c vm).2 in
  let fr := new_Freeze false vm1 in
  (is_gc_mode c = false -> requires_barriers c = false -> has_mixed_frames c = false ->
   metadata_words <= sp c ->
   is_chunk_available_for_fast_freeze (sp' - metadata_words) fr vm1 = true) /\
  exists vm2 c2,
    freeze_fast true (sp' - metadata_words) a fr vm1 = Some (true, fr, vm2) /\
    continuation_tail vm2 = Some id /\ heap vm2 !! id = Some c2 /\
    sp c2 = sp c /\ argsize c2 = argsize c /\ stack_size c2 = stack_size c /\
    parent c2 = parent c /\
    (forall i, i <> stack_size c - argsize c - sender_sp_ret_address_offset ->
       words c2 i = words c i) /\
    words c2 (stack_size c - argsize c - sender_sp_ret_address_offset) = pc c /\
    (forall j, j <> id -> heap vm2 !! j = heap vm !! j).
Proof.
  intros Htl Hh Hsmall Hro H1 H2 sp' vm1 fr.
  set (c1 := set_max_size 0 (set_argsize 0 (set_sp (stack_size c) c))).
  set (e := entry_sp (entry vm)) in *.
  set (size := stack_size c - sp c) in *.
  assert (Hthaw : thaw_fast id c vm
            = (frame_align_pointer (e - size),
               patch_return (frame_align_pointer (e - argsize c))
                 (true && bool_decide (parent c1 = None))
                 (with_entry (entry_set_argsize (argsize c) (entry (store_chunk id c1 vm)))
                    (copy_from_chunk c1 (sp c - metadata_words)
                       (frame_align_pointer (e - size) - metadata_words)
                       (size + metadata_words) (store_chunk id c1 vm))))).
  { unfold thaw_fast. change (negb TEST_THAW_ONE_CHUNK_FRAME) with true. cbn [andb].
    rewrite bool_decide_eq_true_2 by (unfold threshold; fold size; lia). reflexivity. }
  assert (Hsp' : sp' = e - frame_align_words (argsize c) - size).
  { unfold sp'. rewrite Hthaw. cbn [fst]. exact H1. }
  assert (Hl1 : heap vm1 !! id = Some c1).
  { unfold vm1. rewrite Hthaw. cbn. apply list_lookup_insert_eq.
    eapply lookup_lt_Some; eauto. }
  assert (Hheap1 : heap vm1 = <[id := c1]> (heap vm)).
  { unfold vm1. rewrite Hthaw. reflexivity. }
  assert (Ht1 : tail_chunk (_cont_tail fr) vm1 = Some (id, c1)).
  { unfold fr. cbn [_cont_tail new_Freeze].
    replace (continuation_tail vm1) with (Some id)
      by (unfold vm1; rewrite Hthaw; cbn; symmetry; exact Htl).
    apply tail_chunk_intro. exact Hl1. }
  assert (Hen : entry vm1 = entry_set_argsize (argsize c) (entry vm)).
  { unfold vm1. rewrite Hthaw. reflexivity. }
  assert (Hcs : cont_size (sp' - metadata_words) vm1 = size).
  { unfold cont_size, cont_stack_bottom, cont_stack_top. rewrite Hen. cbn. fold e. lia. }
  assert (Hstk1 : stack (thread vm1)
            = <[frame_align_pointer (e - argsize c) - sender_sp_ret_address_offset :=
                  if negb (true && bool_decide (parent c1 = None))
                  then cont_returnBarrier else entry_pc (entry vm)]>
                (copy_words (words c) (sp c - metadata_words) (stack (thread vm))
                   (frame_align_pointer (e - size) - metadata_words) (size + metadata_words))).
  { unfold vm1. rewrite Hthaw. reflexivity. }
  split.
  { intros G1 G2 G3 G4. unfold is_chunk_available_for_fast_freeze. rewrite Ht1.
    change (is_gc_mode c1) with (is_gc_mode c).
    change (requires_barriers c1) with (requires_barriers c).
    change (has_mixed_frames c1) with (has_mixed_frames c).
    rewrite G1, G2, G3. cbn [orb]. rewrite Hcs.
    change (sp c1) with (stack_size c). change (stack_size c1) with (stack_size c).
    rewrite (bool_decide_eq_false_2 (stack_size c < stack_size c)) by lia.
    apply bool_decide_eq_true_2. unfold size. lia. }
  unfold freeze_fast. rewrite Ht1.
  change (sp c1) with (stack_size c). change (stack_size c1) with (stack_size c).
  rewrite bool_decide_eq_false_2 by lia.
  match goal with |- context [freeze_fast_copy ?f ?i ?ch ?s ?r ?v] =>
    destruct (freeze_fast_copy_chunk f i c1 ch s r v Hl1)
      as (c2 & Hl2 & Hsp2 & _ & Harg2 & Hss2 & Hp2 & _ & _ & Hw2 & Hct2 & _ & _ & Hheap2)
  end.
  rewrite Hcs in Hsp2, Hw2. rewrite Hen in Harg2, Hw2.
  cbn [argsize stack_size parent words pc set_argsize set_max_size set_sp c1 entry_argsize
       entry_set_argsize] in Harg2, Hss2, Hp2, Hw2.
  eexists _, c2. split; [reflexivity|].
  split; [rewrite Hct2; unfold fr; cbn [_cont_tail new_Freeze];
          unfold vm1; rewrite Hthaw; exact Htl|].
  split; [exact Hl2|]. split; [unfold size in Hsp2; lia|].
  split; [exact Harg2|]. split; [exact Hss2|]. split; [exact Hp2|].
  split; [|split].
  - intros i Hi. rewrite Hw2. rewrite fn_lookup_insert_ne by lia.
    destruct (decide (stack_size c - size - metadata_words <= i
                      < stack_size c - size - metadata_words + (size + metadata_words)))
      as [Hin|Hout]; [|rewrite copy_words_outside by exact Hout; reflexivity].
    rewrite copy_words_inside by exact Hin. rewrite Hstk1.
    unfold cont_stack_top. rewrite H2, H1, <- Hsp'.
    rewrite fn_lookup_insert_ne by (unfold size in *; lia).
    rewrite copy_words_inside by (unfold size in *; lia).
    f_equal. unfold size. lia.
  - rewrite Hw2. apply fn_lookup_insert.
  - intros j Hj. rewrite Hheap2, Hheap1.
    rewrite !list_lookup_insert_ne by congruence. reflexivity.
Qed.

End Further.

(** ** The theorems at concrete inputs *)

Lemma freeze_fast_overlap_accounting_witness :
  tail_chunk (_cont_tail (new_Freeze (P:=lp64) false vm_reuse)) vm_reuse
    = Some (0%nat, chunk_100) /\
  exists vm' chunk',
    freeze_fast (P:=lp64) (R:=runtime 30 3) true 958 (tlab_hit false)
      (new_Freeze (P:=lp64) false vm_reuse) vm_reuse
      = Some (true, new_Freeze (P:=lp64) false vm_reuse, vm') /\
    heap vm' !! 0%nat = Some chunk' /\
    sp chunk' = 64 /\ max_size chunk' = 136 /\ argsize chunk' = 0.
Proof.
  split; [reflexivity|].
  destruct (freeze_fast_overlap_accounting (P:=lp64) (R:=runtime 30 3) 958 (tlab_hit false)
              (new_Freeze (P:=lp64) false vm_reuse) vm_reuse 0%nat chunk_100 eq_refl)
    as (vm' & chunk' & Hf & Hl & Hne & _).
  exists vm', chunk'. split; [exact Hf|]. split; [exact Hl|].
  destruct Hne as (Hsp & Hmax & Harg & _); [reflexivity|].
  rewrite Hsp, Hmax, Harg. repeat split.
Defined.

Lemma thaw_fast_bulk_or_single_frame_witness :
  heap vm_plain !! 0%nat = Some chunk_100 /\
  exists chunk',
    heap (thaw_fast (P:=lp64) (R:=runtime 30 0) 0%nat chunk_100 vm_plain).2 !! 0%nat
      = Some chunk' /\
    sp chunk' = 200 /\ argsize chunk' = 0 /\ max_size chunk' = 0.
Proof.
  split; [reflexivity|].
  destruct (thaw_fast_bulk_or_single_frame (P:=lp64) (R:=runtime 30 0) 0%nat chunk_100 vm_plain
              eq_refl) as (chunk' & Hl & Hbulk & _).
  exists chunk'. split; [exact Hl|].
  destruct Hbulk as (Hsp & Harg & Hmax & _); [reflexivity|]. auto.
Defined.


Lemma freeze_fast_fresh_chunk_witness :
  ~ humongous (R:=runtime 30 0) (cont_size (P:=lp64) 958 vm_cold + 2) /\
  tlab_hit false <> slow_null /\
  allocator_contract (R:=runtime 30 0) (tlab_hit false) /\
  _barriers (new_Freeze (P:=lp64) false vm_cold) = false /\
  has_pending_exception (thread vm_cold) = false /\
  cont_fastpath (thread vm_cold) = true /\
  exists fr1 vm' chunk',
    try_freeze_fast (P:=lp64) (R:=runtime 30 0) false 958 [] (fun _ => 2000)
      (tlab_hit false) (tlab_hit false) (new_Freeze (P:=lp64) false vm_cold) vm_cold
      = Some (freeze_ok, fr1, vm') /\
    heap vm' !! 0%nat = Some chunk' /\
    stack_size chunk' = 42 /\ sp chunk' = 2 /\ argsize chunk' = 0 /\ max_size chunk' = 40 /\
    pc chunk' = 10959.
Proof.
  assert (Hh : ~ humongous (R:=runtime 30 0) (cont_size (P:=lp64) 958 vm_cold + 2))
    by (intros [H _]; cbn in H; lia).
  split; [exact Hh|]. split; [discriminate|]. split; [reflexivity|].
  split; [reflexivity|]. split; [reflexivity|]. split; [reflexivity|].
  destruct (freeze_fast_fresh_chunk (P:=lp64) (R:=runtime 30 0) 958 [] (fun _ => 2000)
              (tlab_hit false) (tlab_hit false) (new_Freeze (P:=lp64) false vm_cold) vm_cold
              Hh ltac:(discriminate) eq_refl eq_refl eq_refl eq_refl)
    as (fr1 & vm1 & _ & _ & _ & Hok).
  destruct Hok as (vm' & chunk' & Ht & Hl & _ & Hss & Hsp & Harg & Hmax & Hpc);
    [split; reflexivity|].
  exists fr1, vm', chunk'. split; [exact Ht|]. split; [exact Hl|].
  rewrite Hss, Hsp, Harg, Hmax, Hpc. repeat split.
Defined.

Lemma freeze_pinned_leaves_state_witness :
  freeze_internal (P:=lp64) (R:=runtime 30 0) 958
    [yield_stub; a_frame CompiledFrame 1000 true false] deep_stack
    (tlab_hit false) (tlab_hit false) vm_locked = Some (freeze_pinned_monitor, vm_locked) /\
  is_pinned_result freeze_pinned_monitor = true /\
  heap_closed vm_locked /\
  forall n, chunk_list n (heap vm_locked) (continuation_tail vm_locked)
            = chunk_list n (heap vm_locked) (continuation_tail vm_locked).
Proof.
  assert (Hc : heap_closed vm_locked).
  { split.
    - intros id [= <-]. eexists. reflexivity.
    - intros [|[|i]] c id Hl Hp; [injection Hl as <-; discriminate Hp | discriminate Hl ..]. }
  split; [reflexivity|]. split; [reflexivity|]. split; [exact Hc|].
  apply (freeze_pinned_leaves_state (P:=lp64) (R:=runtime 30 0) 958
           [yield_stub; a_frame CompiledFrame 1000 true false] deep_stack
           (tlab_hit false) (tlab_hit false) vm_locked freeze_pinned_monitor vm_locked
           eq_refl eq_refl Hc).
Defined.


Lemma return_pc_slot_holds_pc_witness :
  sender_sp_ret_address_offset (Platform:=lp64) = 1 /\
  1 <= metadata_words (Platform:=lp64) /\
  (forall hf m, set_top_frame_metadata_pd (Platform:=lp64) hf m (h_sp hf - 1) = h_pc hf) /\
  0 <= entry_argsize (entry vm_reuse) < cont_size (P:=lp64) 958 vm_reuse /\
  all_chunks return_pc_ok vm_reuse /\
  exists vm',
    freeze_internal (P:=lp64) (R:=runtime 30 3) 958 [yield_stub] deep_stack
      (tlab_hit false) (tlab_hit false) vm_reuse = Some (freeze_ok, vm') /\
    all_chunks return_pc_ok vm'.
Proof.
  assert (Hpd : forall hf m,
            set_top_frame_metadata_pd (Platform:=lp64) hf m (h_sp hf - 1) = h_pc hf)
    by (intros hf m; cbn; apply fn_lookup_insert).
  assert (Hargs : 0 <= entry_argsize (entry vm_reuse) < cont_size (P:=lp64) 958 vm_reuse)
    by (vm_compute; split; [discriminate | reflexivity]).
  assert (Hall : all_chunks return_pc_ok vm_reuse).
  { intros [|[|j]] c Hl; [injection Hl as <-; intros _; reflexivity | discriminate Hl ..]. }
  split; [reflexivity|]. split; [cbn; lia|]. split; [exact Hpd|].
  split; [exact Hargs|]. split; [exact Hall|].
  eexists. split; [vm_compute; reflexivity|].
  eapply (proj1 (return_pc_slot_holds_pc (P:=lp64) (R:=runtime 30 3) eq_refl
                   ltac:(cbn; lia) Hpd)
            958 [yield_stub] deep_stack (tlab_hit false) (tlab_hit false) vm_reuse freeze_ok);
    [exact Hargs | exact Hall | vm_compute; reflexivity].
Defined.


(** C5, the claim as stated fails.  The chunk holds a single frame of 598
    words and its 2 argument words, 600 live words, so the fast thaw takes
    the single-frame branch; that frame being the last one, the chunk is
    emptied: [sp] becomes [stack_size = 700], not [sp + 598 = 698], and
    [max_size] becomes [0], not [600 - 598 = 2]. *)
Lemma thaw_fast_last_frame_counterexample :
  500 <= stack_size chunk_one_frame - sp chunk_one_frame /\
  blob_frame_size (Runtime:=runtime 598 2)
    (stream_pc (P:=lp64) chunk_one_frame (sp chunk_one_frame)) = 598 /\
  exists chunk',
    heap (thaw_fast (P:=lp64) (R:=runtime 598 2) 0%nat chunk_one_frame vm_one_frame).2 !! 0%nat
      = Some chunk' /\
    sp chunk' = 700 /\ sp chunk_one_frame + 598 = 698 /\
    max_size chunk' = 0 /\ max_size chunk_one_frame - 598 = 2.
Proof.
  split; [vm_compute; discriminate|]. split; [reflexivity|].
  eexists. split; [vm_compute; reflexivity|]. repeat split.
Qed.


(** ** The further properties at concrete inputs *)

(** The alignment of the concrete platform: to two words, downward. *)
Lemma lp64_align p : frame_align_pointer (Platform:=lp64) p = 2 * (p / 2).
Proof.
  cbn. change (-2) with (Z.lnot (Z.ones 1)).
  rewrite <- Z.ldiff_land, Z.ldiff_ones_r by lia.
  rewrite Z.shiftl_mul_pow2, Z.shiftr_div_pow2 by lia. change (2 ^ 1) with 2. lia.
Qed.

Lemma lp64_align_le p : frame_align_pointer (Platform:=lp64) p <= p.
Proof. rewrite lp64_align. pose proof (Z.mul_div_le p 2 ltac:(lia)). lia. Qed.

Lemma lp64_align_mono p q :
  p <= q -> frame_align_pointer (Platform:=lp64) p <= frame_align_pointer (Platform:=lp64) q.
Proof.
  intros H. rewrite !lp64_align. pose proof (Z.div_le_mono p q 2 ltac:(lia) H). lia.
Qed.

Lemma lp64_align_bytes p : Z.shiftl (frame_align_pointer (Platform:=lp64) p) 3 `mod` 16 = 0.
Proof.
  rewrite lp64_align, Z.shiftl_mul_pow2 by lia. change (2 ^ 3) with 8.
  replace (2 * (p / 2) * 8) with (p / 2 * 16) by lia. apply Z.mod_mul. lia.
Qed.


Lemma thaw_fast_stack_window_witness :
  1 <= sender_sp_ret_address_offset (Platform:=lp64) <= metadata_words (Platform:=lp64) /\
  0 <= argsize chunk_100 <= stack_size chunk_100 - sp chunk_100 /\
  (thaw_fast (P:=lp64) (R:=runtime 30 0) 0%nat chunk_100 vm_plain).1 <= 1000 /\
  stack (thread (thaw_fast (P:=lp64) (R:=runtime 30 0) 0%nat chunk_100 vm_plain).2) 800
    = stack (thread vm_plain) 800 /\
  stack (thread (thaw_fast (P:=lp64) (R:=runtime 30 0) 0%nat chunk_100 vm_plain).2) 1000
    = stack (thread vm_plain) 1000.
Proof.
  assert (H1 : 1 <= sender_sp_ret_address_offset (Platform:=lp64)
               <= metadata_words (Platform:=lp64)) by (cbn; lia).
  assert (H2 : 0 <= argsize chunk_100 <= stack_size chunk_100 - sp chunk_100) by (cbn; lia).
  split; [exact H1|]. split; [exact H2|].
  destruct (thaw_fast_stack_window (P:=lp64) (R:=runtime 30 0) 0%nat chunk_100 vm_plain
              lp64_align_le lp64_align_mono H1 H2 ltac:(cbn; lia) ltac:(cbn; lia))
    as [Hsp Hout].
  split; [exact Hsp|].
  split; apply Hout; [left; vm_compute; reflexivity | right; cbn; lia].
Defined.

Lemma freeze_fast_within_chunk_witness :
  is_chunk_available_for_fast_freeze (P:=lp64) 958 (new_Freeze (P:=lp64) false vm_reuse) vm_reuse
    = true /\
  0 <= entry_argsize (entry vm_reuse) <= cont_size (P:=lp64) 958 vm_reuse /\
  exists c' vm',
    freeze_fast (P:=lp64) (R:=runtime 30 3) true 958 (tlab_hit false)
      (new_Freeze (P:=lp64) false vm_reuse) vm_reuse
      = Some (true, new_Freeze (P:=lp64) false vm_reuse, vm') /\
    heap vm' !! 0%nat = Some c' /\ stack_size c' = 200 /\ 2 <= sp c' /\
    words c' 103 = words chunk_100 103 /\ words c' 199 = words chunk_100 199.
Proof.
  assert (Ha : 0 <= entry_argsize (entry vm_reuse) <= cont_size (P:=lp64) 958 vm_reuse)
    by (vm_compute; split; discriminate).
  split; [reflexivity|]. split; [exact Ha|].
  destruct (freeze_fast_within_chunk (P:=lp64) (R:=runtime 30 3) 958 (tlab_hit false)
              (new_Freeze (P:=lp64) false vm_reuse) vm_reuse eq_refl Ha ltac:(cbn; lia))
    as (id & c & c' & vm' & Ht & Hf & Hl & Hs & Hm & Hw & _).
  injection Ht as <- <-.
  exists c', vm'. split; [exact Hf|]. split; [exact Hl|]. split; [exact Hs|].
  split; [exact Hm|].
  split; apply Hw; right; vm_compute; discriminate.
Defined.

Lemma freeze_thaw_round_trip_witness :
  cont_size (P:=lp64) 958 vm_cold < 500 /\
  exists fr1 vm1 c' c'',
    freeze_fast (P:=lp64) (R:=runtime 30 0) false 958 (tlab_hit false)
      (new_Freeze (P:=lp64) false vm_cold) vm_cold = Some (true, fr1, vm1) /\
    heap vm1 !! 0%nat = Some c' /\
    (thaw_fast (P:=lp64) (R:=runtime 30 0) 0%nat c' vm1).1 = 960 /\
    stack (thread (thaw_fast (P:=lp64) (R:=runtime 30 0) 0%nat c' vm1).2) 970
      = stack (thread vm_cold) 970 /\
    heap (thaw_fast (P:=lp64) (R:=runtime 30 0) 0%nat c' vm1).2 !! 0%nat = Some c'' /\
    sp c'' = stack_size c'' /\ max_size c'' = 0.
Proof.
  assert (Hsz : cont_size (P:=lp64) 958 vm_cold < 500) by (vm_compute; reflexivity).
  split; [exact Hsz|].
  eexists _, _.
  assert (Hf : freeze_fast (P:=lp64) (R:=runtime 30 0) false 958 (tlab_hit false)
                 (new_Freeze (P:=lp64) false vm_cold) vm_cold = Some (true, _, _))
    by reflexivity.
  destruct (freeze_thaw_round_trip (P:=lp64) (R:=runtime 30 0) false 958 (tlab_hit false)
              (new_Freeze (P:=lp64) false vm_cold) vm_cold _ _ Hf
              ltac:(discriminate) Hsz eq_refl eq_refl)
    as (id & c' & c'' & Ht & Hl & Hsp & Hstk & _ & Hl'' & He & _ & Hm).
  injection Ht as <-.
  exists c', c''. split; [exact Hf|]. split; [exact Hl|]. split; [exact Hsp|].
  split; [apply Hstk; vm_compute; discriminate|]. split; [exact Hl''|].
  split; [exact He | exact Hm].
Defined.

Lemma freeze_exception_iff_pending_witness :
  has_pending_exception (thread vm_locked) = false /\
  freeze_internal (P:=lp64) (R:=runtime 30 0) 958 (yield_stub :: two_frames false)
    (fun _ => 0) (tlab_hit false) (tlab_hit false) vm_locked
    = Some (freeze_exception, throw_exception vm_locked) /\
  has_pending_exception (thread (throw_exception vm_locked)) = true.
Proof.
  split; [reflexivity|]. split; [reflexivity|].
  apply (freeze_exception_iff_pending (P:=lp64) (R:=runtime 30 0) 958
           (yield_stub :: two_frames false) (fun _ => 0) (tlab_hit false) (tlab_hit false)
           vm_locked freeze_exception (throw_exception vm_locked) eq_refl eq_refl).
  reflexivity.
Defined.

Lemma freeze_pin_code_is_first_pinned_witness :
  exists caller fr',
    freeze (P:=lp64) (R:=runtime 30 0) (two_frames true) 0%nat deep_stack (tlab_hit false)
      0 false true (new_Freeze (P:=lp64) false vm_cold) vm_cold
      = Some (freeze_pinned_monitor, caller, fr', vm_cold) /\
    first_pinned (P:=lp64) false true 1000 (two_frames true) = Some freeze_pinned_monitor.
Proof.
  eexists _, _.
  assert (Hf : freeze (P:=lp64) (R:=runtime 30 0) (two_frames true) 0%nat deep_stack
                 (tlab_hit false) 0 false true (new_Freeze (P:=lp64) false vm_cold) vm_cold
               = Some (freeze_pinned_monitor, _, _, vm_cold)) by reflexivity.
  split; [exact Hf|].
  destruct (freeze_pin_code_is_first_pinned (P:=lp64) (R:=runtime 30 0) (two_frames true)
              0%nat deep_stack (tlab_hit false) 0 false true
              (new_Freeze (P:=lp64) false vm_cold) vm_cold freeze_pinned_monitor _ _ vm_cold
              ltac:(intros H; discriminate H) Hf) as [H | [H | H]];
    [discriminate H | discriminate H | exact H].
Defined.

Lemma freeze_of_approved_frames_witness :
  entry_is_pinned (entry vm_locked) = false /\
  Forall (fun f => is_pinned f = freeze_ok /\ (kind f = CompiledFrame -> oop_map f = true))
    (tl (yield_stub :: two_frames false)) /\
  exists vm',
    freeze_internal (P:=lp64) (R:=runtime 30 0) 958 (yield_stub :: two_frames false)
      deep_stack (tlab_hit false) (tlab_hit false) vm_locked = Some (freeze_ok, vm').
Proof.
  assert (Hall : Forall (fun f => is_pinned f = freeze_ok /\
                                  (kind f = CompiledFrame -> oop_map f = true))
                   (tl (yield_stub :: two_frames false)))
    by (repeat constructor).
  split; [reflexivity|]. split; [exact Hall|].
  assert (Hres : bool_decide (is_Some (freeze_internal (P:=lp64) (R:=runtime 30 0) 958
                                         (yield_stub :: two_frames false) deep_stack
                                         (tlab_hit false) (tlab_hit false) vm_locked)) = true)
    by (vm_compute; reflexivity).
  destruct (freeze_internal (P:=lp64) (R:=runtime 30 0) 958 (yield_stub :: two_frames false)
              deep_stack (tlab_hit false) (tlab_hit false) vm_locked)
    as [[res vm']|] eqn:E;
    [|apply bool_decide_eq_true in Hres; destruct Hres as [x Hx]; discriminate Hx].
  exists vm'.
  destruct (freeze_of_approved_frames (P:=lp64) (R:=runtime 30 0) 958
              (yield_stub :: two_frames false) deep_stack (tlab_hit false) (tlab_hit false)
              vm_locked res vm' eq_refl Hall E) as [-> | ->]; [reflexivity|].
  exfalso.
  assert (Hfr : fst <$> freeze_internal (P:=lp64) (R:=runtime 30 0) 958
                          (yield_stub :: two_frames false) deep_stack
                          (tlab_hit false) (tlab_hit false) vm_locked = Some freeze_ok)
    by (vm_compute; reflexivity).
  rewrite E in Hfr. discriminate Hfr.
Defined.

Lemma is_pinned0_reason_any_scope_witness :
  is_pinned0 frame_below_entry nested_entries (yield_stub :: two_frames true) 1 false
    = Some freeze_pinned_monitor /\
  is_pinned0 frame_below_entry nested_entries (yield_stub :: two_frames true) 2 false
    = Some freeze_pinned_monitor /\
  is_pinned_result freeze_pinned_monitor = true.
Proof.
  split; [reflexivity|]. split; [reflexivity|].
  destruct (is_pinned0_reason_any_scope frame_below_entry nested_entries
              (yield_stub :: two_frames true) 1 2 false
              freeze_pinned_monitor freeze_pinned_monitor eq_refl eq_refl) as [[H | H] _];
    [discriminate H | exact H].
Defined.

Lemma thaw_slow_frame_count_witness :
  exists sp' vm' c' thawed rest,
    thaw_slow (P:=lp64) (R:=runtime 30 0) mixed_chunk mixed_frames true
      (new_Thaw false vm_mixed) vm_mixed = Some (sp', vm') /\
    heap vm' !! 0%nat = Some c' /\ mixed_frames = thawed ++ rest /\
    (1 <= length thawed <= 2)%nat /\ no_compiled_top thawed rest.
Proof.
  assert (Hsp : fst <$> thaw_slow (P:=lp64) (R:=runtime 30 0) mixed_chunk mixed_frames true
                          (new_Thaw false vm_mixed) vm_mixed = Some 960)
    by (vm_compute; reflexivity).
  destruct (thaw_slow (P:=lp64) (R:=runtime 30 0) mixed_chunk mixed_frames true
              (new_Thaw false vm_mixed) vm_mixed) as [[sp' vm']|] eqn:E; [|discriminate Hsp].
  destruct (thaw_slow_frame_count (P:=lp64) (R:=runtime 30 0) mixed_chunk mixed_frames true
              (new_Thaw false vm_mixed) vm_mixed sp' vm' ltac:(intros H; discriminate H) E)
    as (id & c' & thawed & rest & Ht & Hl & Hfr & _ & H1 & H2 & Hn).
  injection Ht as <-.
  exists sp', vm', c', thawed, rest. split; [reflexivity|]. split; [exact Hl|].
  split; [exact Hfr|]. split; [split; [exact H1 | exact H2] | exact Hn].
Defined.

Lemma freeze_ok_leaves_frames_witness :
  0 <= align_wiggle (Platform:=lp64) /\
  (forall f caller, h_sp (new_heap_frame (Platform:=lp64) f caller).1 < h_sp caller) /\
  0 <= entry_argsize (entry vm_locked) < cont_size (P:=lp64) 958 vm_locked /\
  frames_sized (P:=lp64) 0 false (tl (yield_stub :: two_frames false)) /\
  all_chunks chunk_inv vm_locked /\
  exists vm' id c,
    freeze_internal (P:=lp64) (R:=runtime 30 0) 958 (yield_stub :: two_frames false)
      deep_stack (tlab_hit false) (tlab_hit false) vm_locked = Some (freeze_ok, vm') /\
    continuation_tail vm' = Some id /\ heap vm' !! id = Some c /\
    is_empty c = false /\ 0 < max_size c /\
    cont_is_empty (continuation_tail vm') vm' = false.
Proof.
  assert (Hw : 0 <= align_wiggle (Platform:=lp64)) by (cbn; lia).
  assert (Hb : forall f caller,
            h_sp (new_heap_frame (Platform:=lp64) f caller).1 < h_sp caller)
    by (intros f caller; cbn; lia).
  assert (Hargs : 0 <= entry_argsize (entry vm_locked) < cont_size (P:=lp64) 958 vm_locked)
    by (vm_compute; split; [discriminate | reflexivity]).
  assert (Hsz : frames_sized (P:=lp64) 0 false (tl (yield_stub :: two_frames false)))
    by (cbn; unfold compiled_fsize; cbn; lia).
  assert (Hall : all_chunks chunk_inv vm_locked).
  { intros [|[|j]] c Hl; [injection Hl as <- | discriminate Hl ..].
    split; [cbn; lia|]. right. cbn. lia. }
  split; [exact Hw|]. split; [exact Hb|]. split; [exact Hargs|]. split; [exact Hsz|].
  split; [exact Hall|].
  assert (Hres : fst <$> freeze_internal (P:=lp64) (R:=runtime 30 0) 958
                           (yield_stub :: two_frames false) deep_stack
                           (tlab_hit false) (tlab_hit false) vm_locked = Some freeze_ok)
    by (vm_compute; reflexivity).
  destruct (freeze_internal (P:=lp64) (R:=runtime 30 0) 958 (yield_stub :: two_frames false)
              deep_stack (tlab_hit false) (tlab_hit false) vm_locked)
    as [[res vm']|] eqn:E; [|discriminate Hres].
  injection Hres as ->.
  destruct (freeze_ok_leaves_frames (P:=lp64) (R:=runtime 30 0) 958
              (yield_stub :: two_frames false) deep_stack (tlab_hit false) (tlab_hit false)
              vm_locked vm' Hw Hb Hargs Hsz Hall E)
    as (id & c & Ht & Hl & He & _ & Hm & Hc & _).
  exists vm', id, c. split; [reflexivity|]. split; [exact Ht|]. split; [exact Hl|].
  split; [exact He|]. split; [exact Hm | exact Hc].
Defined.

Lemma freeze_exception_leaves_state_witness :
  has_pending_exception (thread vm_cold) = false /\
  freeze_internal (P:=lp64) (R:=runtime 30 0) 958 (yield_stub :: two_frames false)
    deep_stack slow_null slow_null vm_cold = Some (freeze_exception, throw_exception vm_cold) /\
  continuation_tail (throw_exception vm_cold) = None /\
  has_pending_exception (thread (throw_exception vm_cold)) = true.
Proof.
  split; [reflexivity|]. split; [reflexivity|].
  destruct (freeze_exception_leaves_state (P:=lp64) (R:=runtime 30 0) 958
              (yield_stub :: two_frames false) deep_stack slow_null slow_null vm_cold
              (throw_exception vm_cold) eq_refl eq_refl) as (Ht & _ & _ & _ & Hp & _).
  split; [exact Ht | exact Hp].
Defined.


Lemma freeze_writes_tail_only_witness :
  exists vm' c,
    freeze_internal (P:=lp64) (R:=runtime 30 0) 958 [yield_stub] deep_stack
      (tlab_hit false) (tlab_hit false) vm_two = Some (freeze_ok, vm') /\
    continuation_tail vm' = Some 1%nat /\
    heap vm' !! 0%nat = Some c /\ heap vm_two !! 0%nat = Some c.
Proof.
  assert (Hres : (fun r => (r.1, continuation_tail r.2, length (heap r.2)))
                 <$> freeze_internal (P:=lp64) (R:=runtime 30 0) 958 [yield_stub] deep_stack
                       (tlab_hit false) (tlab_hit false) vm_two
                 = Some (freeze_ok, Some 1%nat, 2%nat))
    by (vm_compute; reflexivity).
  destruct (freeze_internal (P:=lp64) (R:=runtime 30 0) 958 [yield_stub] deep_stack
              (tlab_hit false) (tlab_hit false) vm_two) as [[res vm']|] eqn:E;
    [|discriminate Hres].
  injection Hres as -> Htl Hlen.
  destruct (heap vm' !! 0%nat) as [c|] eqn:Hl;
    [|apply lookup_ge_None_1 in Hl; rewrite Hlen in Hl; lia].
  exists vm', c. split; [reflexivity|]. split; [exact Htl|]. split; [exact Hl|].
  destruct (freeze_writes_tail_only (P:=lp64) (R:=runtime 30 0) 958 [yield_stub] deep_stack
              (tlab_hit false) (tlab_hit false) vm_two freeze_ok vm' E 0%nat c Hl
              ltac:(rewrite Htl; discriminate)) as [H | [H _]];
    [exact H | discriminate H].
Defined.

Lemma thaw_returns_aligned_sp_witness :
  LogBytesPerWord (Platform:=lp64) = 3 /\ frame_alignment (Platform:=lp64) = 16 /\
  exists vm',
    thaw (P:=lp64) (R:=runtime 30 0) thaw_top mixed_frames false vm_mixed = Some (960, vm') /\
    Z.shiftl 960 3 `mod` 16 = 0.
Proof.
  split; [reflexivity|]. split; [reflexivity|].
  assert (Hsp : fst <$> thaw (P:=lp64) (R:=runtime 30 0) thaw_top mixed_frames false vm_mixed
                = Some 960) by (vm_compute; reflexivity).
  destruct (thaw (P:=lp64) (R:=runtime 30 0) thaw_top mixed_frames false vm_mixed)
    as [[sp' vm']|] eqn:E; [|discriminate Hsp].
  injection Hsp as ->.
  exists vm'. split; [reflexivity|].
  apply (thaw_returns_aligned_sp (P:=lp64) (R:=runtime 30 0) thaw_top mixed_frames false
           vm_mixed 960 vm' eq_refl eq_refl lp64_align_bytes E).
Defined.

Lemma thaw_freeze_round_trip_witness :
  continuation_tail vm_plain = Some 0%nat /\ heap vm_plain !! 0%nat = Some chunk_100 /\
  stack_size chunk_100 - sp chunk_100 < 500 /\
  exists vm2 c2,
    freeze_fast (P:=lp64) (R:=runtime 30 0) true
      ((thaw_fast (P:=lp64) (R:=runtime 30 0) 0%nat chunk_100 vm_plain).1 - 2) (tlab_hit false)
      (new_Freeze (P:=lp64) false (thaw_fast (P:=lp64) (R:=runtime 30 0) 0%nat chunk_100 vm_plain).2)
      (thaw_fast (P:=lp64) (R:=runtime 30 0) 0%nat chunk_100 vm_plain).2
      = Some (true,
              new_Freeze (P:=lp64) false
                (thaw_fast (P:=lp64) (R:=runtime 30 0) 0%nat chunk_100 vm_plain).2, vm2) /\
    heap vm2 !! 0%nat = Some c2 /\ sp c2 = 100 /\ stack_size c2 = 200 /\
    words c2 150 = words chunk_100 150 /\ words c2 199 = 6000.
Proof.
  assert (Hs : stack_size chunk_100 - sp chunk_100 < 500) by (vm_compute; reflexivity).
  split; [reflexivity|]. split; [reflexivity|]. split; [exact Hs|].
  destruct (thaw_freeze_round_trip (P:=lp64) (R:=runtime 30 0) 0%nat chunk_100 vm_plain
              (tlab_hit false) eq_refl eq_refl Hs ltac:(cbn; lia) eq_refl eq_refl)
    as (_ & vm2 & c2 & Hf & _ & Hl & Hsp & _ & Hss & _ & Hw & Hpc & _).
  exists vm2, c2. split; [exact Hf|]. split; [exact Hl|]. split; [exact Hsp|].
  split; [exact Hss|]. split; [apply Hw; vm_compute; discriminate | exact Hpc].
Defined.
